(** * MERN chat application: storage layer and realtime socket server

    A shallow embedding of [server/storage.ts] (the in-memory store
    [MemStorage]), of the history route of [server/routes.ts] and of the
    WebSocket server [setupWebSocketServer], together with the properties
    the design document states about them.

    Modelling conventions.
    - A JavaScript [Map] keeps its entries in insertion order, and the code
      relies on it ([Array.from(map.values())], [find], [slice]); it is
      modelled by the association list [JsMap].
    - [new Date()] is an input: every operation that reads the clock takes
      the instant as an argument (milliseconds, as [getTime()] returns).
    - Identifiers are [number]s in one revision of the store and [string]s
      in the other; the store is written once over the class [JsId].
    - Strings are sequences of code units below 256 (see [Str]).
    - An [async] handler is modelled twice: in one piece ([step], [run]),
      which is how it runs when nothing else runs before it is resumed,
      and cut at its [await]s ([arrive], [resume], [runActions]), with
      the pieces of different handlers in any order.
    - The 30 second heartbeat is [Heartbeat.onInterval]; a socket it
      terminates reaches the server as a ['close'] event like any other. *)

From Stdlib Require Import ZArith String Ascii List Lia.
From stdpp Require Import base decidable option list sorting strings pretty.

Local Open Scope Z_scope.

(** ** JavaScript [Map]: an insertion-ordered association list *)

Module JsMap.
Section defs.
Context {K V : Type} `{EqDecision K}.

Definition empty : list (K * V) := [].

Fixpoint get (k : K) (m : list (K * V)) : option V :=
  match m with
  | [] => None
  | (k', v) :: m' => if decide (k' = k) then Some v else get k m'
  end.

Definition has (k : K) (m : list (K * V)) : bool :=
  match get k m with Some _ => true | None => false end.

(** [set] overwrites the value of a present key where it stands and puts
    a new key last. *)
Fixpoint set (k : K) (v : V) (m : list (K * V)) : list (K * V) :=
  match m with
  | [] => [(k, v)]
  | (k', v') :: m' =>
      if decide (k' = k) then (k, v) :: m' else (k', v') :: set k v m'
  end.

Fixpoint delete (k : K) (m : list (K * V)) : list (K * V) :=
  match m with
  | [] => []
  | (k', v') :: m' =>
      if decide (k' = k) then m' else (k', v') :: delete k m'
  end.

Definition keys (m : list (K * V)) : list K := map fst m.
Definition values (m : list (K * V)) : list V := map snd m.
Definition entries (m : list (K * V)) : list (K * V) := m.
End defs.
End JsMap.

(** ** [Array.prototype.sort] with a comparator

    The built-in sort is stable; for a comparator that is a total preorder
    every stable sort returns the same array, here the one insertion sort
    builds: [a] stays before [b] unless [cmp a b > 0]. *)

Section sort.
Context {A : Type} (cmp : A → A → Z).

Fixpoint sort_insert (x : A) (l : list A) : list A :=
  match l with
  | [] => [x]
  | y :: l' => if decide (cmp x y ≤ 0) then x :: y :: l' else y :: sort_insert x l'
  end.

Fixpoint sort (l : list A) : list A :=
  match l with
  | [] => []
  | x :: l' => sort_insert x (sort l')
  end.

(** The order the comparator asks for: [x] may stand before [y]. *)
Definition inOrder (x y : A) : Prop := cmp x y ≤ 0.
End sort.

(** ** Strings: [trim], [toLowerCase], [includes]

    A string is the sequence of its code units, and the strings modelled
    are those whose code units are below 256 (Basic Latin and Latin-1),
    one [ascii] each. On these [toLowerCase] works unit by unit: the
    capital letters are A-Z (65-90), U+00C0-U+00D6 (192-214) and
    U+00D8-U+00DE (216-222), and the small letter of each is 32 above it.
    Of the white space and line terminators that [trim] strips, the ones
    below 256 are 9-13, 32 and 160 (no-break space). *)

Module Str.
Definition isWhiteSpace (c : ascii) : bool :=
  let n := N_of_ascii c in
  ((9 <=? n) && (n <=? 13) || (n =? 32) || (n =? 160))%N.

Definition lowerChar (c : ascii) : ascii :=
  let n := N_of_ascii c in
  if ((65 <=? n) && (n <=? 90) || (192 <=? n) && (n <=? 214)
      || (216 <=? n) && (n <=? 222))%N
  then ascii_of_N (n + 32) else c.

Fixpoint toLowerCase (s : string) : string :=
  match s with
  | EmptyString => EmptyString
  | String c s' => String (lowerChar c) (toLowerCase s')
  end.

Fixpoint trimStart (s : string) : string :=
  match s with
  | EmptyString => EmptyString
  | String c s' => if isWhiteSpace c then trimStart s' else s
  end.

Fixpoint trimEnd (s : string) : string :=
  match s with
  | EmptyString => EmptyString
  | String c s' =>
      match trimEnd s' with
      | EmptyString => if isWhiteSpace c then EmptyString else String c EmptyString
      | t => String c t
      end
  end.

Definition trim (s : string) : string := trimEnd (trimStart s).

Fixpoint startsWith (s t : string) : bool :=
  match t, s with
  | EmptyString, _ => true
  | String _ _, EmptyString => false
  | String b t', String a s' => if decide (a = b) then startsWith s' t' else false
  end.

(** [s.includes(t)] *)
Fixpoint includes (s t : string) : bool :=
  startsWith s t ||
  match s with
  | EmptyString => false
  | String _ s' => includes s' t
  end.

(** A string in a condition: only the empty string is falsy. *)
Definition truthy (s : string) : bool :=
  match s with EmptyString => false | _ => true end.

(** Every character of [s] is one that [trim] strips. *)
Fixpoint allWhiteSpace (s : string) : bool :=
  match s with
  | EmptyString => true
  | String c s' => isWhiteSpace c && allWhiteSpace s'
  end.
End Str.

(** ** Identifiers

    What the store needs of its identifier type: [===], truthiness (for
    [conv.lastMessageId ? ... : ...]) and the identifier made from a counter
    ([this.currentUserId++], followed by [toString()] where identifiers are
    strings). *)

Class JsId (Id : Type) := {
  JsId_eq_dec :: EqDecision Id;
  idTruthy : Id → bool;
  ofCounter : Z → Id;
  ofCounter_inj : ∀ m n, ofCounter m = ofCounter n → m = n;
}.

#[export] Instance JsId_number : JsId Z := {|
  idTruthy n := negb (n =? 0);
  ofCounter n := n;
  ofCounter_inj m n H := H;
|}.

#[export] Instance JsId_string : JsId string := {|
  idTruthy := Str.truthy;
  ofCounter n := pretty n;
  ofCounter_inj m n H := inj (pretty : Z → string) m n H;
|}.

(** ** Records of [shared/schema.ts] *)

Module User.
Record t {Id : Type} := mk {
  id : Id;
  name : string;
  username : string;
  email : string;
  password : string;
  avatar : option string;
  createdAt : Z;
  lastActive : Z;
  isOnline : bool;
}.
Arguments t : clear implicits.

(** [user.isOnline = isOnline; user.lastActive = new Date()] *)
Definition withStatus {Id} (isOnline' : bool) (now : Z) (u : t Id) : t Id :=
  mk Id (id u) (name u) (username u) (email u) (password u) (avatar u)
     (createdAt u) now isOnline'.
End User.

Record InsertUser := {
  iu_name : string;
  iu_username : string;
  iu_email : string;
  iu_password : string;
  iu_avatar : option string;
}.

Module Message.
Record t {Id : Type} := mk {
  id : Id;
  content : string;
  senderId : Id;
  receiverId : Id;
  timestamp : Z;
  read : bool;
}.
Arguments t : clear implicits.

(** [message.read = true] *)
Definition markRead {Id} (m : t Id) : t Id :=
  mk Id (id m) (content m) (senderId m) (receiverId m) (timestamp m) true.
End Message.

(** The fields of an [InsertMessage] the store tests against [undefined]
    are optional here. *)
Record InsertMessage {Id : Type} := {
  im_content : string;
  im_senderId : option Id;
  im_receiverId : option Id;
}.
Arguments InsertMessage : clear implicits.

Module Conversation.
Record t {Id : Type} := mk {
  id : Id;
  user1Id : Id;
  user2Id : Id;
  lastMessageId : option Id;
  updatedAt : Z;
}.
Arguments t : clear implicits.

(** [{ ...existingConversation, lastMessageId: messageId, updatedAt: new Date() }] *)
Definition touch {Id} (messageId : Id) (now : Z) (c : t Id) : t Id :=
  mk Id (id c) (user1Id c) (user2Id c) (Some messageId) now.
End Conversation.

(** What a call leaves behind: a value, or a thrown [Error]. *)
Inductive Outcome (A : Type) : Type :=
  | Returned (a : A)
  | Thrown (msg : string).
Arguments Returned {A} a.
Arguments Thrown {A} msg.

(** ** [MemStorage] *)

Record MemStorage {Id : Type} := mkStorage {
  users : list (Id * User.t Id);
  messages : list (Id * Message.t Id);
  conversations : list (Id * Conversation.t Id);
  currentUserId : Z;
  currentMessageId : Z;
  currentConversationId : Z;
}.
Arguments MemStorage : clear implicits.
Arguments mkStorage {Id}.

(** One element of the array [getConversations] returns:
    [{ ...conv, otherUser, lastMessage, unreadCount }]. *)
Record ConversationEntry {Id : Type} := mkEntry {
  conv : Conversation.t Id;
  otherUser : User.t Id;
  lastMessage : option (Message.t Id);
  unreadCount : nat;
}.
Arguments ConversationEntry : clear implicits.
Arguments mkEntry {Id}.

(** An HTTP response: [res.json(body)] or [res.status(n).send(text)]. *)
Inductive Response (A : Type) : Type :=
  | Json (status : Z) (body : A)
  | Send (status : Z) (text : string).
Arguments Json {A} status body.
Arguments Send {A} status text.

Section MemStorage.
Context {Id : Type} `{JsId Id}.

Definition init : MemStorage Id := mkStorage [] [] [] 1 1 1.

Definition getUser (id : Id) (st : MemStorage Id) : option (User.t Id) :=
  JsMap.get id (users st).

Definition createUser (insertUser : InsertUser) (now : Z) (st : MemStorage Id)
  : MemStorage Id * User.t Id :=
  let id := ofCounter (currentUserId st) in
  let user :=
    User.mk Id id (iu_name insertUser) (iu_username insertUser)
      (iu_email insertUser) (iu_password insertUser)
      (match iu_avatar insertUser with
       | Some a => if Str.truthy a then Some a else None
       | None => None
       end)
      now now true in
  (mkStorage (JsMap.set id user (users st)) (messages st) (conversations st)
     (currentUserId st + 1) (currentMessageId st) (currentConversationId st),
   user).

Definition updateUserStatus (userId : Id) (isOnline : bool) (now : Z)
    (st : MemStorage Id) : MemStorage Id :=
  match getUser userId st with
  | Some user =>
      mkStorage (JsMap.set userId (User.withStatus isOnline now user) (users st))
        (messages st) (conversations st)
        (currentUserId st) (currentMessageId st) (currentConversationId st)
  | None => st
  end.

(** The filter of [searchUsers]. *)
Definition userMatches (lowerQuery : string) (currentUserId : Id)
    (user : User.t Id) : Prop :=
  User.id user ≠ currentUserId ∧
  (Str.includes (Str.toLowerCase (User.username user)) lowerQuery ∨
   Str.includes (Str.toLowerCase (User.email user)) lowerQuery ∨
   Str.includes (Str.toLowerCase (User.name user)) lowerQuery).

#[global] Instance userMatches_dec q cur u : Decision (userMatches q cur u).
Proof. unfold userMatches. apply _. Defined.

Definition searchUsers (query : string) (currentUserId : Id)
    (st : MemStorage Id) : list (User.t Id) :=
  if negb (Str.truthy (Str.trim query)) then []
  else
    let lowerQuery := Str.trim (Str.toLowerCase query) in
    take 10 (filter (userMatches lowerQuery currentUserId)
               (JsMap.values (users st))).

(** The filter of [getMessages]: either direction between the two. *)
Definition between (userId otherUserId : Id) (message : Message.t Id) : Prop :=
  (Message.senderId message = userId ∧ Message.receiverId message = otherUserId) ∨
  (Message.senderId message = otherUserId ∧ Message.receiverId message = userId).

#[global] Instance between_dec u o m : Decision (between u o m).
Proof. unfold between. apply _. Defined.

Definition byTimestamp (a b : Message.t Id) : Z :=
  Message.timestamp a - Message.timestamp b.

Definition getMessages (userId otherUserId : Id) (st : MemStorage Id)
    : list (Message.t Id) :=
  sort byTimestamp (filter (between userId otherUserId) (JsMap.values (messages st))).

(** The filter of [markMessagesAsRead] and of the unread count: sent by
    [otherUserId] to [userId] and not read. *)
Definition unreadFrom (userId otherUserId : Id) (message : Message.t Id) : Prop :=
  Message.senderId message = otherUserId ∧
  Message.receiverId message = userId ∧
  Message.read message = false.

#[global] Instance unreadFrom_dec u o m : Decision (unreadFrom u o m).
Proof. unfold unreadFrom. apply _. Defined.

(** Every selected message object has its flag set and is stored again
    under its own identifier. The object is the one the map already holds
    under that identifier, so the assignment and the [set] write the same
    slot. *)
Definition markMessagesAsRead (userId otherUserId : Id) (st : MemStorage Id)
    : MemStorage Id :=
  let selected :=
    filter (unreadFrom userId otherUserId) (JsMap.values (messages st)) in
  mkStorage (users st)
    (foldl (λ msgs message,
              JsMap.set (Message.id message) (Message.markRead message) msgs)
           (messages st) selected)
    (conversations st)
    (currentUserId st) (currentMessageId st) (currentConversationId st).

(** The predicate of [getConversation]: the pair in either orientation. *)
Definition samePair (user1Id user2Id : Id) (c : Conversation.t Id) : Prop :=
  (Conversation.user1Id c = user1Id ∧ Conversation.user2Id c = user2Id) ∨
  (Conversation.user1Id c = user2Id ∧ Conversation.user2Id c = user1Id).

#[global] Instance samePair_dec a b c : Decision (samePair a b c).
Proof. unfold samePair. apply _. Defined.

Definition getConversation (user1Id user2Id : Id) (st : MemStorage Id)
    : option (Conversation.t Id) :=
  List.find (λ c, bool_decide (samePair user1Id user2Id c))
    (JsMap.values (conversations st)).

(** The parameters are identifiers, never [undefined]: the guard at the
    head of the function cannot fire. *)
Definition createOrUpdateConversation (userId otherUserId messageId : Id)
    (now : Z) (st : MemStorage Id) : MemStorage Id * Conversation.t Id :=
  match getConversation userId otherUserId st with
  | Some existingConversation =>
      let updatedConversation :=
        Conversation.touch messageId now existingConversation in
      (mkStorage (users st) (messages st)
         (JsMap.set (Conversation.id existingConversation) updatedConversation
            (conversations st))
         (currentUserId st) (currentMessageId st) (currentConversationId st),
       updatedConversation)
  | None =>
      let id := ofCounter (currentConversationId st) in
      let newConversation :=
        Conversation.mk Id id userId otherUserId (Some messageId) now in
      (mkStorage (users st) (messages st)
         (JsMap.set id newConversation (conversations st))
         (currentUserId st) (currentMessageId st) (currentConversationId st + 1),
       newConversation)
  end.

(** [now] stamps the message, [nowConv] the conversation: the two calls
    of [new Date()]. The counter is advanced before the guard throws. *)
Definition createMessage (insertMessage : InsertMessage Id) (now nowConv : Z)
    (st : MemStorage Id) : MemStorage Id * Outcome (Message.t Id) :=
  let id := ofCounter (currentMessageId st) in
  let st1 :=
    mkStorage (users st) (messages st) (conversations st)
      (currentUserId st) (currentMessageId st + 1) (currentConversationId st) in
  match im_senderId insertMessage, im_receiverId insertMessage with
  | Some senderId, Some receiverId =>
      let message :=
        Message.mk Id id (im_content insertMessage) senderId receiverId now false in
      let st2 :=
        mkStorage (users st1) (JsMap.set id message (messages st1))
          (conversations st1)
          (currentUserId st1) (currentMessageId st1) (currentConversationId st1) in
      (fst (createOrUpdateConversation senderId receiverId id nowConv st2),
       Returned message)
  | _, _ => (st1, Thrown "senderId and receiverId must be defined")
  end.

Definition involves (userId : Id) (c : Conversation.t Id) : Prop :=
  Conversation.user1Id c = userId ∨ Conversation.user2Id c = userId.

#[global] Instance involves_dec u c : Decision (involves u c).
Proof. unfold involves. apply _. Defined.

Definition otherOf (userId : Id) (c : Conversation.t Id) : Id :=
  if decide (Conversation.user1Id c = userId)
  then Conversation.user2Id c else Conversation.user1Id c.

(** The unread count of one listing entry. *)
Definition countUnread (userId otherUserId : Id) (st : MemStorage Id) : nat :=
  length (filter (unreadFrom userId otherUserId) (JsMap.values (messages st))).

(** The body of the [map] callback of [getConversations]; [None] is its
    [null]. *)
Definition entryOf (userId : Id) (st : MemStorage Id) (c : Conversation.t Id)
    : option (ConversationEntry Id) :=
  let otherUserId := otherOf userId c in
  match getUser otherUserId st with
  | None => None
  | Some otherUser =>
      let lastMessage :=
        match Conversation.lastMessageId c with
        | Some mid => if idTruthy mid then JsMap.get mid (messages st) else None
        | None => None
        end in
      Some (mkEntry c otherUser lastMessage (countUnread userId otherUserId st))
  end.

Definition byUpdatedAtDesc (a b : ConversationEntry Id) : Z :=
  Conversation.updatedAt (conv b) - Conversation.updatedAt (conv a).

Definition getConversations (userId : Id) (st : MemStorage Id)
    : list (ConversationEntry Id) :=
  let userConversations :=
    filter (involves userId) (JsMap.values (conversations st)) in
  let result := map (entryOf userId st) userConversations in
  sort byUpdatedAtDesc (omap (λ item, item) result).

(** *** [GET /api/messages/:conversationId] of [routes.ts]

    The array [getMessages] returned holds the stored objects themselves,
    and [res.json] runs after [markMessagesAsRead] changed them: the body
    shows each message as the store has it then ([current]). *)
Definition current (st : MemStorage Id) (m : Message.t Id) : Message.t Id :=
  default m (JsMap.get (Message.id m) (messages st)).

Definition getMessagesRoute (userId conversationId : Id) (st : MemStorage Id)
    : MemStorage Id * Response (list (Message.t Id)) :=
  let conversations := getConversations userId st in
  match List.find (λ c, bool_decide (Conversation.id (conv c) = conversationId))
          conversations with
  | None => (st, Send 404 "Conversation not found")
  | Some conversation =>
      let other := User.id (otherUser conversation) in
      let messages := getMessages userId other st in
      let st' := markMessagesAsRead userId other st in
      (st', Json 200 (map (current st') messages))
  end.
End MemStorage.

(** ** The WebSocket server of [setupWebSocketServer]

    User identifiers are strings here ([userId?: string]); the store is the
    one above at [Id := string]. A socket is named by its index in the
    array of all sockets the server ever accepted; the [clients] map holds
    such indices, so two entries can name one socket object. *)

Inductive MessageType := TEXT | TYPING | STATUS.

#[global] Instance MessageType_eq_dec : EqDecision MessageType.
Proof. solve_decision. Defined.

Record WebSocketMessage := mkFrame {
  type : MessageType;
  senderId : string;
  receiverId : string;
  content : option string;
  timestamp : option string;
}.

Inductive ReadyState := CONNECTING | OPEN | CLOSING | CLOSED.

#[global] Instance ReadyState_eq_dec : EqDecision ReadyState.
Proof. solve_decision. Defined.

(** [outbox] lists what [send] was called with on this socket, oldest
    first. *)
Record AuthenticatedClient := mkClient {
  userId : option string;
  isAlive : bool;
  readyState : ReadyState;
  outbox : list string;
}.

Record Server := mkServer {
  storage : MemStorage string;
  sockets : list AuthenticatedClient;
  clients : list (string * nat);
}.

Module Ws.
(** [ws.send(data)] *)
Definition send (data : string) (ws : AuthenticatedClient) : AuthenticatedClient :=
  mkClient (userId ws) (isAlive ws) (readyState ws) (outbox ws ++ [data]).

(** [ws.close()]: an open socket starts its closing handshake. *)
Definition close (ws : AuthenticatedClient) : AuthenticatedClient :=
  mkClient (userId ws) (isAlive ws)
    (match readyState ws with
     | CONNECTING | OPEN => CLOSING
     | r => r
     end)
    (outbox ws).

(** The socket has closed: the state in which ['close'] is emitted. *)
Definition closed (ws : AuthenticatedClient) : AuthenticatedClient :=
  mkClient (userId ws) (isAlive ws) CLOSED (outbox ws).

Definition setUserId (u : string) (ws : AuthenticatedClient) : AuthenticatedClient :=
  mkClient (Some u) (isAlive ws) (readyState ws) (outbox ws).

Definition setAlive (b : bool) (ws : AuthenticatedClient) : AuthenticatedClient :=
  mkClient (userId ws) b (readyState ws) (outbox ws).

(** [ws.userId] in a condition. *)
Definition hasUserId (ws : AuthenticatedClient) : bool :=
  match userId ws with
  | Some u => Str.truthy u
  | None => false
  end.

Definition isOpen (h : nat) (socks : list AuthenticatedClient) : bool :=
  match socks !! h with
  | Some ws => bool_decide (readyState ws = OPEN)
  | None => false
  end.
End Ws.

Section Chat.
Variable JSON_parse : string → option WebSocketMessage.
Variable JSON_stringify : WebSocketMessage → string.

Definition newServer (st : MemStorage string) : Server := mkServer st [] [].

(** [wss.on('connection', ...)]: the new socket is open and alive. *)
Definition onConnection (s : Server) : Server :=
  mkServer (storage s) (sockets s ++ [mkClient None true OPEN []]) (clients s).

(** The registration inside the authentication block: take the identity,
    close the socket registered under it when that is another one,
    register this one. *)
Definition bind (u : string) (c : nat) (s : Server) : Server :=
  let socks := alter (Ws.setUserId u) c (sockets s) in
  let socks' :=
    if JsMap.has u (clients s) then
      match JsMap.get u (clients s) with
      | Some existingClient =>
          if decide (existingClient ≠ c) then alter Ws.close existingClient socks
          else socks
      | None => socks
      end
    else socks in
  mkServer (storage s) socks' (JsMap.set u c (clients s)).

(** The authentication block; [None] is its early [return]. *)
Definition authenticate (c : nat) (message : WebSocketMessage) (now : Z)
    (s : Server) : option Server :=
  match getUser (senderId message) (storage s) with
  | None => None
  | Some _ =>
      let s1 := bind (senderId message) c s in
      if decide (type message = STATUS) then
        let isOnline := bool_decide (content message = Some "online") in
        Some (mkServer (updateUserStatus (senderId message) isOnline now (storage s1))
                (sockets s1) (clients s1))
      else Some s1
  end.

(** [clients.get(receiverId)], then [send] when the socket is open. *)
Definition forward (receiver : string) (data : string) (s : Server) : Server :=
  match JsMap.get receiver (clients s) with
  | Some recipientWs =>
      if Ws.isOpen recipientWs (sockets s)
      then mkServer (storage s) (alter (Ws.send data) recipientWs (sockets s)) (clients s)
      else s
  | None => s
  end.

(** The loop over [clients.entries()] that skips the sender. *)
Definition broadcast (sender : string) (data : string) (s : Server) : Server :=
  mkServer (storage s)
    (foldl (λ socks entry,
              if bool_decide (entry.1 ≠ sender) && Ws.isOpen entry.2 socks
              then alter (Ws.send data) entry.2 socks
              else socks)
           (sockets s) (JsMap.entries (clients s)))
    (clients s).

(** The [switch] on the frame type. *)
Definition route (data : string) (message : WebSocketMessage) (s : Server) : Server :=
  match type message with
  | TEXT => forward (receiverId message) data s
  | TYPING => forward (receiverId message) data s
  | STATUS => broadcast (senderId message) data s
  end.

(** [ws.on('message', ...)] for the socket [c]. A frame [JSON.parse]
    rejects is caught and changes nothing. *)
Definition onMessage (c : nat) (data : string) (now : Z) (s : Server) : Server :=
  match sockets s !! c with
  | None => s
  | Some ws =>
      match JSON_parse data with
      | None => s
      | Some message =>
          if negb (Ws.hasUserId ws) && negb (bool_decide (type message = TEXT)) then
            match authenticate c message now s with
            | None => s
            | Some s1 => route data message s1
            end
          else route data message s
      end
  end.

Definition offlineMessage (u : string) : WebSocketMessage :=
  mkFrame STATUS u "0" (Some "offline") None.

(** [ws.on('close', ...)] for the socket [c], which has just closed. *)
Definition onClose (c : nat) (now : Z) (s : Server) : Server :=
  match sockets s !! c with
  | None => s
  | Some ws =>
      let s0 := mkServer (storage s) (alter Ws.closed c (sockets s)) (clients s) in
      match userId ws with
      | Some u =>
          if Str.truthy u then
            let s1 :=
              mkServer (updateUserStatus u false now (storage s0))
                (sockets s0) (clients s0) in
            let s2 := broadcast u (JSON_stringify (offlineMessage u)) s1 in
            mkServer (storage s2) (sockets s2) (JsMap.delete u (clients s2))
          else s0
      | None => s0
      end
  end.

(** [ws.on('pong', ...)] *)
Definition onPong (c : nat) (s : Server) : Server :=
  mkServer (storage s) (alter (Ws.setAlive true) c (sockets s)) (clients s).

(** The events of one server run, and the run itself. *)
Inductive Event :=
  | Connection
  | Frame (c : nat) (data : string) (now : Z)
  | Close (c : nat) (now : Z)
  | Pong (c : nat).

Definition step (s : Server) (e : Event) : Server :=
  match e with
  | Connection => onConnection s
  | Frame c data now => onMessage c data now s
  | Close c now => onClose c now s
  | Pong c => onPong c s
  end.

Definition run (s : Server) (es : list Event) : Server := foldl step s es.

(** The socket registered for an identity, and what a socket was sent. *)
Definition lookup (u : string) (s : Server) : option nat := JsMap.get u (clients s).

Definition sentTo (h : nat) (s : Server) : list string :=
  match sockets s !! h with
  | Some ws => outbox ws
  | None => []
  end.

Definition stateOf (h : nat) (s : Server) : option ReadyState :=
  readyState <$> sockets s !! h.

Definition identityOf (h : nat) (s : Server) : option string :=
  sockets s !! h ≫= userId.

(** The persisted online flag of a user. *)
Definition userOnline (u : string) (s : Server) : option bool :=
  User.isOnline <$> getUser u (storage s).

(** [close()] was called on the socket, or it has closed. *)
Definition closedAt (h : nat) (s : Server) : Prop :=
  stateOf h s = Some CLOSING ∨ stateOf h s = Some CLOSED.

(** The sockets of [hs] take the identity [u] one after the other. *)
Definition bindAll (u : string) (hs : list nat) (s : Server) : Server :=
  foldl (λ s h, bind u h s) s hs.
End Chat.

(** ** Sample data for the closed instances below *)

Module Demo.
(** A store over numeric identifiers with the users 1 (ann), 2 (bob) and
    3 (cy). *)
Definition ann : InsertUser := Build_InsertUser "Ann" "ann" "ann@x.io" "secret1" None.
Definition bob : InsertUser := Build_InsertUser "Bob" "bob" "bob@x.io" "secret2" None.
Definition cy : InsertUser := Build_InsertUser "Cy" "cy" "cy@x.io" "secret3" None.

Definition threeUsers {Id} `{JsId Id} : MemStorage Id :=
  (createUser cy 30 (createUser bob 20 (createUser ann 10 init).1).1).1.

Definition text {Id} (c : string) (from to : Id) : InsertMessage Id :=
  Build_InsertMessage Id c (Some from) (Some to).

(** The wire format of the sample frames: [kind:sender:receiver:content]
    for the few frames used, anything else does not parse. *)
Definition frames : list (string * WebSocketMessage) :=
  [ ("status:1:0:online", mkFrame STATUS "1" "0" (Some "online") None);
    ("status:2:0:online", mkFrame STATUS "2" "0" (Some "online") None);
    ("typing:1:2:typing", mkFrame TYPING "1" "2" (Some "typing") None);
    ("typing:9:2:typing", mkFrame TYPING "9" "2" (Some "typing") None);
    ("text:9:2:hi", mkFrame TEXT "9" "2" (Some "hi") None) ].

Definition parse (data : string) : option WebSocketMessage := JsMap.get data frames.

Definition stringify (m : WebSocketMessage) : string :=
  match type m with
  | STATUS => "status:" +:+ senderId m +:+ ":" +:+ receiverId m +:+ ":" +:+ default "" (content m)
  | TYPING => "typing:" +:+ senderId m +:+ ":" +:+ receiverId m +:+ ":" +:+ default "" (content m)
  | TEXT => "text:" +:+ senderId m +:+ ":" +:+ receiverId m +:+ ":" +:+ default "" (content m)
  end.

Definition server0 : Server := newServer threeUsers.

(** User 2 announces itself on socket 0; a second socket has connected
    and sent nothing yet. *)
Definition withGuest : Server :=
  run parse stringify server0
    [Connection; Frame 0 "status:2:0:online" 100; Connection].

(** User 2 is on socket 0; user 1 announces itself on socket 1 and then
    again on socket 2, which replaces socket 1. *)
Definition replaced : Server :=
  run parse stringify server0
    [Connection; Frame 0 "status:2:0:online" 100;
     Connection; Frame 1 "status:1:0:online" 101;
     Connection; Frame 2 "status:1:0:online" 102].

(** Three sockets, none of them bound. *)
Definition threeSockets : Server :=
  run parse stringify server0 [Connection; Connection; Connection].
End Demo.

(** ** Well-formed stores

    What every function of [MemStorage] keeps true of its three maps: a
    [Map] has each key once, every record is stored under its own [id],
    and the identifiers in use were made from counter values already
    passed. *)

Section Invariants.
Context {Id : Type} `{JsId Id}.

Definition keyed {V : Type} (idOf : V → Id) (bound : Z) (m : list (Id * V)) : Prop :=
  NoDup (JsMap.keys m) ∧
  (∀ k v, (k, v) ∈ m → idOf v = k) ∧
  (∀ k, k ∈ JsMap.keys m → ∃ n, k = ofCounter n ∧ n < bound).

Definition wf (st : MemStorage Id) : Prop :=
  keyed User.id (currentUserId st) (users st) ∧
  keyed Message.id (currentMessageId st) (messages st) ∧
  keyed Conversation.id (currentConversationId st) (conversations st).

(** The conversation records of the unordered pair [{a, b}]. *)
Definition conversationsOf (a b : Id) (st : MemStorage Id) : list (Conversation.t Id) :=
  filter (samePair a b) (JsMap.values (conversations st)).

Definition onePerPair (st : MemStorage Id) : Prop :=
  ∀ a b, (length (conversationsOf a b st) ≤ 1)%nat.

(** What [markMessagesAsRead] is to do to one stored message. *)
Definition readBy (userId otherUserId : Id) (m : Message.t Id) : Message.t Id :=
  if decide (unreadFrom userId otherUserId m) then Message.markRead m else m.

(** Ascending timestamps: [a] is not later than [b]. *)
Definition notAfter (a b : Message.t Id) : Prop :=
  Message.timestamp a ≤ Message.timestamp b.

(** [readBy], on an entry of the message map. *)
Definition readEntry (u o : Id) (kv : Id * Message.t Id) : Id * Message.t Id :=
  (kv.1, readBy u o kv.2).

(** The calls that change a store, and the store a sequence of them
    builds from the empty one. *)
Inductive StoreOp :=
  | OpCreateUser (insertUser : InsertUser) (now : Z)
  | OpUpdateUserStatus (userId : Id) (isOnline : bool) (now : Z)
  | OpCreateMessage (insertMessage : InsertMessage Id) (now nowConv : Z)
  | OpMarkMessagesAsRead (userId otherUserId : Id).

Definition applyOp (st : MemStorage Id) (op : StoreOp) : MemStorage Id :=
  match op with
  | OpCreateUser insertUser now => (createUser insertUser now st).1
  | OpUpdateUserStatus userId isOnline now => updateUserStatus userId isOnline now st
  | OpCreateMessage insertMessage now nowConv =>
      (createMessage insertMessage now nowConv st).1
  | OpMarkMessagesAsRead userId otherUserId => markMessagesAsRead userId otherUserId st
  end.

Definition runOps (ops : list StoreOp) : MemStorage Id := foldl applyOp init ops.
End Invariants.

(** ** String matching as the design document words it

    White space, equality and containment up to case, stated on the
    characters of a string and without the functions of [Str]; the
    properties below compare the two. *)

Module StrSpec.
Definition chars (s : string) : list ascii := list_ascii_of_string s.

(** The white space below 256: tab, line feed, vertical tab, form feed,
    carriage return, space and no-break space. *)
Definition whiteSpace : list N := [9; 10; 11; 12; 13; 32; 160]%N.

Definition blank (c : ascii) : Prop := N_of_ascii c ∈ whiteSpace.

(** A string of white space only (the empty one included). *)
Definition whitespaceOnly (s : string) : Prop := Forall blank (chars s).

(** [core] is [s] without the white space at its two ends. *)
Definition stripped (s core : string) : Prop :=
  ∃ pre suf, chars s = pre ++ chars core ++ suf ∧
    Forall blank pre ∧ Forall blank suf ∧
    (∀ c, head (chars core) = Some c → ¬ blank c) ∧
    (∀ c, last (chars core) = Some c → ¬ blank c).

(** The capital letters below 256, and the small letter of a capital. *)
Definition capital (c : ascii) : Prop :=
  (65 ≤ N_of_ascii c ≤ 90 ∨ 192 ≤ N_of_ascii c ≤ 214 ∨ 216 ≤ N_of_ascii c ≤ 222)%N.

Definition smallOf (C c : ascii) : Prop :=
  capital C ∧ N_of_ascii c = (N_of_ascii C + 32)%N.

(** One letter, in either case. *)
Definition sameLetter (a b : ascii) : Prop := a = b ∨ smallOf a b ∨ smallOf b a.

(** Equal up to case. *)
Definition equalIgnoringCase (s t : string) : Prop :=
  Forall2 sameLetter (chars s) (chars t).

(** [q] occurs in [field] up to case. *)
Definition containsIgnoringCase (field q : string) : Prop :=
  ∃ pre mid suf, chars field = pre ++ mid ++ suf ∧ Forall2 sameLetter mid (chars q).

#[global] Instance blank_dec c : Decision (blank c).
Proof. unfold blank. apply _. Defined.

#[global] Instance whitespaceOnly_dec s : Decision (whitespaceOnly s).
Proof. unfold whitespaceOnly. apply _. Defined.

#[global] Instance capital_dec c : Decision (capital c).
Proof. unfold capital. apply _. Defined.

#[global] Instance sameLetter_dec a b : Decision (sameLetter a b).
Proof. unfold sameLetter, smallOf. apply _. Defined.

#[global] Instance equalIgnoringCase_dec s t : Decision (equalIgnoringCase s t).
Proof. unfold equalIgnoringCase. apply _. Defined.
End StrSpec.

(** What the design document asks of a user that a search for [core]
    returns: it is not the user who searches, and [core] occurs, up to
    case, in its user name, its e-mail address or its name. *)
Definition searchHit {Id : Type} (core : string) (currentUserId : Id)
    (user : User.t Id) : Prop :=
  User.id user ≠ currentUserId ∧
  (StrSpec.containsIgnoringCase (User.username user) core ∨
   StrSpec.containsIgnoringCase (User.email user) core ∨
   StrSpec.containsIgnoringCase (User.name user) core).

(** ** The rest of [MemStorage] *)

(** A [Partial<User>]: the fields a patch carries. *)
Record UserPatch {Id : Type} := mkPatch {
  p_id : option Id;
  p_name : option string;
  p_username : option string;
  p_email : option string;
  p_password : option string;
  p_avatar : option (option string);
  p_createdAt : option Z;
  p_lastActive : option Z;
  p_isOnline : option bool;
}.
Arguments UserPatch : clear implicits.
Arguments mkPatch {Id}.

(** A user as the profile route sends it: [{ password, ...userWithoutPassword }]. *)
Record PublicUser {Id : Type} := mkPublic {
  pu_id : Id;
  pu_name : string;
  pu_username : string;
  pu_email : string;
  pu_avatar : option string;
  pu_createdAt : Z;
  pu_lastActive : Z;
  pu_isOnline : bool;
}.
Arguments PublicUser : clear implicits.
Arguments mkPublic {Id}.

Inductive ProfileReply {Id : Type} :=
  | Profile (user : PublicUser Id)
  | Rejected (message : string).
Arguments ProfileReply : clear implicits.

Section MemStorageUsers.
Context {Id : Type} `{JsId Id}.

Definition getUserByUsername (username : string) (st : MemStorage Id)
    : option (User.t Id) :=
  List.find
    (λ user, bool_decide (Str.toLowerCase (User.username user) = Str.toLowerCase username))
    (JsMap.values (users st)).

Definition getUserByEmail (email : string) (st : MemStorage Id)
    : option (User.t Id) :=
  List.find
    (λ user, bool_decide (Str.toLowerCase (User.email user) = Str.toLowerCase email))
    (JsMap.values (users st)).

(** [{ ...user, ...userData, id: user.id, createdAt: user.createdAt }] *)
Definition patched (user : User.t Id) (userData : UserPatch Id) : User.t Id :=
  User.mk Id (User.id user)
    (default (User.name user) (p_name userData))
    (default (User.username user) (p_username userData))
    (default (User.email user) (p_email userData))
    (default (User.password user) (p_password userData))
    (default (User.avatar user) (p_avatar userData))
    (User.createdAt user)
    (default (User.lastActive user) (p_lastActive userData))
    (default (User.isOnline user) (p_isOnline userData)).

Definition updateUser (userId : Id) (userData : UserPatch Id) (st : MemStorage Id)
    : MemStorage Id * Outcome (User.t Id) :=
  match getUser userId st with
  | None => (st, Thrown "User not found")
  | Some user =>
      let updatedUser := patched user userData in
      (mkStorage (JsMap.set userId updatedUser (users st)) (messages st)
         (conversations st)
         (currentUserId st) (currentMessageId st) (currentConversationId st),
       Returned updatedUser)
  end.

(** *** [PATCH /api/user/profile]

    The body is taken as the [Partial<User>] the handler passes on. The
    handler awaits promises of the store only, which are settled when
    they are made: it is resumed before any other request is looked at,
    and is one step here. *)
Definition withoutCritical (userData : UserPatch Id) : UserPatch Id :=
  mkPatch None (p_name userData) (p_username userData) (p_email userData)
    (p_password userData) (p_avatar userData) None (p_lastActive userData)
    (p_isOnline userData).

Definition withoutPassword (user : User.t Id) : PublicUser Id :=
  mkPublic (User.id user) (User.name user) (User.username user) (User.email user)
    (User.avatar user) (User.createdAt user) (User.lastActive user)
    (User.isOnline user).

(** [if (field) { existing = lookup(field); if (existing && existing.id !== userId) ... }] *)
Definition takenByOther (lookup : string → MemStorage Id → option (User.t Id))
    (field : option string) (userId : Id) (st : MemStorage Id) : bool :=
  match field with
  | Some value =>
      if Str.truthy value then
        match lookup value st with
        | Some existingUser => bool_decide (User.id existingUser ≠ userId)
        | None => false
        end
      else false
  | None => false
  end.

Definition patchProfile (userId : Id) (body : UserPatch Id) (st : MemStorage Id)
    : MemStorage Id * Response (ProfileReply Id) :=
  let userData := withoutCritical body in
  if takenByOther getUserByUsername (p_username userData) userId st then
    (st, Json 400 (Rejected "Username already taken"))
  else if takenByOther getUserByEmail (p_email userData) userId st then
    (st, Json 400 (Rejected "Email already taken"))
  else
    match updateUser userId userData st with
    | (st', Returned updatedUser) => (st', Json 200 (Profile (withoutPassword updatedUser)))
    | (st', Thrown _) => (st', Send 500 "Server error")
    end.
End MemStorageUsers.

(** *** [encodeURIComponent]

    Unreserved characters stand for themselves; any other code unit below
    256 is written as the bytes of its UTF-8 encoding, each as [%XX]. *)
Module Uri.
Definition isUnreserved (c : ascii) : bool :=
  let n := N_of_ascii c in
  ((65 <=? n) && (n <=? 90) || (97 <=? n) && (n <=? 122) || (48 <=? n) && (n <=? 57)
   || (n =? 45) || (n =? 95) || (n =? 46) || (n =? 33) || (n =? 126)
   || (n =? 42) || (n =? 39) || (n =? 40) || (n =? 41))%N.

Definition hexDigit (n : N) : ascii :=
  if (n <? 10)%N then ascii_of_N (48 + n) else ascii_of_N (55 + n).

Definition percent (byte : N) (rest : string) : string :=
  String "%" (String (hexDigit (byte / 16)) (String (hexDigit (byte mod 16)) rest)).

Fixpoint encodeURIComponent (s : string) : string :=
  match s with
  | EmptyString => EmptyString
  | String c s' =>
      let n := N_of_ascii c in
      if isUnreserved c then String c (encodeURIComponent s')
      else if (n <? 128)%N then percent n (encodeURIComponent s')
      else percent (192 + n / 64) (percent (128 + n mod 64) (encodeURIComponent s'))
  end.
End Uri.

Section Register.
Context {Id : Type} `{JsId Id}.

(** [POST /api/register] from the point where the body has passed
    [extendedSchema.parse]; [validatedData] is the parsed body. The
    handler runs in two parts. Between them it waits for [hashPassword]
    (scrypt, computed off the event loop), and other requests are served
    in the meantime.
    - [registerCheck]: the two look-ups, on the store as it is when the
      request arrives; [Some reply] is the early [return].
    - [registerCreate]: when the hash [hashedPassword] has arrived, the
      user is created in the store as it is then, and sent back.
    The session login that follows is left out. *)
Definition registerCheck (validatedData : InsertUser) (st : MemStorage Id)
    : option (Response (User.t Id)) :=
  match getUserByUsername (iu_username validatedData) st with
  | Some _ => Some (Send 400 "Username already exists")
  | None =>
      match getUserByEmail (iu_email validatedData) st with
      | Some _ => Some (Send 400 "Email already exists")
      | None => None
      end
  end.

(** [validatedData.avatar || `https://ui-avatars.com/api/?name=...`] *)
Definition registerAvatar (validatedData : InsertUser) : string :=
  let generated :=
    "https://ui-avatars.com/api/?name="
    +:+ Uri.encodeURIComponent (iu_username validatedData)
    +:+ "&background=random" in
  match iu_avatar validatedData with
  | Some a => if Str.truthy a then a else generated
  | None => generated
  end.

Definition registerCreate (validatedData : InsertUser) (hashedPassword : string)
    (now : Z) (st : MemStorage Id) : MemStorage Id * Response (User.t Id) :=
  let created :=
    createUser
      (Build_InsertUser (iu_name validatedData) (iu_username validatedData)
         (iu_email validatedData) hashedPassword (Some (registerAvatar validatedData)))
      now st in
  (created.1, Json 201 created.2).
End Register.

(** *** The message routes, where identifiers are strings

    A field of a request body is any JSON value. *)
Inductive JsValue :=
  | JUndefined
  | JNull
  | JBool (b : bool)
  | JNumber (n : Z)
  | JString (s : string).

Definition jsTruthy (v : JsValue) : bool :=
  match v with
  | JUndefined | JNull => false
  | JBool b => b
  | JNumber n => negb (n =? 0)
  | JString s => Str.truthy s
  end.

Record MessageBody := mkBody {
  mb_content : JsValue;
  mb_senderId : JsValue;
  mb_receiverId : JsValue;
}.

Inductive MessageReply :=
  | MessageCreated (message : Message.t string)
  | ValidationFailed (paths : list string).

Section MessageRoutes.

(** [insertMessageSchema.parse]: three [z.string()] fields; the paths of
    the fields that are not strings make the error. *)
Definition notString (path : string) (v : JsValue) : list string :=
  match v with JString _ => [] | _ => [path] end.

Definition parseInsertMessage (content senderId receiverId : JsValue)
    : list string + InsertMessage string :=
  match content, senderId, receiverId with
  | JString c, JString s, JString r => inr (Build_InsertMessage string c (Some s) (Some r))
  | _, _, _ =>
      inl (notString "content" content ++ notString "senderId" senderId
           ++ notString "receiverId" receiverId)
  end.

(** [POST /api/messages]: [{ ...req.body, senderId: req.user.id }] is
    parsed, the receiver looked up, the message created. *)
Definition postMessage (sessionUserId : string) (body : MessageBody) (now nowConv : Z)
    (st : MemStorage string) : MemStorage string * Response MessageReply :=
  match parseInsertMessage (mb_content body) (JString sessionUserId) (mb_receiverId body) with
  | inl paths => (st, Json 400 (ValidationFailed paths))
  | inr validatedData =>
      match im_receiverId validatedData ≫= (λ r, getUser r st) with
      | None => (st, Send 404 "Receiver not found")
      | Some _ =>
          match createMessage validatedData now nowConv st with
          | (st', Returned message) => (st', Json 201 (MessageCreated message))
          | (st', Thrown _) => (st', Send 500 "Server error")
          end
      end
  end.

(** [POST /api/messages/read/:conversationId]. A truthy [otherUserId]
    that is not a string is [===] to no stored [senderId]: nothing is
    selected and the store stays as it is. *)
Definition postMessagesRead (sessionUserId conversationId : string)
    (otherUserId : JsValue) (st : MemStorage string)
    : MemStorage string * Response bool :=
  if negb (jsTruthy otherUserId) then (st, Send 400 "Missing otherUserId parameter")
  else
    (match otherUserId with
     | JString o => markMessagesAsRead sessionUserId o st
     | _ => st
     end,
     Json 200 true).
End MessageRoutes.

(** Users are told apart by their user names and by their e-mail
    addresses, whatever the case, as far as these are not empty. *)
Section Uniqueness.
Context {Id : Type} `{JsId Id}.

Definition uniqueBy (field : User.t Id → string) (st : MemStorage Id) : Prop :=
  ∀ u v, u ∈ JsMap.values (users st) → v ∈ JsMap.values (users st) →
         Str.truthy (field u) = true →
         StrSpec.equalIgnoringCase (field u) (field v) →
         User.id u = User.id v.

(** The same, by the comparison the look-ups make. *)
Definition uniqueLower (field : User.t Id → string) (st : MemStorage Id) : Prop :=
  ∀ u v, u ∈ JsMap.values (users st) → v ∈ JsMap.values (users st) →
         Str.truthy (field u) = true →
         Str.toLowerCase (field u) = Str.toLowerCase (field v) →
         User.id u = User.id v.
End Uniqueness.

(** ** The heartbeat

    Every 30 seconds the server walks over [wss.clients], the sockets
    whose ['close'] has not been emitted yet: a socket that has not
    answered the last ping is terminated (its state becomes [CLOSING], the
    ['close'] event follows), any other is marked as not alive and
    pinged. *)
Module Heartbeat.
(** [ws.terminate()] *)
Definition terminate (ws : AuthenticatedClient) : AuthenticatedClient :=
  mkClient (userId ws) (isAlive ws)
    (match readyState ws with
     | CLOSED => CLOSED
     | _ => CLOSING
     end)
    (outbox ws).

(** The callback of [forEach]. *)
Definition check (ws : AuthenticatedClient) : AuthenticatedClient :=
  if decide (readyState ws = CLOSED) then ws
  else if isAlive ws then Ws.setAlive false ws
  else terminate ws.

Definition onInterval (s : Server) : Server :=
  mkServer (storage s) (map check (sockets s)) (clients s).
End Heartbeat.

Definition aliveOf (h : nat) (s : Server) : option bool :=
  isAlive <$> sockets s !! h.

(** ** What every run keeps true of the registry

    The empty string is no user; the registry has each identity once;
    every entry names a socket that carries the identity it is registered
    under; and a socket carries a non-empty identity or none. *)
Definition registryOk (s : Server) : Prop :=
  getUser EmptyString (storage s) = None ∧
  NoDup (JsMap.keys (clients s)) ∧
  (∀ u h, (u, h) ∈ clients s → identityOf h s = Some u) ∧
  (∀ h u, identityOf h s = Some u → Str.truthy u = true).

(** From [s] to [s'] sockets were only sent more: what a socket was sent
    is kept in front of what it has now, and a socket that was closing or
    closed is still so and was sent nothing. *)
Definition onlySent (s s' : Server) : Prop :=
  ∀ h, sentTo h s `prefix_of` sentTo h s' ∧
       (closedAt h s → closedAt h s' ∧ sentTo h s' = sentTo h s).

(** ** The handlers, part by part

    An [async] handler runs until its first [await]; what is left of it
    is resumed later, and each time it runs until the next [await].
    [step] above runs a handler in one piece, which is what happens when
    nothing else runs before the handler is resumed. That is not always
    so: the frames that reach a socket in one chunk may be handed to the
    ['message'] handler one after the other, each call returning at its
    first [await], before any of them is resumed.

    Here a handler is cut at its [await]s. [arrive] runs it up to the
    first one and leaves the rest as a task; [resume] runs a task up to
    the next [await]. The tasks wait in a pool and any of them may be
    resumed next; the order in which the event loop resumes them is one
    of these orders.
    - [await storage.getUser(id)] reads the store when it is called; the
      handler gets the value when it is resumed.
    - [await storage.updateUserStatus(id, isOnline)] reads the user when
      it is called, writes to it when it is resumed itself ([lastActive]
      is the time of the write), and the handler is resumed after
      that. *)
Inductive Task :=
  | AfterGetUser (c : nat) (data : string) (message : WebSocketMessage)
      (user : option (User.t string))
  | InUpdateUserStatus (found : bool) (userId : string) (isOnline : bool) (next : Task)
  | AfterUpdateUserStatus (c : nat) (data : string) (message : WebSocketMessage)
  | AfterCloseStatus (c : nat).

Inductive Action :=
  | Arrive (e : Event)
  | Resume (i : nat) (now : Z).

Record Running := mkRunning {
  server : Server;
  pool : list Task;
}.

Section Phased.
Variable JSON_parse : string → option WebSocketMessage.
Variable JSON_stringify : WebSocketMessage → string.

(** The call [storage.updateUserStatus(userId, isOnline)], up to the
    [await] inside it. *)
Definition callUpdateUserStatus (userId : string) (isOnline : bool) (next : Task)
    (s : Server) : Task :=
  InUpdateUserStatus (bool_decide (is_Some (getUser userId (storage s))))
    userId isOnline next.

(** An event, up to the first [await] of its handler. The time an event
    carries is not read here: the clock is read when the store is
    written. *)
Definition arrive (e : Event) (s : Server) : Server * list Task :=
  match e with
  | Connection => (onConnection s, [])
  | Pong c => (onPong c s, [])
  | Frame c data _ =>
      match sockets s !! c with
      | None => (s, [])
      | Some ws =>
          match JSON_parse data with
          | None => (s, [])
          | Some message =>
              if negb (Ws.hasUserId ws) && negb (bool_decide (type message = TEXT)) then
                (s, [AfterGetUser c data message
                       (getUser (senderId message) (storage s))])
              else (route data message s, [])
          end
      end
  | Close c _ =>
      match sockets s !! c with
      | None => (s, [])
      | Some ws =>
          let s0 := mkServer (storage s) (alter Ws.closed c (sockets s)) (clients s) in
          match userId ws with
          | Some u =>
              if Str.truthy u
              then (s0, [callUpdateUserStatus u false (AfterCloseStatus c) s0])
              else (s0, [])
          | None => (s0, [])
          end
      end
  end.

(** A task, up to its next [await]. After the [await] of the ['close']
    handler [ws.userId] is read again. *)
Definition resume (t : Task) (now : Z) (s : Server) : Server * list Task :=
  match t with
  | AfterGetUser c data message user =>
      match user with
      | None => (s, [])
      | Some _ =>
          let s1 := bind (senderId message) c s in
          if decide (type message = STATUS) then
            let isOnline := bool_decide (content message = Some "online") in
            (s1, [callUpdateUserStatus (senderId message) isOnline
                    (AfterUpdateUserStatus c data message) s1])
          else (route data message s1, [])
      end
  | InUpdateUserStatus found userId isOnline next =>
      (if found
       then mkServer (updateUserStatus userId isOnline now (storage s))
              (sockets s) (clients s)
       else s,
       [next])
  | AfterUpdateUserStatus c data message => (route data message s, [])
  | AfterCloseStatus c =>
      match identityOf c s with
      | Some u =>
          let s2 := broadcast u (JSON_stringify (offlineMessage u)) s in
          (mkServer (storage s2) (sockets s2) (JsMap.delete u (clients s2)), [])
      | None => (s, [])
      end
  end.

Definition act (r : Running) (a : Action) : Running :=
  match a with
  | Arrive e =>
      let '(s', tasks) := arrive e (server r) in
      mkRunning s' (pool r ++ tasks)
  | Resume i now =>
      match pool r !! i with
      | None => r
      | Some t =>
          let '(s', tasks) := resume t now (server r) in
          mkRunning s' (delete i (pool r) ++ tasks)
      end
  end.

Definition runActions (r : Running) (actions : list Action) : Running :=
  foldl act r actions.

(** An event whose handler is resumed at once, each time, until it is
    done (no handler has more than three [await]s in a row). *)
Definition timeOf (e : Event) : Z :=
  match e with
  | Frame _ _ now | Close _ now => now
  | Connection | Pong _ => 0
  end.

Definition atOnce (e : Event) : list Action :=
  [Arrive e; Resume 0 (timeOf e); Resume 0 (timeOf e); Resume 0 (timeOf e)].
End Phased.

(** What holds of the registry however the handlers interleave: the
    empty string is no user, the registry has each identity once, every
    identity a socket carries is a user of the store, and every entry of
    the registry is for a user of the store and names a socket that
    carries an identity. *)
Definition authentic (s : Server) : Prop :=
  getUser EmptyString (storage s) = None ∧
  NoDup (JsMap.keys (clients s)) ∧
  (∀ h u, identityOf h s = Some u → is_Some (getUser u (storage s))) ∧
  (∀ u h, (u, h) ∈ clients s →
          is_Some (getUser u (storage s)) ∧ is_Some (identityOf h s)).

(** What a waiting task relies on: its socket exists and the user it was
    handed is in the store. *)
Fixpoint taskOk (s : Server) (t : Task) : Prop :=
  match t with
  | AfterGetUser c _ message (Some _) =>
      is_Some (sockets s !! c) ∧ is_Some (getUser (senderId message) (storage s))
  | InUpdateUserStatus _ _ _ next => taskOk s next
  | _ => True
  end.

(** From [s] to [s'] no socket and no user was lost. *)
Definition grows (s s' : Server) : Prop :=
  (length (sockets s) ≤ length (sockets s'))%nat ∧
  ∀ u, is_Some (getUser u (storage s)) → is_Some (getUser u (storage s')).

(** * Properties *)

(** ** [JsMap] *)

Section JsMapFacts.
Context {K V : Type} `{EqDecision K}.
Implicit Types (m : list (K * V)) (k : K) (v : V).

Lemma get_set_eq k v m : JsMap.get k (JsMap.set k v m) = Some v.
Proof.
  induction m as [|[k' v'] m IH]; simpl.
  - by rewrite decide_True.
  - destruct (decide (k' = k)) as [->|Hne]; simpl.
    + by rewrite decide_True.
    + by rewrite decide_False.
Qed.

Lemma get_set_ne k k' v m : k ≠ k' → JsMap.get k' (JsMap.set k v m) = JsMap.get k' m.
Proof.
  intros Hne. induction m as [|[k0 v0] m IH]; simpl.
  - by rewrite decide_False.
  - destruct (decide (k0 = k)) as [->|Hne0]; simpl.
    + by rewrite !decide_False.
    + by rewrite IH.
Qed.

Lemma get_None_keys k m : JsMap.get k m = None ↔ k ∉ JsMap.keys m.
Proof.
  induction m as [|[k' v'] m IH]; simpl.
  - split; [intros _; apply not_elem_of_nil | done].
  - rewrite not_elem_of_cons. destruct (decide (k' = k)) as [->|Hne].
    + split; [done | intros [? _]; done].
    + rewrite IH. split; [intros ?; split; [congruence | done] | by intros [_ ?]].
Qed.

Lemma get_Some_elem k v m : JsMap.get k m = Some v → (k, v) ∈ m.
Proof.
  induction m as [|[k' v'] m IH]; simpl; [done|].
  destruct (decide (k' = k)) as [->|Hne].
  - intros [= ->]. apply elem_of_cons; by left.
  - intros Hg. apply elem_of_cons; right; auto.
Qed.

Lemma elem_get_Some k v m : NoDup (JsMap.keys m) → (k, v) ∈ m → JsMap.get k m = Some v.
Proof.
  induction m as [|[k' v'] m IH]; simpl.
  - intros _ Hin. by apply elem_of_nil in Hin.
  - intros Hnd Hin. apply NoDup_cons in Hnd as [Hk' Hnd].
    apply elem_of_cons in Hin as [[= -> ->]|Hin].
    + by rewrite decide_True.
    + rewrite decide_False; [auto|].
      intros ->. apply Hk'. unfold JsMap.keys.
      apply (list_elem_of_fmap_2 fst) in Hin. exact Hin.
Qed.

Lemma set_fresh k v m : k ∉ JsMap.keys m → JsMap.set k v m = m ++ [(k, v)].
Proof.
  induction m as [|[k' v'] m IH]; simpl; [done|].
  rewrite not_elem_of_cons. intros [Hne Hk].
  rewrite decide_False by congruence. by rewrite IH.
Qed.

Lemma set_present k v v0 l1 l2 :
  k ∉ JsMap.keys l1 →
  JsMap.set k v (l1 ++ (k, v0) :: l2) = l1 ++ (k, v) :: l2.
Proof.
  induction l1 as [|[k' v'] l1 IH]; simpl.
  - intros _. by rewrite decide_True.
  - rewrite not_elem_of_cons. intros [Hne Hk].
    rewrite decide_False by congruence. by rewrite IH.
Qed.

Lemma keys_set_present k v m : k ∈ JsMap.keys m → JsMap.keys (JsMap.set k v m) = JsMap.keys m.
Proof.
  induction m as [|[k' v'] m IH]; simpl.
  - intros Hin. by apply elem_of_nil in Hin.
  - intros Hin. destruct (decide (k' = k)) as [->|Hne]; simpl; [done|].
    apply elem_of_cons in Hin as [->|Hin]; [done|]. by rewrite IH.
Qed.

Lemma elem_of_set k v m kv : kv ∈ JsMap.set k v m → kv = (k, v) ∨ kv ∈ m.
Proof.
  induction m as [|[k' v'] m IH]; simpl.
  - intros Hin. apply list_elem_of_singleton in Hin. by left.
  - destruct (decide (k' = k)) as [->|Hne]; intros Hin;
      apply elem_of_cons in Hin as [->|Hin].
    + by left.
    + right. apply elem_of_cons; by right.
    + right. apply elem_of_cons; by left.
    + destruct (IH Hin) as [->|?]; [by left|right; apply elem_of_cons; by right].
Qed.

Lemma NoDup_keys_set k v m : NoDup (JsMap.keys m) → NoDup (JsMap.keys (JsMap.set k v m)).
Proof.
  intros Hnd. destruct (decide (k ∈ JsMap.keys m)) as [Hin|Hout].
  - by rewrite keys_set_present.
  - rewrite set_fresh by done. unfold JsMap.keys. rewrite fmap_app. simpl.
    apply NoDup_app. split; [done|]. split; [|apply NoDup_singleton].
    intros x Hx Hx'. apply list_elem_of_singleton in Hx'. by subst.
Qed.

Lemma get_delete_eq k m : NoDup (JsMap.keys m) → JsMap.get k (JsMap.delete k m) = None.
Proof.
  induction m as [|[k' v'] m IH]; simpl; [done|].
  intros [Hk' Hnd]%NoDup_cons. destruct (decide (k' = k)) as [->|Hne].
  - by apply get_None_keys.
  - simpl. rewrite decide_False by done. auto.
Qed.

Lemma elem_of_keys_set k v m k' :
  k' ∈ JsMap.keys (JsMap.set k v m) → k' = k ∨ k' ∈ JsMap.keys m.
Proof.
  unfold JsMap.keys. intros Hin. apply list_elem_of_fmap in Hin as [[k0 v0] [-> Hin]].
  apply elem_of_set in Hin as [[= -> ->]|Hin]; [by left|right].
  by apply (list_elem_of_fmap_2 fst) in Hin.
Qed.
End JsMapFacts.

(** ** The sort *)

Section SortFacts.
Context {A : Type} (cmp : A → A → Z).

Lemma sort_insert_perm x l : sort_insert cmp x l ≡ₚ x :: l.
Proof.
  induction l as [|y l IH]; simpl; [done|].
  destruct (decide (cmp x y ≤ 0)); [done|].
  rewrite IH. apply Permutation_swap.
Qed.

Lemma sort_perm l : sort cmp l ≡ₚ l.
Proof.
  induction l as [|x l IH]; simpl; [done|].
  by rewrite sort_insert_perm, IH.
Qed.

Lemma elem_of_sort x l : x ∈ sort cmp l ↔ x ∈ l.
Proof. by rewrite sort_perm. Qed.

Lemma length_sort l : length (sort cmp l) = length l.
Proof. by rewrite sort_perm. Qed.

Hypothesis cmp_total : ∀ x y, cmp x y ≤ 0 ∨ cmp y x ≤ 0.

Lemma sort_insert_HdRel x y l :
  inOrder cmp y x → HdRel (inOrder cmp) y l → HdRel (inOrder cmp) y (sort_insert cmp x l).
Proof.
  intros Hyx Hhd. destruct l as [|z l]; simpl.
  - by constructor.
  - destruct (decide (cmp x z ≤ 0)); constructor; [done|].
    by inversion Hhd.
Qed.

Lemma sort_insert_sorted x l :
  Sorted (inOrder cmp) l → Sorted (inOrder cmp) (sort_insert cmp x l).
Proof.
  induction 1 as [|y l Hs IH Hhd]; simpl.
  - repeat constructor.
  - destruct (decide (cmp x y ≤ 0)) as [Hxy|Hxy].
    + constructor; [by constructor | by constructor].
    + constructor; [done|]. apply sort_insert_HdRel; [|done].
      destruct (cmp_total x y); [done | done].
Qed.

Lemma sort_sorted l : Sorted (inOrder cmp) (sort cmp l).
Proof.
  induction l as [|x l IH]; simpl; [constructor|].
  by apply sort_insert_sorted.
Qed.
End SortFacts.

(** ** Strings *)

Section StrFacts.
Import Str StrSpec.

Lemma isWhiteSpace_lowerChar c : isWhiteSpace (lowerChar c) = isWhiteSpace c.
Proof. destruct c as [[] [] [] [] [] [] [] []]; reflexivity. Qed.

Lemma isWhiteSpace_decide c : isWhiteSpace c = bool_decide (blank c).
Proof. destruct c as [[] [] [] [] [] [] [] []]; vm_compute; reflexivity. Qed.

Lemma isWhiteSpace_blank c : isWhiteSpace c = true ↔ blank c.
Proof. rewrite isWhiteSpace_decide. apply bool_decide_eq_true. Qed.

Lemma allWhiteSpace_spec s : allWhiteSpace s = true ↔ whitespaceOnly s.
Proof.
  unfold whitespaceOnly, chars. induction s as [|c s IH]; simpl.
  - split; [constructor|done].
  - rewrite andb_true_iff, Forall_cons, isWhiteSpace_blank, IH. done.
Qed.

Lemma N_of_ascii_inj a b : N_of_ascii a = N_of_ascii b ↔ a = b.
Proof.
  split; [|by intros ->]. intros E.
  by rewrite <- (ascii_N_embedding a), <- (ascii_N_embedding b), E.
Qed.

(** [lowerChar] on code units. *)
Lemma N_of_lowerChar c :
  let n := N_of_ascii c in
  (capital c ∧ N_of_ascii (lowerChar c) = (n + 32)%N) ∨
  (¬ capital c ∧ lowerChar c = c).
Proof.
  intros n. pose proof (N_ascii_bounded c) as Hb. fold n in Hb.
  unfold lowerChar, capital. fold n.
  destruct ((65 <=? n) && (n <=? 90) || (192 <=? n) && (n <=? 214)
            || (216 <=? n) && (n <=? 222))%N eqn:E.
  - left. rewrite !orb_true_iff, !andb_true_iff, !N.leb_le in E.
    split; [lia|]. apply N_ascii_embedding. lia.
  - right. rewrite !orb_false_iff, !andb_false_iff, !N.leb_gt in E.
    split; [lia|done].
Qed.

Lemma lowerChar_eq_iff a b : lowerChar a = lowerChar b ↔ sameLetter a b.
Proof.
  unfold sameLetter, smallOf.
  pose proof (N_ascii_bounded a). pose proof (N_ascii_bounded b).
  destruct (N_of_lowerChar a) as [[Ca Ha]|[Ca Ha]],
           (N_of_lowerChar b) as [[Cb Hb]|[Cb Hb]].
  - rewrite <- (N_of_ascii_inj (lowerChar a)), Ha, Hb, <- (N_of_ascii_inj a b).
    unfold capital in *. lia.
  - rewrite Hb, <- (N_of_ascii_inj _ b), Ha, <- (N_of_ascii_inj a b).
    unfold capital in *. lia.
  - rewrite Ha, <- (N_of_ascii_inj a), Hb, <- (N_of_ascii_inj a b).
    unfold capital in *. lia.
  - rewrite Ha, Hb. tauto.
Qed.

Lemma chars_toLowerCase s : chars (toLowerCase s) = lowerChar <$> chars s.
Proof. unfold chars. induction s as [|c s IH]; simpl; [done|]. by rewrite IH. Qed.

Lemma chars_inj s t : chars s = chars t → s = t.
Proof.
  unfold chars. intros E.
  by rewrite <- (string_of_list_ascii_of_string s), E, string_of_list_ascii_of_string.
Qed.

Lemma fmap_lowerChar_eq l k :
  lowerChar <$> l = lowerChar <$> k ↔ Forall2 sameLetter l k.
Proof.
  revert k. induction l as [|a l IH]; intros [|b k].
  - split; [constructor|done].
  - split; [done|]. intros E. inversion E.
  - split; [done|]. intros E. inversion E.
  - rewrite !fmap_cons, Forall2_cons, <- IH, <- lowerChar_eq_iff.
    split; [by intros [= -> ->]|by intros [-> ->]].
Qed.

Lemma toLowerCase_eq_iff s t :
  toLowerCase s = toLowerCase t ↔ equalIgnoringCase s t.
Proof.
  unfold equalIgnoringCase. rewrite <- fmap_lowerChar_eq, <- !chars_toLowerCase.
  split; [by intros ->|apply chars_inj].
Qed.

Lemma startsWith_spec s t :
  startsWith s t = true ↔ ∃ suf, chars s = chars t ++ suf.
Proof.
  unfold chars. revert s. induction t as [|b t IH]; intros [|a s]; simpl.
  - split; [by eexists|done].
  - split; [by eexists|done].
  - split; [done|]. by intros [suf [=]].
  - destruct (decide (a = b)) as [->|Hne].
    + rewrite IH. split; intros [suf E]; exists suf; [by rewrite E|by injection E].
    + split; [done|]. intros [suf [= ? _]]. done.
Qed.

Lemma includes_spec s t :
  includes s t = true ↔ ∃ pre suf, chars s = pre ++ chars t ++ suf.
Proof.
  assert (∀ s, includes s t
            = startsWith s t
              || match s with EmptyString => false | String _ s' => includes s' t end)
    as Hinc by (by intros []).
  induction s as [|a s IH]; rewrite Hinc, orb_true_iff, startsWith_spec.
  - split.
    + intros [[suf E]|?]; [|done]. by exists [], suf.
    + intros (pre & suf & E). left. destruct pre; [by exists suf|done].
  - rewrite IH. split.
    + intros [[suf E]|(pre & suf & E)].
      * by exists [], suf.
      * exists (a :: pre), suf. unfold chars in *. simpl. by rewrite E.
    + intros (pre & suf & E). destruct pre as [|a' pre].
      * left. by exists suf.
      * right. exists pre, suf. unfold chars in *. simpl in E. by injection E.
Qed.

(** [field.toLowerCase().includes(q.toLowerCase())] is containment up to
    case. *)
Lemma includes_toLowerCase field q :
  includes (toLowerCase field) (toLowerCase q) = true ↔ containsIgnoringCase field q.
Proof.
  rewrite includes_spec, !chars_toLowerCase. unfold containsIgnoringCase. split.
  - intros (pre & suf & E).
    apply fmap_app_inv in E as (pre' & rest & Epre & Erest & Ef).
    symmetry in Erest. apply fmap_app_inv in Erest as (mid & suf' & Emid & Esuf & ->).
    exists pre', mid, suf'. split; [done|]. by apply fmap_lowerChar_eq.
  - intros (pre & mid & suf & -> & Hmid). apply fmap_lowerChar_eq in Hmid.
    exists (lowerChar <$> pre), (lowerChar <$> suf). by rewrite !fmap_app, Hmid.
Qed.

Lemma allWhiteSpace_toLowerCase s : allWhiteSpace (toLowerCase s) = allWhiteSpace s.
Proof.
  induction s as [|c s IH]; simpl; [done|].
  by rewrite isWhiteSpace_lowerChar, IH.
Qed.

Lemma allWhiteSpace_trimStart s : allWhiteSpace (trimStart s) = allWhiteSpace s.
Proof.
  induction s as [|c s IH]; simpl; [done|].
  destruct (isWhiteSpace c) eqn:Hc; simpl; [done|]. by rewrite Hc.
Qed.

Lemma trimEnd_empty s : trimEnd s = EmptyString ↔ allWhiteSpace s = true.
Proof.
  induction s as [|c s IH]; simpl; [done|].
  destruct (trimEnd s) eqn:Ht.
  - destruct (isWhiteSpace c); simpl.
    + split; [intros _; by apply IH | done].
    + split; done.
  - split; [done|]. intros [_ Hs]%andb_true_iff. apply IH in Hs. done.
Qed.

Lemma trim_empty s : trim s = EmptyString ↔ allWhiteSpace s = true.
Proof. unfold trim. by rewrite trimEnd_empty, allWhiteSpace_trimStart. Qed.

Lemma truthy_trim s : truthy (trim s) = negb (allWhiteSpace s).
Proof.
  destruct (allWhiteSpace s) eqn:Hw; simpl.
  - apply trim_empty in Hw. by rewrite Hw.
  - destruct (trim s) eqn:Ht; [|done].
    apply trim_empty in Ht. congruence.
Qed.

Lemma trimStart_toLowerCase s : trimStart (toLowerCase s) = toLowerCase (trimStart s).
Proof.
  induction s as [|c s IH]; simpl; [done|].
  rewrite isWhiteSpace_lowerChar. by destruct (isWhiteSpace c).
Qed.

Lemma trimEnd_toLowerCase s : trimEnd (toLowerCase s) = toLowerCase (trimEnd s).
Proof.
  induction s as [|c s IH]; simpl; [done|].
  rewrite IH, isWhiteSpace_lowerChar.
  destruct (trimEnd s); simpl; [by destruct (isWhiteSpace c)|done].
Qed.

Lemma trim_toLowerCase s : trim (toLowerCase s) = toLowerCase (trim s).
Proof. unfold trim. by rewrite trimStart_toLowerCase, trimEnd_toLowerCase. Qed.

Lemma not_blank c : isWhiteSpace c = false → ¬ blank c.
Proof. intros Hc Hb. apply isWhiteSpace_blank in Hb. congruence. Qed.

Lemma trimStart_split s :
  ∃ pre, chars s = pre ++ chars (trimStart s) ∧ Forall blank pre ∧
         ∀ c, head (chars (trimStart s)) = Some c → ¬ blank c.
Proof.
  unfold chars. induction s as [|c s (pre & E & Hpre & Hhead)]; simpl.
  - by exists [].
  - destruct (isWhiteSpace c) eqn:Hc.
    + exists (c :: pre). rewrite E. split_and!; [done| |done].
      constructor; [by apply isWhiteSpace_blank|done].
    + exists []. split_and!; [done|constructor|].
      intros c' [= <-]. by apply not_blank.
Qed.

Lemma trimEnd_split s :
  ∃ suf, chars s = chars (trimEnd s) ++ suf ∧ Forall blank suf ∧
         ∀ c, last (chars (trimEnd s)) = Some c → ¬ blank c.
Proof.
  unfold chars. induction s as [|c s (suf & E & Hsuf & Hlast)]; simpl.
  - by exists [].
  - destruct (trimEnd s) as [|a t] eqn:Ht; simpl in *.
    + destruct (isWhiteSpace c) eqn:Hc; simpl.
      * exists (c :: suf). rewrite E. split_and!; [done| |done].
        constructor; [by apply isWhiteSpace_blank|done].
      * exists suf. rewrite E. split_and!; [done|done|].
        intros c' [= <-]. by apply not_blank.
    + exists suf. rewrite E. split_and!; [done|done|]. exact Hlast.
Qed.

Lemma trim_stripped s : stripped s (trim s).
Proof.
  unfold stripped, trim.
  destruct (trimStart_split s) as (pre & E & Hpre & Hhead).
  destruct (trimEnd_split (trimStart s)) as (suf & E' & Hsuf & Hlast).
  exists pre, suf. split_and!; [|done|done| |done].
  - rewrite E. by rewrite E' at 1.
  - intros c Hc. apply Hhead. rewrite E'.
    destruct (chars (trimEnd (trimStart s))); [done|]. exact Hc.
Qed.

(** The white space in front of a string that does not start with white
    space is determined. *)
Lemma blank_prefix_unique (p p' r r' : list ascii) :
  Forall blank p → Forall blank p' →
  (∃ c, head r = Some c ∧ ¬ blank c) → (∃ c, head r' = Some c ∧ ¬ blank c) →
  p ++ r = p' ++ r' → p = p' ∧ r = r'.
Proof.
  intros Hp. revert p'. induction Hp as [|a p Ha Hp IH]; intros p' Hp' Hr Hr' E.
  - destruct Hp' as [|a' p' Ha' Hp']; [done|]. simpl in E.
    destruct Hr as (c & Hc & Hnb). rewrite E in Hc. simpl in Hc. by simplify_eq.
  - destruct Hp' as [|a' p' Ha' Hp']; simpl in E.
    + destruct Hr' as (c & Hc & Hnb). rewrite <- E in Hc. simpl in Hc. by simplify_eq.
    + injection E as -> E. destruct (IH p' Hp' Hr Hr' E) as [-> ->]. done.
Qed.

Lemma stripped_unique s core core' : stripped s core → stripped s core' → core = core'.
Proof.
  intros (pre & suf & E & Hpre & Hsuf & Hhead & Hlast)
         (pre' & suf' & E' & Hpre' & Hsuf' & Hhead' & Hlast').
  apply chars_inj.
  assert (∀ l p q (k : list ascii), l = p ++ k ++ q → Forall blank l → Forall blank k)
    as Hin.
  { intros l p q k -> Hl. apply Forall_app in Hl as [_ Hl].
    by apply Forall_app in Hl as [Hl _]. }
  assert (∀ k : list ascii, Forall blank k →
            (∀ c, head k = Some c → ¬ blank c) → k = []) as Hnil.
  { intros [|c k] Hk Hh; [done|]. inversion Hk; subst. by destruct (Hh c). }
  destruct (chars core) as [|c k] eqn:Ek.
  - symmetry. apply Hnil; [|done]. apply (Hin _ _ _ _ E'). rewrite E.
    apply Forall_app. by split.
  - destruct (chars core') as [|c' k'] eqn:Ek'.
    + apply Hnil; [|done]. apply (Hin _ _ _ _ E). rewrite E'.
      apply Forall_app. by split.
    + rewrite E in E'.
      destruct (blank_prefix_unique pre pre' ((c :: k) ++ suf) ((c' :: k') ++ suf'))
        as [_ Erest]; [done|done|exists c; by split; [|apply Hhead]
                       |exists c'; by split; [|apply Hhead']|done|].
      apply (f_equal reverse) in Erest. rewrite !reverse_app in Erest.
      destruct (blank_prefix_unique (reverse suf) (reverse suf')
                  (reverse (c :: k)) (reverse (c' :: k'))) as [_ Ecore].
      * by apply Forall_reverse.
      * by apply Forall_reverse.
      * destruct (last (c :: k)) as [d|] eqn:Hd.
        -- exists d. rewrite head_reverse. split; [done|by apply Hlast].
        -- by apply last_None in Hd.
      * destruct (last (c' :: k')) as [d|] eqn:Hd.
        -- exists d. rewrite head_reverse. split; [done|by apply Hlast'].
        -- by apply last_None in Hd.
      * done.
      * by apply (inj reverse).
Qed.
End StrFacts.

(** ** [searchUsers] *)

Section SearchUsers.
Context {Id : Type} `{JsId Id}.
Implicit Types (st : MemStorage Id) (u : User.t Id).

Lemma searchUsers_blank query cur st :
  StrSpec.whitespaceOnly query → searchUsers query cur st = [].
Proof.
  intros Hw%allWhiteSpace_spec. unfold searchUsers. by rewrite truthy_trim, Hw.
Qed.

Lemma searchUsers_found query cur st u :
  u ∈ searchUsers query cur st →
  u ∈ JsMap.values (users st) ∧
  userMatches (Str.trim (Str.toLowerCase query)) cur u.
Proof.
  unfold searchUsers. destruct (negb _); [by intros ?%elem_of_nil|].
  intros Hin%subseteq_take. apply list_elem_of_filter in Hin. tauto.
Qed.

Lemma searchUsers_case query query' cur st :
  Str.toLowerCase query' = Str.toLowerCase query →
  searchUsers query' cur st = searchUsers query cur st.
Proof.
  intros Hlow. unfold searchUsers. rewrite !truthy_trim, Hlow.
  by rewrite <- (allWhiteSpace_toLowerCase query'), Hlow, allWhiteSpace_toLowerCase.
Qed.

(** The filter of [searchUsers], given the query lower-cased and trimmed,
    selects the users in which the stripped query occurs up to case. *)
Lemma userMatches_searchHit query core cur u :
  StrSpec.stripped query core →
  userMatches (Str.trim (Str.toLowerCase query)) cur u ↔ searchHit core cur u.
Proof.
  intros Hs. rewrite (stripped_unique _ _ _ Hs (trim_stripped query)).
  unfold userMatches, searchHit.
  by rewrite trim_toLowerCase, !Is_true_true, !includes_toLowerCase.
Qed.

(** C10. [searchUsers] never returns the user [currentUserId], returns at
    most ten users, and returns nothing for a query that is empty or white
    space only. For any other query it returns the first ten, in the
    order of the user map, of the users other than [currentUserId] in
    whose user name, e-mail address or name the query, stripped of the
    white space at its ends, occurs up to case; so every user returned is
    such a user, and two queries that are equal up to case give the same
    result. *)
Theorem searchUsers_spec (query : string) (currentUserId : Id) (st : MemStorage Id) :
  (∀ u, u ∈ searchUsers query currentUserId st → User.id u ≠ currentUserId) ∧
  (length (searchUsers query currentUserId st) ≤ 10)%nat ∧
  (StrSpec.whitespaceOnly query → searchUsers query currentUserId st = []) ∧
  (∀ core `{!∀ u, Decision (searchHit core currentUserId u)},
     ¬ StrSpec.whitespaceOnly query → StrSpec.stripped query core →
     searchUsers query currentUserId st
     = take 10 (filter (searchHit core currentUserId) (JsMap.values (users st)))) ∧
  (∀ u, u ∈ searchUsers query currentUserId st →
     u ∈ JsMap.values (users st) ∧
     ∃ core, StrSpec.stripped query core ∧ searchHit core currentUserId u) ∧
  (∀ query', StrSpec.equalIgnoringCase query' query →
     searchUsers query' currentUserId st = searchUsers query currentUserId st).
Proof.
  split_and!.
  - intros u Hu. apply searchUsers_found in Hu as [_ [Hne _]]. exact Hne.
  - unfold searchUsers. destruct (negb _); simpl; [lia|].
    rewrite length_take. lia.
  - apply searchUsers_blank.
  - intros core Hdec Hw Hs. unfold searchUsers. rewrite truthy_trim.
    destruct (Str.allWhiteSpace query) eqn:Hall; [by apply allWhiteSpace_spec in Hall|].
    simpl. f_equal. apply list_filter_iff. intros u.
    by apply userMatches_searchHit.
  - intros u Hu. apply searchUsers_found in Hu as [Hin Hm]. split; [done|].
    exists (Str.trim query). split; [apply trim_stripped|].
    by apply (userMatches_searchHit query); [apply trim_stripped|].
  - intros query' Hq. apply searchUsers_case. by apply toLowerCase_eq_iff.
Qed.
End SearchUsers.

Lemma searchUsers_spec_witness :
  let ann := User.mk Z 1 "Ann" "ann" "ann@x.io" "secret1" None 10 10 true in
  searchUsers "  ANN " 2 Demo.threeUsers = [ann] ∧
  StrSpec.stripped "  ANN " "ANN" ∧
  searchHit "ANN" 2 ann ∧
  searchUsers "N" 1 Demo.threeUsers = [].
Proof.
  intros ann.
  assert (StrSpec.stripped "  ANN " "ANN") as Hs.
  { exists [" "; " "]%char, [" "]%char. split_and!; [done| | | |].
    - repeat constructor; apply (bool_decide_unpack _); by vm_compute.
    - repeat constructor; apply (bool_decide_unpack _); by vm_compute.
    - intros c [= <-]. apply (bool_decide_unpack _). by vm_compute.
    - intros c [= <-]. apply (bool_decide_unpack _). by vm_compute. }
  destruct (searchUsers_spec "  ANN " 2 (Demo.threeUsers (Id:=Z)))
    as (_ & _ & _ & _ & Hsound & _).
  split_and!; [reflexivity|done| |reflexivity].
  destruct (Hsound ann) as (_ & core & Hcore & Hhit); [vm_compute; by left|].
  by rewrite (stripped_unique _ _ _ Hs Hcore).
Defined.

(** ** The store stays well formed *)

Section Keyed.
Context {Id : Type} `{JsId Id} {V : Type} (idOf : V → Id).
Implicit Types (m : list (Id * V)) (b : Z).

Lemma keyed_nil b : keyed idOf b [].
Proof.
  repeat split.
  - apply NoDup_nil_2.
  - intros k v Hin. by apply elem_of_nil in Hin.
  - intros k Hin. by apply elem_of_nil in Hin.
Qed.

Lemma keyed_mono b b' m : b ≤ b' → keyed idOf b m → keyed idOf b' m.
Proof.
  intros Hle (Hnd & Hids & Hb). split_and!; [done|done|].
  intros k Hin. destruct (Hb k Hin) as (n & -> & Hlt). exists n. split; [done|lia].
Qed.

Lemma keyed_fresh b m : keyed idOf b m → ofCounter b ∉ JsMap.keys m.
Proof.
  intros (_ & _ & Hb) Hin. destruct (Hb _ Hin) as (n & Heq & Hlt).
  apply ofCounter_inj in Heq. lia.
Qed.

Lemma keyed_set_fresh b m v :
  keyed idOf b m → idOf v = ofCounter b →
  keyed idOf (b + 1) (JsMap.set (ofCounter b) v m).
Proof.
  intros Hk Hid. pose proof (keyed_fresh _ _ Hk) as Hfresh.
  destruct Hk as (Hnd & Hids & Hb). repeat split.
  - by apply NoDup_keys_set.
  - intros k v' Hin. apply elem_of_set in Hin as [[= -> ->]|Hin]; [done|].
    by apply Hids.
  - intros k Hin. apply elem_of_keys_set in Hin as [->|Hin].
    + exists b. split; [done | lia].
    + destruct (Hb _ Hin) as (n & -> & Hlt). exists n. split; [done | lia].
Qed.

Lemma keyed_set_present b m k v :
  keyed idOf b m → k ∈ JsMap.keys m → idOf v = k →
  keyed idOf b (JsMap.set k v m).
Proof.
  intros (Hnd & Hids & Hb) Hin Hid. repeat split.
  - by apply NoDup_keys_set.
  - intros k' v' Hin'. apply elem_of_set in Hin' as [[= -> ->]|Hin']; [done|].
    by apply Hids.
  - intros k'. rewrite keys_set_present by done. apply Hb.
Qed.

Lemma keyed_get b m k v : keyed idOf b m → JsMap.get k m = Some v → idOf v = k.
Proof. intros (_ & Hids & _) Hg. apply Hids. by apply get_Some_elem. Qed.

Lemma keyed_value_key b m v : keyed idOf b m → v ∈ JsMap.values m → (idOf v, v) ∈ m.
Proof.
  intros (_ & Hids & _) Hin. unfold JsMap.values in Hin.
  apply list_elem_of_fmap in Hin as [[k v'] [-> Hin]]. simpl.
  by rewrite (Hids _ _ Hin).
Qed.
End Keyed.

Section MarkRead.
Context {Id : Type} `{JsId Id}.
Implicit Types (st : MemStorage Id) (m : Message.t Id).

Lemma readBy_not_unread u o m : ¬ unreadFrom u o (readBy u o m).
Proof.
  unfold readBy. destruct (decide (unreadFrom u o m)) as [Hu|Hn]; [|done].
  unfold unreadFrom. simpl. intros (_ & _ & ?). done.
Qed.

Lemma readBy_idem u o m : readBy u o (readBy u o m) = readBy u o m.
Proof.
  unfold readBy at 1. rewrite decide_False; [done|]. apply readBy_not_unread.
Qed.

Lemma readBy_id u o m : Message.id (readBy u o m) = Message.id m.
Proof. unfold readBy. by destruct (decide _). Qed.

Lemma keys_readEntry u o (l : list (Id * Message.t Id)) :
  JsMap.keys (readEntry u o <$> l) = JsMap.keys l.
Proof. unfold JsMap.keys. rewrite <- list_fmap_compose. done. Qed.

Lemma mark_fold u o (pre suf : list (Id * Message.t Id)) :
  NoDup (JsMap.keys (pre ++ suf)) →
  (∀ k m, (k, m) ∈ suf → Message.id m = k) →
  foldl (λ msgs message,
           JsMap.set (Message.id message) (Message.markRead message) msgs)
        ((readEntry u o <$> pre) ++ suf)
        (filter (unreadFrom u o) (JsMap.values suf))
  = readEntry u o <$> (pre ++ suf).
Proof.
  revert pre. induction suf as [|[k m] suf IH]; intros pre Hnd Hids.
  - simpl. by rewrite !app_nil_r.
  - assert (Message.id m = k) as Hk by (apply Hids, elem_of_cons; by left).
    assert (NoDup (JsMap.keys ((pre ++ [(k, m)]) ++ suf))) as Hnd'
      by (by rewrite <- app_assoc).
    assert (∀ k' m', (k', m') ∈ suf → Message.id m' = k') as Hids'
      by (intros ???; apply Hids, elem_of_cons; by right).
    specialize (IH (pre ++ [(k, m)]) Hnd' Hids').
    rewrite <- app_assoc in IH. simpl in IH. rewrite <- IH. clear IH.
    assert (k ∉ JsMap.keys (readEntry u o <$> pre)) as Hfresh.
    { rewrite keys_readEntry. unfold JsMap.keys in *. rewrite fmap_app in Hnd.
      apply NoDup_app in Hnd as (_ & Hdisj & _). intros Hin.
      apply (Hdisj _ Hin). simpl. apply elem_of_cons; by left. }
    unfold JsMap.values. simpl. rewrite fmap_app. simpl.
    unfold readEntry at 3. simpl. unfold readBy.
    destruct (decide (unreadFrom u o m)) as [Hu|Hn].
    + rewrite filter_cons_True by done. simpl. rewrite Hk.
      rewrite set_present by done. by rewrite <- app_assoc.
    + rewrite filter_cons_False by done. by rewrite <- app_assoc.
Qed.

Lemma markMessagesAsRead_messages u o st :
  keyed Message.id (currentMessageId st) (messages st) →
  messages (markMessagesAsRead u o st) = readEntry u o <$> messages st.
Proof.
  intros (Hnd & Hids & _). unfold markMessagesAsRead. simpl.
  exact (mark_fold u o [] (messages st) Hnd Hids).
Qed.

Lemma keyed_readEntry u o b (l : list (Id * Message.t Id)) :
  keyed Message.id b l → keyed Message.id b (readEntry u o <$> l).
Proof.
  intros (Hnd & Hids & Hb). repeat split.
  - by rewrite keys_readEntry.
  - intros k m Hin. apply list_elem_of_fmap in Hin as [[k' m'] [[= -> ->] Hin]].
    simpl. rewrite readBy_id. by apply Hids.
  - intros k. rewrite keys_readEntry. apply Hb.
Qed.

Lemma filter_unread_readBy u o (l : list (Message.t Id)) :
  filter (unreadFrom u o) (readBy u o <$> l) = [].
Proof.
  induction l as [|m l IH]; simpl; [done|].
  rewrite filter_cons_False; [done|]. apply readBy_not_unread.
Qed.

Lemma values_readEntry u o (l : list (Id * Message.t Id)) :
  JsMap.values (readEntry u o <$> l) = readBy u o <$> JsMap.values l.
Proof. unfold JsMap.values. rewrite <- !list_fmap_compose. done. Qed.

Lemma countUnread_markMessagesAsRead u o st :
  keyed Message.id (currentMessageId st) (messages st) →
  countUnread u o (markMessagesAsRead u o st) = 0%nat.
Proof.
  intros Hk. unfold countUnread. rewrite markMessagesAsRead_messages by done.
  by rewrite values_readEntry, filter_unread_readBy.
Qed.
End MarkRead.

Section StoreFacts.
Context {Id : Type} `{JsId Id}.
Implicit Types (st : MemStorage Id) (c : Conversation.t Id).

Lemma wf_init : wf (init (Id:=Id)).
Proof. split; [|split]; apply keyed_nil. Qed.

Lemma wf_createUser insertUser now st : wf st → wf (createUser insertUser now st).1.
Proof.
  intros (Hu & Hm & Hc). split; [|split]; simpl; [|done|done].
  by apply keyed_set_fresh.
Qed.

Lemma wf_updateUserStatus userId isOnline now st :
  wf st → wf (updateUserStatus userId isOnline now st).
Proof.
  intros (Hu & Hm & Hc). unfold updateUserStatus.
  destruct (getUser userId st) as [user|] eqn:Hg; [|done].
  split; [|split]; simpl; [|done|done].
  apply keyed_set_present; [done| |].
  - apply get_Some_elem in Hg. by apply (list_elem_of_fmap_2 fst) in Hg.
  - simpl. by eapply keyed_get.
Qed.

Lemma markMessagesAsRead_eq u o st :
  wf st →
  markMessagesAsRead u o st =
  mkStorage (users st) (readEntry u o <$> messages st) (conversations st)
    (currentUserId st) (currentMessageId st) (currentConversationId st).
Proof.
  intros (_ & Hm & _). pose proof (markMessagesAsRead_messages u o st Hm) as Hmsgs.
  unfold markMessagesAsRead in *. simpl in *. by rewrite Hmsgs.
Qed.

Lemma wf_markMessagesAsRead u o st : wf st → wf (markMessagesAsRead u o st).
Proof.
  intros Hwf. rewrite markMessagesAsRead_eq by done.
  destruct Hwf as (Hu & Hm & Hc). split; [|split]; simpl; [done| |done].
  by apply keyed_readEntry.
Qed.

Lemma find_head_filter {A} (P : A → Prop) `{∀ x, Decision (P x)} (l : list A) :
  List.find (λ x, bool_decide (P x)) l = head (filter P l).
Proof.
  induction l as [|x l IH]; simpl; [done|].
  rewrite filter_cons. destruct (decide (P x)) as [Hp|Hn].
  - by rewrite bool_decide_eq_true_2.
  - by rewrite bool_decide_eq_false_2.
Qed.

Lemma getConversation_head a b st :
  getConversation a b st = head (conversationsOf a b st).
Proof. apply find_head_filter. Qed.

Lemma samePair_sym a b c : samePair a b c ↔ samePair b a c.
Proof. unfold samePair. tauto. Qed.

Lemma conversationsOf_sym a b st : conversationsOf a b st = conversationsOf b a st.
Proof. apply list_filter_iff. intros c. apply samePair_sym. Qed.

Lemma samePair_touch a b mid now c :
  samePair a b (Conversation.touch mid now c) ↔ samePair a b c.
Proof. done. Qed.

Lemma samePair_same a b x y c :
  samePair a b c → samePair x y c → ∀ c', samePair x y c' ↔ samePair a b c'.
Proof.
  unfold samePair. intros [[<- <-]|[<- <-]] [[<- <-]|[Hx Hy]] c';
    try rewrite Hx; try rewrite Hy; tauto.
Qed.

(** A present key splits the map around its entry. *)
Lemma keyed_split {V} (idOf : V → Id) b (m : list (Id * V)) v :
  keyed idOf b m → v ∈ JsMap.values m →
  ∃ l1 l2, m = l1 ++ (idOf v, v) :: l2 ∧ idOf v ∉ JsMap.keys l1.
Proof.
  intros Hk Hin. pose proof (keyed_value_key _ _ _ _ Hk Hin) as Hel.
  apply list_elem_of_split in Hel as (l1 & l2 & ->). exists l1, l2. split; [done|].
  destruct Hk as (Hnd & _ & _). unfold JsMap.keys in *. rewrite fmap_app in Hnd.
  apply NoDup_app in Hnd as (_ & Hdisj & _). intros Hk1.
  apply (Hdisj _ Hk1). simpl. apply elem_of_cons; by left.
Qed.

Lemma values_app {V} (l1 l2 : list (Id * V)) :
  JsMap.values (l1 ++ l2) = JsMap.values l1 ++ JsMap.values l2.
Proof. unfold JsMap.values. apply fmap_app. Qed.

(** What one call of [createOrUpdateConversation] does to the records of
    the pair it is called for, and to those of every other pair. *)
Lemma createOrUpdateConversation_spec a b mid now st :
  wf st → onePerPair st →
  let st' := (createOrUpdateConversation a b mid now st).1 in
  let r := (createOrUpdateConversation a b mid now st).2 in
  wf st' ∧ onePerPair st' ∧
  users st' = users st ∧ messages st' = messages st ∧
  currentUserId st' = currentUserId st ∧
  currentMessageId st' = currentMessageId st ∧
  conversationsOf a b st' = [r] ∧
  Conversation.lastMessageId r = Some mid ∧
  match getConversation a b st with
  | Some c =>
      Conversation.id r = Conversation.id c ∧
      Conversation.user1Id r = Conversation.user1Id c ∧
      Conversation.user2Id r = Conversation.user2Id c ∧
      JsMap.keys (conversations st') = JsMap.keys (conversations st)
  | None =>
      conversations st' = conversations st ++ [(Conversation.id r, r)] ∧
      Conversation.user1Id r = a ∧ Conversation.user2Id r = b
  end.
Proof.
  intros (Hu & Hm & Hc) Hone. unfold createOrUpdateConversation.
  destruct (getConversation a b st) as [c|] eqn:Hg; simpl.
  - (* an existing record is overwritten where it stands *)
    pose proof Hg as Hhead. rewrite getConversation_head in Hhead.
    assert (c ∈ conversationsOf a b st) as Hin.
    { destruct (conversationsOf a b st); [done|]. injection Hhead as ->.
      apply elem_of_cons; by left. }
    apply list_elem_of_filter in Hin as [Hab Hin].
    destruct (keyed_split _ _ _ _ Hc Hin) as (l1 & l2 & Hsplit & Hfresh).
    assert (JsMap.set (Conversation.id c) (Conversation.touch mid now c)
              (conversations st)
            = l1 ++ (Conversation.id c, Conversation.touch mid now c) :: l2) as Hset.
    { rewrite Hsplit. by apply set_present. }
    assert (∀ x y,
      filter (samePair x y) (JsMap.values (l1 ++ (Conversation.id c, Conversation.touch mid now c) :: l2))
      = filter (samePair x y) (JsMap.values l1)
        ++ (if decide (samePair x y c) then [Conversation.touch mid now c] else [])
        ++ filter (samePair x y) (JsMap.values l2)) as Hnew.
    { intros x y. rewrite values_app, filter_app. f_equal.
      unfold JsMap.values. simpl. rewrite filter_cons.
      destruct (decide (samePair x y c)) as [Hp|Hn].
      - by rewrite decide_True by (by apply samePair_touch).
      - by rewrite decide_False by (by rewrite samePair_touch). }
    assert (∀ x y,
      filter (samePair x y) (JsMap.values (conversations st))
      = filter (samePair x y) (JsMap.values l1)
        ++ (if decide (samePair x y c) then [c] else [])
        ++ filter (samePair x y) (JsMap.values l2)) as Hold.
    { intros x y. rewrite Hsplit, values_app, filter_app. f_equal.
      unfold JsMap.values. simpl. rewrite filter_cons.
      by destruct (decide (samePair x y c)). }
    split_and!; try done.
    + split; [done|split; [done|]]. simpl.
      apply keyed_set_present; [done| |done].
      rewrite Hsplit. unfold JsMap.keys. rewrite fmap_app. simpl.
      apply elem_of_app. right. apply elem_of_cons; by left.
    + intros x y. unfold conversationsOf. simpl. rewrite Hset, Hnew.
      specialize (Hone x y). unfold conversationsOf in Hone. rewrite Hold in Hone.
      rewrite !length_app in *. destruct (decide (samePair x y c)); simpl in *; lia.
    + unfold conversationsOf. simpl. rewrite Hset, Hnew.
      specialize (Hone a b). unfold conversationsOf in Hone. rewrite Hold in Hone.
      rewrite decide_True in * by done. rewrite !length_app in Hone. simpl in Hone.
      destruct (filter (samePair a b) (JsMap.values l1)); [|simpl in Hone; lia].
      destruct (filter (samePair a b) (JsMap.values l2)); [done|simpl in Hone; lia].
    + rewrite Hset, Hsplit. unfold JsMap.keys. by rewrite !fmap_app.
  - (* no record of the pair: a new one is put last *)
    pose proof Hg as Hhead. rewrite getConversation_head in Hhead.
    assert (conversationsOf a b st = []) as Hnone
      by (by destruct (conversationsOf a b st)).
    pose proof (keyed_fresh _ _ _ Hc) as Hfresh.
    set (r := Conversation.mk Id (ofCounter (currentConversationId st)) a b (Some mid) now).
    assert (JsMap.set (ofCounter (currentConversationId st)) r (conversations st)
            = conversations st ++ [(Conversation.id r, r)]) as Hset
      by (by apply set_fresh).
    assert (samePair a b r) as Hr by (by left).
    split_and!; try done.
    + split; [done|split; [done|]]. simpl. by apply keyed_set_fresh.
    + intros x y. unfold conversationsOf. simpl. rewrite Hset, values_app, filter_app.
      rewrite length_app. unfold JsMap.values at 2. simpl.
      rewrite filter_cons. destruct (decide (samePair x y r)) as [Hp|Hn]; simpl.
      * rewrite (list_filter_iff _ _ _ (samePair_same a b x y r Hr Hp)).
        unfold conversationsOf in Hnone. rewrite Hnone. simpl. lia.
      * specialize (Hone x y). unfold conversationsOf in Hone. lia.
    + unfold conversationsOf in *. simpl. rewrite Hset, values_app, filter_app, Hnone.
      unfold JsMap.values. simpl. by rewrite filter_cons, decide_True.
Qed.
End StoreFacts.

(** ** [createMessage] and the conversation of a pair *)

Section Ledger.
Context {Id : Type} `{JsId Id}.
Implicit Types (st : MemStorage Id) (c : Conversation.t Id).

Lemma createMessage_spec A B content now nowConv st :
  wf st → onePerPair st →
  let st1 := (createMessage (Build_InsertMessage Id content (Some A) (Some B)) now nowConv st).1 in
  wf st1 ∧ onePerPair st1 ∧
  currentMessageId st1 = currentMessageId st + 1 ∧
  ∃ r, conversationsOf A B st1 = [r] ∧
       Conversation.lastMessageId r = Some (ofCounter (currentMessageId st)) ∧
       match getConversation A B st with
       | Some c =>
           Conversation.id r = Conversation.id c ∧
           JsMap.keys (conversations st1) = JsMap.keys (conversations st)
       | None => conversations st1 = conversations st ++ [(Conversation.id r, r)]
       end.
Proof.
  intros (Hu & Hm & Hc) Hone. unfold createMessage. simpl.
  set (mid := ofCounter (currentMessageId st)).
  set (msg := Message.mk Id mid content A B now false).
  set (st2 := mkStorage (users st) (JsMap.set mid msg (messages st)) (conversations st)
                (currentUserId st) (currentMessageId st + 1) (currentConversationId st)).
  assert (wf st2) as Hwf2.
  { split; [done|split; [|done]]. simpl. by apply keyed_set_fresh. }
  assert (onePerPair st2) as Hone2 by exact Hone.
  destruct (createOrUpdateConversation_spec A B mid nowConv st2 Hwf2 Hone2)
    as (Hwf' & Hone' & _ & _ & _ & Hcnt & Hof & Hlast & Hcase).
  split_and!; try done.
  eexists. split; [exact Hof|]. split; [exact Hlast|].
  change (getConversation A B st2) with (getConversation A B st) in Hcase.
  destruct (getConversation A B st); [|tauto].
  destruct Hcase as (? & _ & _ & ?). done.
Qed.

(** C5. From a well-formed store with at most one conversation record per
    unordered pair, a message from [A] to [B] followed by a message from
    [B] to [A] leaves one record for the pair: the lookup finds it in
    either orientation, the second message updates the record the first
    one wrote (same [id], no entry added to the map, [lastMessageId]
    pointing at the second message), and every pair still has at most one
    record. *)
Theorem conversation_shared_by_both_directions
    (A B : Id) (c1 c2 : string) (t1 t1' t2 t2' : Z) (st : MemStorage Id) :
  wf st → onePerPair st →
  let st1 := (createMessage (Build_InsertMessage Id c1 (Some A) (Some B)) t1 t1' st).1 in
  let st2 := (createMessage (Build_InsertMessage Id c2 (Some B) (Some A)) t2 t2' st1).1 in
  ∃ conv1 conv2,
    getConversation A B st1 = Some conv1 ∧
    getConversation B A st2 = Some conv2 ∧
    getConversation A B st2 = Some conv2 ∧
    Conversation.id conv2 = Conversation.id conv1 ∧
    conversationsOf A B st2 = [conv2] ∧
    JsMap.keys (conversations st2) = JsMap.keys (conversations st1) ∧
    Conversation.lastMessageId conv2 = Some (ofCounter (currentMessageId st1)) ∧
    onePerPair st2.
Proof.
  intros Hwf Hone st1 st2.
  destruct (createMessage_spec A B c1 t1 t1' st Hwf Hone)
    as (Hwf1 & Hone1 & _ & r1 & Hof1 & _ & _).
  fold st1 in Hwf1, Hone1, Hof1.
  destruct (createMessage_spec B A c2 t2 t2' st1 Hwf1 Hone1)
    as (_ & Hone2 & _ & r2 & Hof2 & Hlast2 & Hcase).
  fold st2 in Hone2, Hof2, Hcase.
  assert (getConversation B A st1 = Some r1) as Hg1.
  { by rewrite getConversation_head, conversationsOf_sym, Hof1. }
  rewrite Hg1 in Hcase. destruct Hcase as [Hid Hkeys].
  exists r1, r2. split_and!; try done.
  - by rewrite getConversation_head, Hof1.
  - by rewrite getConversation_head, Hof2.
  - by rewrite getConversation_head, conversationsOf_sym, Hof2.
  - by rewrite conversationsOf_sym.
Qed.

Lemma wf_threeUsers : wf (Demo.threeUsers (Id:=Id)).
Proof. unfold Demo.threeUsers. do 3 apply wf_createUser. apply wf_init. Qed.

Lemma onePerPair_no_conversation st : conversations st = [] → onePerPair st.
Proof. intros Hnil a b. unfold conversationsOf. rewrite Hnil. simpl. lia. Qed.

Lemma applyOp_consistent st op :
  wf st ∧ onePerPair st → wf (applyOp st op) ∧ onePerPair (applyOp st op).
Proof.
  intros [Hwf Hone]. destruct op as [iu now|u b now|ins now nowConv|u o]; simpl.
  - split; [by apply wf_createUser | exact Hone].
  - split; [by apply wf_updateUserStatus|].
    unfold updateUserStatus. by destruct (getUser u st).
  - destruct ins as [content [A|] [B|]].
    + by destruct (createMessage_spec A B content now nowConv st Hwf Hone) as (? & ? & _).
    + split; [|exact Hone]. destruct Hwf as (? & ? & ?).
      split_and!; simpl; [done| |done]. eapply keyed_mono; [|done]. lia.
    + split; [|exact Hone]. destruct Hwf as (? & ? & ?).
      split_and!; simpl; [done| |done]. eapply keyed_mono; [|done]. lia.
    + split; [|exact Hone]. destruct Hwf as (? & ? & ?).
      split_and!; simpl; [done| |done]. eapply keyed_mono; [|done]. lia.
  - split; [by apply wf_markMessagesAsRead|].
    intros a b'. exact (Hone a b').
Qed.

(** Every store built from the empty one is well formed and has at most
    one conversation record per unordered pair. *)
Lemma runOps_consistent (ops : list (StoreOp (Id:=Id))) :
  wf (runOps ops) ∧ onePerPair (runOps ops).
Proof.
  unfold runOps. induction ops as [|op ops IH] using rev_ind.
  - split; [apply wf_init | by apply onePerPair_no_conversation].
  - rewrite foldl_snoc. by apply applyOp_consistent.
Qed.
End Ledger.

Lemma conversation_shared_by_both_directions_witness :
  let st1 := (createMessage (Demo.text "hi" 1 2) 50 51 Demo.threeUsers).1 in
  let st2 := (createMessage (Demo.text "yo" 2 1) 60 61 st1).1 in
  ∃ conv1 conv2 : Conversation.t Z,
    getConversation 1 2 st1 = Some conv1 ∧
    getConversation 2 1 st2 = Some conv2 ∧
    getConversation 1 2 st2 = Some conv2 ∧
    Conversation.id conv2 = Conversation.id conv1 ∧
    conversationsOf 1 2 st2 = [conv2] ∧
    JsMap.keys (conversations st2) = JsMap.keys (conversations st1) ∧
    Conversation.lastMessageId conv2 = Some (ofCounter (currentMessageId st1)) ∧
    onePerPair st2.
Proof.
  apply (conversation_shared_by_both_directions 1 2 "hi" "yo" 50 51 60 61 Demo.threeUsers).
  - apply wf_threeUsers.
  - apply onePerPair_no_conversation. reflexivity.
Defined.

(** ** The conversation listing and the unread count *)

Section Unread.
Context {Id : Type} `{JsId Id}.
Implicit Types (st : MemStorage Id) (c : Conversation.t Id) (e : ConversationEntry Id).

Lemma elem_of_set_self {V} (k : Id) (v : V) (m : list (Id * V)) : (k, v) ∈ JsMap.set k v m.
Proof.
  induction m as [|[k' v'] m IH]; simpl.
  - apply elem_of_cons; by left.
  - destruct (decide (k' = k)); apply elem_of_cons; [by left | by right].
Qed.

Lemma elem_of_getConversations u st e :
  e ∈ getConversations u st ↔
  ∃ c, c ∈ JsMap.values (conversations st) ∧ involves u c ∧ entryOf u st c = Some e.
Proof.
  unfold getConversations. rewrite elem_of_sort, list_elem_of_omap. split.
  - intros (oe & Hin & ->). apply list_elem_of_fmap in Hin as (c & -> & Hin).
    apply list_elem_of_filter in Hin as [Hinv Hin]. by exists c.
  - intros (c & Hin & Hinv & He). exists (Some e). split; [|done].
    rewrite <- He. apply (list_elem_of_fmap_2 (entryOf u st)).
    by apply list_elem_of_filter.
Qed.

Lemma entryOf_Some u st c e :
  entryOf u st c = Some e →
  conv e = c ∧ getUser (otherOf u c) st = Some (otherUser e) ∧
  unreadCount e = countUnread u (otherOf u c) st.
Proof.
  unfold entryOf. destruct (getUser (otherOf u c) st); [|done].
  by intros [= <-].
Qed.

Lemma samePair_other A B c : samePair A B c → involves B c ∧ otherOf B c = A.
Proof.
  unfold samePair, involves, otherOf. intros [[H1 H2]|[H1 H2]].
  - split; [by right|]. destruct (decide _); congruence.
  - split; [by left|]. by rewrite decide_True.
Qed.

(** An entry of the listing for the conversation of a pair exists as soon
    as the record does and the other participant is a user. *)
Lemma listing_has_pair A B st c userA :
  c ∈ JsMap.values (conversations st) → samePair A B c →
  getUser A st = Some userA →
  ∃ e, e ∈ getConversations B st ∧ samePair A B (conv e).
Proof.
  intros Hin Hab Hg. destruct (samePair_other A B c Hab) as [Hinv Hoth].
  destruct (entryOf B st c) as [e|] eqn:He.
  - exists e. split.
    + apply elem_of_getConversations. by exists c.
    + apply entryOf_Some in He as (-> & _). done.
  - unfold entryOf in He. rewrite Hoth, Hg in He. done.
Qed.

Lemma listing_unreadCount A B st e :
  e ∈ getConversations B st → samePair A B (conv e) →
  unreadCount e = countUnread B A st.
Proof.
  intros Hin Hab. apply elem_of_getConversations in Hin as (c & _ & _ & He).
  apply entryOf_Some in He as (<- & _ & ->).
  by destruct (samePair_other A B (conv e) Hab) as [_ ->].
Qed.

(** [createMessage] without the assumption on pairs: the store stays well
    formed, the message is the last entry of the message map, and the pair
    has a record. *)
Lemma createMessage_wf A B content now nowConv st :
  wf st →
  let st1 := (createMessage (Build_InsertMessage Id content (Some A) (Some B)) now nowConv st).1 in
  let msg := Message.mk Id (ofCounter (currentMessageId st)) content A B now false in
  wf st1 ∧ users st1 = users st ∧
  messages st1 = messages st ++ [(Message.id msg, msg)] ∧
  ∃ c, c ∈ JsMap.values (conversations st1) ∧ samePair A B c.
Proof.
  intros (Hu & Hm & Hc). unfold createMessage, createOrUpdateConversation. simpl.
  set (mid := ofCounter (currentMessageId st)).
  set (msg := Message.mk Id mid content A B now false).
  assert (keyed Message.id (currentMessageId st + 1) (JsMap.set mid msg (messages st)))
    as Hm' by (by apply keyed_set_fresh).
  assert (JsMap.set mid msg (messages st) = messages st ++ [(mid, msg)]) as Hset
    by (apply set_fresh; by eapply keyed_fresh).
  match goal with |- context [getConversation A B ?s] =>
    change (getConversation A B s) with (getConversation A B st) end.
  destruct (getConversation A B st) as [c|] eqn:Hg; simpl.
  - rewrite getConversation_head in Hg.
    assert (c ∈ conversationsOf A B st) as Hin.
    { destruct (conversationsOf A B st); [done|]. injection Hg as ->.
      apply elem_of_cons; by left. }
    apply list_elem_of_filter in Hin as [Hab Hin].
    split_and!; try done.
    + split; [done|split; [done|]]. simpl.
      apply keyed_set_present; [done| |done].
      apply (keyed_value_key _ _ _ _ Hc) in Hin.
      by apply (list_elem_of_fmap_2 fst) in Hin.
    + exists (Conversation.touch mid nowConv c). split; [|done].
      apply (list_elem_of_fmap_2 snd _ (Conversation.id c, Conversation.touch mid nowConv c)).
      apply elem_of_set_self.
  - split_and!; try done.
    + split; [done|split; [done|]]. simpl. by apply keyed_set_fresh.
    + exists (Conversation.mk Id (ofCounter (currentConversationId st)) A B
                (Some mid) nowConv).
      split; [|by left].
      apply (list_elem_of_fmap_2 snd _ (ofCounter (currentConversationId st), _)).
      apply elem_of_set_self.
Qed.

(** C6. After [createMessage] with sender [A] and receiver [B] on a
    well-formed store in which [A] is a user, the listing for [B] has an
    entry for the A-B conversation, and every such entry reports an unread
    count of at least 1 (the number of stored messages with
    [senderId = A], [receiverId = B], [read = false]); after
    [markMessagesAsRead(B, A)] the entry is still listed and its count is
    exactly 0. *)
Theorem unread_count_after_message
    (A B : Id) (content : string) (now nowConv : Z) (st : MemStorage Id)
    (userA : User.t Id) :
  wf st → getUser A st = Some userA →
  let st1 := (createMessage (Build_InsertMessage Id content (Some A) (Some B)) now nowConv st).1 in
  let st2 := markMessagesAsRead B A st1 in
  (∃ e, e ∈ getConversations B st1 ∧ samePair A B (conv e)) ∧
  (∀ e, e ∈ getConversations B st1 → samePair A B (conv e) →
        unreadCount e = countUnread B A st1 ∧ (1 ≤ unreadCount e)%nat) ∧
  (∃ e, e ∈ getConversations B st2 ∧ samePair A B (conv e)) ∧
  (∀ e, e ∈ getConversations B st2 → samePair A B (conv e) → unreadCount e = 0%nat).
Proof.
  intros Hwf HA st1 st2.
  destruct (createMessage_wf A B content now nowConv st Hwf)
    as (Hwf1 & Husers & Hmsgs & c & Hc & Hab).
  fold st1 in Hwf1, Husers, Hmsgs, Hc.
  assert (getUser A st1 = Some userA) as HA1 by (unfold getUser; by rewrite Husers).
  assert (1 ≤ countUnread B A st1)%nat as Hcount.
  { unfold countUnread. rewrite Hmsgs, values_app, filter_app, length_app.
    unfold JsMap.values at 2. simpl. rewrite filter_cons_True by done. simpl. lia. }
  assert (st2 = mkStorage (users st1) (readEntry B A <$> messages st1) (conversations st1)
            (currentUserId st1) (currentMessageId st1) (currentConversationId st1)) as Hst2
    by (by apply markMessagesAsRead_eq).
  split_and!.
  - by eapply listing_has_pair.
  - intros e He Hpair. rewrite (listing_unreadCount A B st1 e He Hpair). done.
  - apply (listing_has_pair A B st2 c userA); [by rewrite Hst2|done|by rewrite Hst2].
  - intros e He Hpair. rewrite (listing_unreadCount A B st2 e He Hpair).
    apply countUnread_markMessagesAsRead. by destruct Hwf1 as (_ & ? & _).
Qed.

(** C7. On a well-formed store [markMessagesAsRead(viewer, other)] applied
    twice gives the store it gives applied once; after it the unread count
    of the pair is 0; it replaces each message with [senderId = other],
    [receiverId = viewer], [read = false] by the same message with
    [read = true], leaves every other message as it was and in its place,
    and changes neither the users, the conversations nor the counters. *)
Theorem markMessagesAsRead_idempotent (viewer other : Id) (st : MemStorage Id) :
  wf st →
  let st1 := markMessagesAsRead viewer other st in
  markMessagesAsRead viewer other st1 = st1 ∧
  countUnread viewer other st1 = 0%nat ∧
  countUnread viewer other (markMessagesAsRead viewer other st1) = 0%nat ∧
  messages st1 =
    (λ kv, (kv.1, if decide (unreadFrom viewer other kv.2)
                  then Message.markRead kv.2 else kv.2)) <$> messages st ∧
  users st1 = users st ∧
  conversations st1 = conversations st ∧
  currentUserId st1 = currentUserId st ∧
  currentMessageId st1 = currentMessageId st ∧
  currentConversationId st1 = currentConversationId st.
Proof.
  intros Hwf st1.
  pose proof (wf_markMessagesAsRead viewer other st Hwf) as Hwf1. fold st1 in Hwf1.
  assert (markMessagesAsRead viewer other st1 = st1) as Hidem.
  { rewrite (markMessagesAsRead_eq viewer other st1 Hwf1).
    unfold st1. rewrite (markMessagesAsRead_eq viewer other st Hwf). simpl.
    f_equal. rewrite <- list_fmap_compose. apply list_fmap_ext.
    intros i [k m] _. unfold readEntry. simpl. by rewrite readBy_idem. }
  split_and!; try done.
  - apply countUnread_markMessagesAsRead. by destruct Hwf as (_ & ? & _).
  - rewrite Hidem. apply countUnread_markMessagesAsRead. by destruct Hwf as (_ & ? & _).
  - unfold st1. by rewrite (markMessagesAsRead_eq viewer other st Hwf).
Qed.
End Unread.

Lemma unread_count_after_message_witness :
  let st1 := (createMessage (Demo.text "hi" 1 2) 50 51 Demo.threeUsers).1 in
  let st2 := markMessagesAsRead 2 1 st1 in
  (∃ e, e ∈ getConversations 2 st1 ∧ samePair 1 2 (conv e)) ∧
  (∀ e, e ∈ getConversations 2 st1 → samePair 1 2 (conv e) →
        unreadCount e = countUnread 2 1 st1 ∧ (1 ≤ unreadCount e)%nat) ∧
  (∃ e, e ∈ getConversations 2 st2 ∧ samePair 1 2 (conv e)) ∧
  (∀ e, e ∈ getConversations 2 st2 → samePair 1 2 (conv e) → unreadCount e = 0%nat).
Proof.
  apply (unread_count_after_message 1 2 "hi" 50 51 Demo.threeUsers
           (User.mk Z 1 "Ann" "ann" "ann@x.io" "secret1" None 10 10 true)).
  - apply wf_threeUsers.
  - reflexivity.
Defined.

Lemma markMessagesAsRead_idempotent_witness :
  let st := (createMessage (Demo.text "hi" 1 2) 50 51 Demo.threeUsers).1 in
  markMessagesAsRead 2 1 (markMessagesAsRead 2 1 st) = markMessagesAsRead 2 1 st.
Proof.
  intros st.
  refine (proj1 (markMessagesAsRead_idempotent 2 1 st _)).
  apply (createMessage_wf 1 2 "hi" 50 51 Demo.threeUsers wf_threeUsers).
Defined.

(** ** The message history and the route that serves it *)

Section History.
Context {Id : Type} `{JsId Id}.
Implicit Types (st : MemStorage Id) (m : Message.t Id) (e : ConversationEntry Id).

Lemma byTimestamp_total (a b : Message.t Id) : byTimestamp a b ≤ 0 ∨ byTimestamp b a ≤ 0.
Proof. unfold byTimestamp. lia. Qed.

Lemma Sorted_notAfter (l : list (Message.t Id)) :
  Sorted (inOrder byTimestamp) l → StronglySorted notAfter l.
Proof.
  intros Hs. apply Sorted_StronglySorted.
  - intros a b c. unfold notAfter. lia.
  - induction Hs as [|a l Hs IH Hhd]; constructor; [done|].
    destruct Hhd as [|b l Hab]; constructor.
    unfold inOrder, byTimestamp in Hab. unfold notAfter. lia.
Qed.

Lemma getMessages_sorted u o st : StronglySorted notAfter (getMessages u o st).
Proof. apply Sorted_notAfter, sort_sorted, byTimestamp_total. Qed.

Lemma find_entry cid (l : list (ConversationEntry Id)) e :
  List.find (λ c, bool_decide (Conversation.id (conv c) = cid)) l = Some e →
  e ∈ l ∧ Conversation.id (conv e) = cid.
Proof.
  intros Hf. apply find_some in Hf as [Hin Hid].
  split; [by apply list_elem_of_In | by apply bool_decide_eq_true in Hid].
Qed.

Lemma find_entry_None cid (l : list (ConversationEntry Id)) :
  List.find (λ c, bool_decide (Conversation.id (conv c) = cid)) l = None →
  ¬ ∃ e, e ∈ l ∧ Conversation.id (conv e) = cid.
Proof.
  intros Hf (e & Hin & Hid). apply list_elem_of_In in Hin.
  pose proof (find_none _ _ Hf e Hin) as Hn. simpl in Hn.
  apply bool_decide_eq_false in Hn. done.
Qed.

Lemma listing_otherUser u st e :
  wf st → e ∈ getConversations u st → User.id (otherUser e) = otherOf u (conv e).
Proof.
  intros (Hu & _ & _) Hin. apply elem_of_getConversations in Hin as (c & _ & _ & He).
  apply entryOf_Some in He as (<- & Hg & _). by eapply keyed_get.
Qed.

Lemma countUnread_zero u o st m :
  countUnread u o st = 0%nat → m ∈ JsMap.values (messages st) →
  Message.senderId m = o → Message.receiverId m = u → Message.read m = true.
Proof.
  unfold countUnread. intros Hz%nil_length_inv Hin Hs Hr.
  destruct (Message.read m) eqn:Hread; [done|].
  by destruct (filter_nil_not_elem_of _ _ m Hz).
Qed.

(** C8. [getMessages(userId, otherUserId)] is a permutation of the stored
    messages between the two users in either direction, in ascending
    timestamp order. The history route, when the viewer's listing has the
    conversation asked for, answers with that history for the other
    participant and leaves the store as [markMessagesAsRead] for that
    participant makes it: no message from the other participant to the
    viewer is unread afterwards. When the listing has no such conversation
    the route answers 404 and changes nothing. *)
Theorem getMessages_history (userId otherUserId : Id) (st : MemStorage Id) :
  wf st →
  getMessages userId otherUserId st
    ≡ₚ filter (between userId otherUserId) (JsMap.values (messages st)) ∧
  (∀ m, m ∈ getMessages userId otherUserId st ↔
        m ∈ JsMap.values (messages st) ∧
        ((Message.senderId m = userId ∧ Message.receiverId m = otherUserId) ∨
         (Message.senderId m = otherUserId ∧ Message.receiverId m = userId))) ∧
  StronglySorted notAfter (getMessages userId otherUserId st) ∧
  (∀ conversationId,
     (∃ e, e ∈ getConversations userId st ∧ Conversation.id (conv e) = conversationId) →
     ∃ e, e ∈ getConversations userId st ∧
          Conversation.id (conv e) = conversationId ∧
          let other := User.id (otherUser e) in
          let st' := markMessagesAsRead userId other st in
          other = otherOf userId (conv e) ∧
          getMessagesRoute userId conversationId st
            = (st', Json 200 (current st' <$> getMessages userId other st)) ∧
          countUnread userId other st' = 0%nat ∧
          (∀ m, m ∈ JsMap.values (messages st') →
                Message.senderId m = other → Message.receiverId m = userId →
                Message.read m = true)) ∧
  (∀ conversationId,
     (¬ ∃ e, e ∈ getConversations userId st ∧ Conversation.id (conv e) = conversationId) →
     getMessagesRoute userId conversationId st = (st, Send 404 "Conversation not found")).
Proof.
  intros Hwf. split_and!.
  - apply sort_perm.
  - intros m. unfold getMessages. rewrite elem_of_sort, list_elem_of_filter.
    unfold between. tauto.
  - apply getMessages_sorted.
  - intros cid Hex. unfold getMessagesRoute.
    destruct (List.find _ (getConversations userId st)) as [e|] eqn:Hf.
    + apply find_entry in Hf as [Hin Hid]. exists e.
      assert (countUnread userId (User.id (otherUser e))
                (markMessagesAsRead userId (User.id (otherUser e)) st) = 0%nat) as Hz.
      { apply countUnread_markMessagesAsRead. by destruct Hwf as (_ & ? & _). }
      split_and!; try done.
      * exact (listing_otherUser userId st e Hwf Hin).
      * intros m. exact (countUnread_zero _ _ _ m Hz).
    + by apply find_entry_None in Hf.
  - intros cid Hno. unfold getMessagesRoute.
    destruct (List.find _ (getConversations userId st)) as [e|] eqn:Hf; [|done].
    apply find_entry in Hf. destruct Hno. by exists e.
Qed.
End History.

Lemma getMessages_history_witness :
  let st := (createMessage (Demo.text "yo" 2 1) 60 61
               (createMessage (Demo.text "hi" 1 2) 50 51 Demo.threeUsers).1).1 in
  StronglySorted notAfter (getMessages 2 1 st) ∧
  getMessagesRoute 2 1 st
  = (markMessagesAsRead 2 1 st,
     Json 200 [Message.mk Z 1 "hi" 1 2 50 true; Message.mk Z 2 "yo" 2 1 60 false]).
Proof.
  intros st.
  assert (wf st) as Hwf.
  { apply (createMessage_wf 2 1 "yo" 60 61).
    apply (createMessage_wf 1 2 "hi" 50 51 Demo.threeUsers wf_threeUsers). }
  destruct (getMessages_history 2 1 st Hwf) as (_ & _ & Hsorted & _ & _).
  split; [exact Hsorted | reflexivity].
Defined.

(** ** The connection registry *)

Section Registry.
Implicit Types (s : Server) (u : string) (h c : nat) (ws : AuthenticatedClient).

Lemma lookup_bind u c s : lookup u (bind u c s) = Some c.
Proof. unfold lookup, bind. simpl. apply get_set_eq. Qed.

Lemma storage_bind u c s : storage (bind u c s) = storage s.
Proof. done. Qed.

Lemma length_sockets_bind u c s : length (sockets (bind u c s)) = length (sockets s).
Proof.
  unfold bind. simpl. destruct (JsMap.has u (clients s)); [|by rewrite length_alter].
  destruct (JsMap.get u (clients s)) as [h|]; [|by rewrite length_alter].
  destruct (decide (h ≠ c)); by rewrite !length_alter.
Qed.

Lemma stateOf_alter (f : AuthenticatedClient → AuthenticatedClient) h h' st socks cl :
  (∀ ws, readyState ws = CLOSING ∨ readyState ws = CLOSED →
         readyState (f ws) = readyState ws) →
  closedAt h (mkServer st socks cl) → closedAt h (mkServer st (alter f h' socks) cl).
Proof.
  intros Hf. unfold closedAt, stateOf. simpl.
  destruct (decide (h' = h)) as [->|Hne].
  - rewrite list_lookup_alter_eq. destruct (socks !! h) as [ws|]; simpl; [|done].
    intros [[= Hc]|[= Hc]]; rewrite Hf, Hc; auto.
  - by rewrite list_lookup_alter_ne.
Qed.

Lemma closedAt_bind u c h s : closedAt h s → closedAt h (bind u c s).
Proof.
  destruct s as [st socks cl]. intros Hcl. unfold bind. simpl.
  assert (closedAt h (mkServer st (alter (Ws.setUserId u) c socks) cl)) as H1
    by (by apply stateOf_alter).
  assert (closedAt h (mkServer st (alter (Ws.setUserId u) c socks) (JsMap.set u c cl))) as H1'
    by exact H1.
  destruct (JsMap.has u cl); [|done].
  destruct (JsMap.get u cl) as [h'|]; [|done].
  destruct (decide (h' ≠ c)); [|done].
  apply (stateOf_alter Ws.close h h' st _ (JsMap.set u c cl)); [|done].
  intros ws [Hc|Hc]; unfold Ws.close; simpl; by rewrite Hc.
Qed.

(** Binding [c] under an identity held by another socket closes that
    socket. *)
Lemma bind_evicts u c h s :
  lookup u s = Some h → h ≠ c → (h < length (sockets s))%nat →
  closedAt h (bind u c s).
Proof.
  unfold lookup. intros Hl Hne Hlt. unfold bind, JsMap.has. rewrite Hl.
  rewrite decide_True by done. unfold closedAt, stateOf. simpl.
  rewrite list_lookup_alter_eq, list_lookup_alter_ne by done.
  destruct (lookup_lt_is_Some_2 (sockets s) h Hlt) as [ws ->]. simpl.
  unfold Ws.close. simpl. destruct (readyState ws); auto.
Qed.

Lemma bindAll_snoc u hs h s : bindAll u (hs ++ [h]) s = bind u h (bindAll u hs s).
Proof. unfold bindAll. by rewrite foldl_snoc. Qed.

Lemma length_sockets_bindAll u hs s :
  length (sockets (bindAll u hs s)) = length (sockets s).
Proof.
  induction hs as [|h hs IH] using rev_ind; [done|].
  by rewrite bindAll_snoc, length_sockets_bind.
Qed.

Lemma bindAll_last u hs s :
  (∀ h, h ∈ hs → h < length (sockets s))%nat →
  ∀ c, last hs = Some c →
  lookup u (bindAll u hs s) = Some c ∧
  ∀ h, h ∈ hs → h ≠ c → closedAt h (bindAll u hs s).
Proof.
  induction hs as [|x hs IH] using rev_ind; intros Hval c Hlast; [done|].
  rewrite last_snoc in Hlast. injection Hlast as ->.
  rewrite bindAll_snoc. split; [apply lookup_bind|].
  intros h Hin Hne. apply elem_of_app in Hin as [Hin|Hin];
    [|apply list_elem_of_singleton in Hin; done].
  assert (∀ h, h ∈ hs → (h < length (sockets s))%nat) as Hval'
    by (intros h' Hh'; apply Hval, elem_of_app; by left).
  destruct (last hs) as [y|] eqn:Hy.
  - destruct (IH Hval' y eq_refl) as [Hlook Hclosed].
    destruct (decide (h = y)) as [->|Hhy].
    + apply bind_evicts; [done|done|].
      rewrite length_sockets_bindAll. by apply Hval'.
    + apply closedAt_bind. by apply Hclosed.
  - apply last_None in Hy. subst hs. by apply elem_of_nil in Hin.
Qed.

(** Binds that follow one another with no ['close'] handled in between:
    after the sockets [cs] and then [c] have taken the identity [U], in
    this order, the registry holds [c] for [U] (one entry: [lookup] is a
    function of the map), every socket of [cs] other than [c] has been
    closed, and the store is untouched. *)
Lemma bind_last_writer_wins (U : string) (cs : list nat) (c : nat) (s : Server) :
  (∀ h, h ∈ cs → h < length (sockets s))%nat →
  let s' := bindAll U (cs ++ [c]) s in
  lookup U s' = Some c ∧
  (∀ h, h ∈ cs → h ≠ c → closedAt h s') ∧
  (∀ h, lookup U s' = Some h → h = c) ∧
  storage s' = storage s.
Proof.
  intros Hval s'. unfold s'. rewrite bindAll_snoc.
  split; [apply lookup_bind|]. split_and!.
  - intros h Hin Hne. destruct (last cs) as [y|] eqn:Hy.
    + destruct (bindAll_last U cs s Hval y Hy) as [Hlook Hclosed].
      destruct (decide (h = y)) as [->|Hhy].
      * apply bind_evicts; [done|done|].
        rewrite length_sockets_bindAll. by apply Hval.
      * apply closedAt_bind. by apply Hclosed.
    + apply last_None in Hy. subst cs. by apply elem_of_nil in Hin.
  - intros h. rewrite lookup_bind. by intros [= <-].
  - rewrite storage_bind. clear Hval s'.
    induction cs as [|x cs IH] using rev_ind; [done|].
    by rewrite bindAll_snoc, storage_bind.
Qed.
End Registry.

Lemma bind_last_writer_wins_witness :
  let s' := bindAll "1" [0; 1; 2]%nat Demo.threeSockets in
  lookup "1" s' = Some 2%nat ∧ closedAt 0 s' ∧ closedAt 1 s'.
Proof.
  intros s'.
  destruct (bind_last_writer_wins "1" [0; 1]%nat 2%nat Demo.threeSockets)
    as (Hlook & Hclosed & _).
  - intros h Hin. change (length (sockets Demo.threeSockets)) with 3%nat.
    apply elem_of_cons in Hin as [->|Hin]; [lia|].
    apply list_elem_of_singleton in Hin as ->. lia.
  - split; [exact Hlook|]. split; apply Hclosed.
    + apply elem_of_cons; by left.
    + lia.
    + apply elem_of_cons; right; apply elem_of_cons; by left.
    + lia.
Defined.

(** ** Frames and disconnects *)

Section Router.
Variable JSON_parse : string → option WebSocketMessage.
Variable JSON_stringify : WebSocketMessage → string.
Implicit Types (s : Server) (u : string) (h c : nat) (ws : AuthenticatedClient).

Lemma identityOf_alter (f : AuthenticatedClient → AuthenticatedClient) h h'
    (socks : list AuthenticatedClient) :
  (∀ ws, userId (f ws) = userId ws) →
  alter f h' socks !! h ≫= userId = socks !! h ≫= userId.
Proof.
  intros Hf. destruct (decide (h' = h)) as [->|Hne].
  - rewrite list_lookup_alter_eq. destruct (socks !! h); simpl; [apply Hf|done].
  - by rewrite list_lookup_alter_ne.
Qed.

Lemma forward_frame r data s :
  storage (forward r data s) = storage s ∧
  clients (forward r data s) = clients s ∧
  ∀ h, identityOf h (forward r data s) = identityOf h s.
Proof.
  unfold forward. destruct (JsMap.get r (clients s)) as [h'|]; [|done].
  destruct (Ws.isOpen h' (sockets s)); [|done]. split_and!; try done.
  intros h. unfold identityOf. simpl. by apply identityOf_alter.
Qed.

Lemma broadcast_frame u data s :
  storage (broadcast u data s) = storage s ∧
  clients (broadcast u data s) = clients s ∧
  ∀ h, identityOf h (broadcast u data s) = identityOf h s.
Proof.
  split_and!; try done. intros h. unfold identityOf, broadcast, JsMap.entries. simpl.
  generalize (sockets s) as socks.
  induction (clients s) as [|[v h'] cl IH]; intros socks; simpl; [done|].
  rewrite IH. destruct (bool_decide (v ≠ u) && Ws.isOpen h' socks); [|done].
  by apply identityOf_alter.
Qed.

Lemma route_frame data message s :
  storage (route data message s) = storage s ∧
  clients (route data message s) = clients s ∧
  ∀ h, identityOf h (route data message s) = identityOf h s.
Proof.
  unfold route. destruct (type message); auto using forward_frame, broadcast_frame.
Qed.

Lemma identityOf_bind u c s ws :
  sockets s !! c = Some ws → identityOf c (bind u c s) = Some u.
Proof.
  intros Hc. unfold identityOf, bind. simpl.
  assert (alter (Ws.setUserId u) c (sockets s) !! c ≫= userId = Some u) as Hset
    by (by rewrite list_lookup_alter_eq, Hc).
  destruct (JsMap.has u (clients s)); [|done].
  destruct (JsMap.get u (clients s)) as [h|]; [|done].
  destruct (decide (h ≠ c)); [|done].
  by rewrite identityOf_alter.
Qed.

Lemma identityOf_bind_ne u c h s : h ≠ c → identityOf h (bind u c s) = identityOf h s.
Proof.
  intros Hne. unfold identityOf, bind. simpl.
  assert (alter (Ws.setUserId u) c (sockets s) !! h ≫= userId = sockets s !! h ≫= userId)
    as Hset by (by rewrite list_lookup_alter_ne).
  destruct (JsMap.has u (clients s)); [|done].
  destruct (JsMap.get u (clients s)) as [h'|]; [|done].
  destruct (decide (h' ≠ c)); [|done].
  by rewrite identityOf_alter.
Qed.

(** What [forward] does, socket by socket. *)
Lemma forward_delivers r data s h :
  lookup r s = Some h → Ws.isOpen h (sockets s) = true →
  sentTo h (forward r data s) = sentTo h s ++ [data] ∧
  stateOf h (forward r data s) = Some OPEN ∧
  ∀ h', h' ≠ h → sockets (forward r data s) !! h' = sockets s !! h'.
Proof.
  unfold lookup, forward. intros -> Hopen. rewrite Hopen.
  unfold sentTo, stateOf, Ws.isOpen in *. simpl. rewrite list_lookup_alter_eq.
  destruct (sockets s !! h) as [ws|]; [|done]. simpl.
  apply bool_decide_eq_true in Hopen. split_and!; [done | by rewrite Hopen |].
  intros h' Hne. by rewrite list_lookup_alter_ne.
Qed.

Lemma forward_drops r data s :
  (lookup r s = None ∨ ∃ h, lookup r s = Some h ∧ Ws.isOpen h (sockets s) = false) →
  forward r data s = s.
Proof.
  unfold lookup, forward. intros [->|(h & -> & ->)]; done.
Qed.

(** C3 (as the code has it). For a socket that has no identity yet: a
    frame that is not a text frame has its sender looked up in the user
    store before anything is routed; when the sender is unknown the
    handler returns with the server unchanged (nothing sent, socket still
    without identity, registry and store as before); when the sender is
    known the socket takes that identity and is registered under it. A
    text frame is not validated: it is routed to the receiver, and the
    socket, the registry and the store stay as they were. *)
Theorem first_frame_validation
    (c : nat) (data : string) (now : Z) (message : WebSocketMessage)
    (ws : AuthenticatedClient) (s : Server) :
  sockets s !! c = Some ws → Ws.hasUserId ws = false →
  JSON_parse data = Some message →
  let s' := onMessage JSON_parse c data now s in
  (type message ≠ TEXT → getUser (senderId message) (storage s) = None → s' = s) ∧
  (type message ≠ TEXT → is_Some (getUser (senderId message) (storage s)) →
     lookup (senderId message) s' = Some c ∧
     identityOf c s' = Some (senderId message)) ∧
  (type message = TEXT →
     s' = forward (receiverId message) data s ∧
     clients s' = clients s ∧ storage s' = storage s ∧
     identityOf c s' = identityOf c s).
Proof.
  intros Hc Hanon Hparse s'. unfold s', onMessage. rewrite Hc, Hparse, Hanon. simpl.
  split_and!.
  - intros Hty Hnone. rewrite bool_decide_eq_false_2 by done. simpl.
    unfold authenticate. by rewrite Hnone.
  - intros Hty [usr Husr]. rewrite bool_decide_eq_false_2 by done. simpl.
    unfold authenticate. rewrite Husr.
    destruct (decide (type message = STATUS));
      match goal with |- context [route data message ?s1] =>
        destruct (route_frame data message s1) as (_ & Hcl & Hid) end;
      unfold lookup; rewrite Hid, Hcl.
    + simpl. split; [apply get_set_eq|].
      exact (identityOf_bind (senderId message) c s ws Hc).
    + split; [apply lookup_bind|].
      exact (identityOf_bind (senderId message) c s ws Hc).
  - intros Hty. rewrite bool_decide_eq_true_2 by done. simpl.
    unfold route. rewrite Hty.
    destruct (forward_frame (receiverId message) data s) as (Hst & Hcl & Hid).
    split_and!; done.
Qed.

(** C9 (as the code has it). A typing frame never changes the store
    (users, messages, conversations and counters stay as they are). On a
    socket that has an identity its only effect is the delivery: the frame
    is appended, as received, to what the receiver's registered socket was
    sent when that socket is open, and nothing changes otherwise. On a
    socket without identity the sender is validated first: an unknown
    sender drops the frame with no effect at all, a known one binds the
    socket and the frame is then delivered in the same way. *)
Theorem typing_frame_effect
    (c : nat) (data : string) (now : Z) (message : WebSocketMessage)
    (ws : AuthenticatedClient) (s : Server) :
  sockets s !! c = Some ws → JSON_parse data = Some message →
  type message = TYPING →
  let s' := onMessage JSON_parse c data now s in
  storage s' = storage s ∧
  (Ws.hasUserId ws = true →
     s' = forward (receiverId message) data s ∧
     clients s' = clients s ∧
     (∀ h, lookup (receiverId message) s = Some h →
           Ws.isOpen h (sockets s) = true →
           sentTo h s' = sentTo h s ++ [data] ∧
           ∀ h', h' ≠ h → sockets s' !! h' = sockets s !! h') ∧
     ((lookup (receiverId message) s = None ∨
       ∃ h, lookup (receiverId message) s = Some h ∧ Ws.isOpen h (sockets s) = false) →
      s' = s)) ∧
  (Ws.hasUserId ws = false →
     (getUser (senderId message) (storage s) = None → s' = s) ∧
     (is_Some (getUser (senderId message) (storage s)) →
      s' = forward (receiverId message) data (bind (senderId message) c s))).
Proof.
  intros Hc Hparse Hty s'. unfold s', onMessage. rewrite Hc, Hparse. simpl.
  rewrite (bool_decide_eq_false_2 (type message = TEXT)) by congruence.
  unfold authenticate, route. rewrite Hty. simpl.
  destruct (Ws.hasUserId ws); simpl.
  - split; [apply forward_frame|]. split; [|done]. intros _.
    split_and!; try done.
    + apply forward_frame.
    + intros h Hl Hopen.
      destruct (forward_delivers (receiverId message) data s h Hl Hopen) as (? & _ & ?).
      done.
    + apply forward_drops.
  - destruct (getUser (senderId message) (storage s)) as [usr|] eqn:Husr.
    + split; [|split; [done|]].
      * destruct (forward_frame (receiverId message) data (bind (senderId message) c s))
          as (-> & _). done.
      * intros _. split; [done|]. done.
    + split; [done|]. split; [done|]. intros _. split; [done|].
      intros [? ?]. done.
Qed.

(** The close of a socket that was replaced under its identity removes the
    entry of the socket that replaced it: for every identity and every two
    sockets, not only on the sample run. *)
Lemma stale_close_unbinds u a b now s wsA :
  Str.truthy u = true → a ≠ b → sockets s !! a = Some wsA →
  NoDup (JsMap.keys (clients s)) →
  let s1 := bind u b (bind u a s) in
  lookup u s1 = Some b ∧ lookup u (onClose JSON_stringify a now s1) = None.
Proof.
  intros Ht Hne Ha Hnd s1. split; [apply lookup_bind|].
  assert (identityOf a s1 = Some u) as Hid.
  { unfold s1. rewrite identityOf_bind_ne by done.
    exact (identityOf_bind u a s wsA Ha). }
  unfold identityOf in Hid.
  unfold onClose. destruct (sockets s1 !! a) as [ws|]; [|done]. simpl in Hid.
  rewrite Hid, Ht. unfold lookup. simpl.
  apply get_delete_eq. by do 2 apply NoDup_keys_set.
Qed.

(** A socket that closes with an identity marks that user offline,
    whatever socket the registry holds for the user at that moment. *)
Lemma onClose_marks_offline c now s ws u usr :
  sockets s !! c = Some ws → userId ws = Some u → Str.truthy u = true →
  getUser u (storage s) = Some usr →
  getUser u (storage (onClose JSON_stringify c now s))
    = Some (User.withStatus false now usr) ∧
  lookup u (onClose JSON_stringify c now s) = JsMap.get u (JsMap.delete u (clients s)).
Proof.
  intros Hc Hu Ht Husr. unfold onClose. rewrite Hc, Hu, Ht. simpl.
  unfold updateUserStatus. rewrite Husr. unfold getUser. simpl.
  split; [apply get_set_eq | done].
Qed.
End Router.

(** ** The handlers on the sample runs *)

Section Runs.
Import Demo.

(** C1. Socket 1 took the identity "1", then socket 2 took it and socket 1
    was told to close. When socket 1 reports its close, socket 2 is open,
    carries the identity and is the registered one; the handler removes
    the entry all the same, and the identity is left without a registered
    socket. *)
Theorem stale_close_unbinds_replacement :
  lookup "1" replaced = Some 2%nat ∧
  stateOf 1 replaced = Some CLOSING ∧
  stateOf 2 replaced = Some OPEN ∧
  identityOf 2 replaced = Some "1" ∧
  let s' := onClose stringify 1 103 replaced in
  stateOf 2 s' = Some OPEN ∧
  identityOf 2 s' = Some "1" ∧
  lookup "1" s' = None.
Proof. vm_compute. repeat split. Qed.

(** C4. In the same run the close of the replaced socket 1 marks user "1"
    offline in the store and sends the offline frame of "1" to the socket
    of user "2", although socket 2 still serves user "1". *)
Theorem eviction_close_marks_offline :
  userOnline "1" replaced = Some true ∧
  stateOf 2 replaced = Some OPEN ∧
  identityOf 2 replaced = Some "1" ∧
  let s' := onClose stringify 1 103 replaced in
  userOnline "1" s' = Some false ∧
  sentTo 0 s' = sentTo 0 replaced ++ [stringify (offlineMessage "1")] ∧
  stateOf 2 s' = Some OPEN.
Proof. vm_compute. repeat split. Qed.

(** C2. The sockets 0, 1 and 2 take the identity "1" one after the
    other, and the ['close'] of socket 0, which the second bind evicted,
    is handled before the third bind. That handler removes the entry of
    "1", which by then names socket 1; the third bind finds no entry and
    closes nothing. Sockets 1 and 2 are then both open and both carry
    the identity "1": the prior connection has not been closed, and two
    live connections are bound to one identity. *)
Theorem stale_close_leaves_two_live_connections :
  let s1 := run parse stringify server0
              [Connection; Frame 0 "status:1:0:online" 100;
               Connection; Frame 1 "status:1:0:online" 101] in
  let s2 := run parse stringify s1 [Close 0 102] in
  let s3 := run parse stringify s2 [Connection; Frame 2 "status:1:0:online" 103] in
  lookup "1" s1 = Some 1%nat ∧ closedAt 0 s1 ∧ stateOf 1 s1 = Some OPEN ∧
  lookup "1" s2 = None ∧ stateOf 1 s2 = Some OPEN ∧ identityOf 1 s2 = Some "1" ∧
  lookup "1" s3 = Some 2%nat ∧
  stateOf 1 s3 = Some OPEN ∧ identityOf 1 s3 = Some "1" ∧
  stateOf 2 s3 = Some OPEN ∧ identityOf 2 s3 = Some "1".
Proof. vm_compute. split_and!; try reflexivity. by left. Qed.

(** The close of the socket that is the registered one, for comparison:
    user "2" on socket 0 goes offline, the open socket of user "1" is told
    once, the entry is removed. *)
Lemma genuine_close_marks_offline :
  let s' := onClose stringify 0 103 replaced in
  userOnline "2" s' = Some false ∧
  sentTo 2 s' = sentTo 2 replaced ++ [stringify (offlineMessage "2")] ∧
  sentTo 1 s' = sentTo 1 replaced ∧
  lookup "2" s' = None ∧
  lookup "1" s' = Some 2%nat.
Proof. vm_compute. repeat split. Qed.

(** C3, against the claim as stated. The first frame of socket 1 is a text
    frame whose sender "9" is no user. It is delivered to the socket of
    its receiver, and socket 1 stays without identity. *)
Lemma text_frame_skips_validation :
  identityOf 1 withGuest = None ∧
  parse "text:9:2:hi" = Some (mkFrame TEXT "9" "2" (Some "hi") None) ∧
  getUser "9" (storage withGuest) = None ∧
  let s' := onMessage parse 1 "text:9:2:hi" 103 withGuest in
  sentTo 0 s' = sentTo 0 withGuest ++ ["text:9:2:hi"] ∧
  sentTo 0 s' ≠ sentTo 0 withGuest ∧
  identityOf 1 s' = None.
Proof. vm_compute. repeat split. discriminate. Qed.

(** C9, against the claim as stated. The receiver "2" is registered with
    an open socket, yet a typing frame from a socket without identity
    whose sender is unknown is not delivered; and one whose sender is
    known also changes the registry. *)
Lemma typing_frame_on_first_contact :
  lookup "2" withGuest = Some 0%nat ∧
  stateOf 0 withGuest = Some OPEN ∧
  parse "typing:9:2:typing" = Some (mkFrame TYPING "9" "2" (Some "typing") None) ∧
  sentTo 0 (onMessage parse 1 "typing:9:2:typing" 103 withGuest) = sentTo 0 withGuest ∧
  parse "typing:1:2:typing" = Some (mkFrame TYPING "1" "2" (Some "typing") None) ∧
  lookup "1" withGuest = None ∧
  lookup "1" (onMessage parse 1 "typing:1:2:typing" 103 withGuest) = Some 1%nat.
Proof. vm_compute. repeat split. Qed.

Lemma first_frame_validation_witness :
  let s' := onMessage parse 1 "status:1:0:online" 103 withGuest in
  lookup "1" s' = Some 1%nat ∧ identityOf 1 s' = Some "1".
Proof.
  intros s'.
  destruct (first_frame_validation parse 1 "status:1:0:online" 103
              (mkFrame STATUS "1" "0" (Some "online") None)
              (mkClient None true OPEN []) withGuest)
    as (_ & Hknown & _); [reflexivity | reflexivity | reflexivity |].
  apply Hknown; [discriminate|]. vm_compute. eauto.
Defined.

Lemma typing_frame_effect_witness :
  let s' := onMessage parse 2 "typing:1:2:typing" 103 replaced in
  storage s' = storage replaced ∧
  sentTo 0 s' = sentTo 0 replaced ++ ["typing:1:2:typing"].
Proof.
  intros s'.
  destruct (typing_frame_effect parse 2 "typing:1:2:typing" 103
              (mkFrame TYPING "1" "2" (Some "typing") None)
              (mkClient (Some "1") true OPEN []) replaced)
    as (Hstore & Hbound & _); [reflexivity | reflexivity | reflexivity |].
  split; [exact Hstore|].
  destruct (Hbound eq_refl) as (_ & _ & Hdeliver & _).
  destruct (Hdeliver 0%nat); [reflexivity | reflexivity |]. assumption.
Defined.
End Runs.

(** * Further properties of the store *)

Section UserFacts.
Context {Id : Type} `{JsId Id}.
Implicit Types (st : MemStorage Id) (u : User.t Id).

(** X1. On a well-formed store [createUser] hands out an identifier no
    user had, stores the user last and online, and [getUser] finds it
    under that identifier; every other identifier resolves as before and
    messages and conversations are untouched. *)
Theorem createUser_getUser (insertUser : InsertUser) (now : Z) (st : MemStorage Id) :
  wf st →
  let st' := (createUser insertUser now st).1 in
  let user := (createUser insertUser now st).2 in
  getUser (User.id user) st = None ∧
  getUser (User.id user) st' = Some user ∧
  (∀ k, k ≠ User.id user → getUser k st' = getUser k st) ∧
  JsMap.values (users st') = JsMap.values (users st) ++ [user] ∧
  User.isOnline user = true ∧
  User.createdAt user = now ∧ User.lastActive user = now ∧
  messages st' = messages st ∧ conversations st' = conversations st ∧
  wf st'.
Proof.
  intros Hwf st' user. pose proof Hwf as (Hu & _ & _).
  pose proof (keyed_fresh _ _ _ Hu) as Hfresh.
  split_and!; try done.
  - by apply get_None_keys.
  - apply get_set_eq.
  - intros k Hne. unfold getUser. simpl. by rewrite get_set_ne.
  - unfold st'. simpl. rewrite set_fresh by done. by rewrite values_app.
  - by apply wf_createUser.
Qed.

Lemma find_lower_spec {A} (field : A → string) (x : string) (l : list A) :
  List.find (λ a, bool_decide (Str.toLowerCase (field a) = Str.toLowerCase x)) l
  = head (filter (λ a, Str.toLowerCase (field a) = Str.toLowerCase x) l).
Proof. apply (find_head_filter (λ a, Str.toLowerCase (field a) = Str.toLowerCase x)). Qed.

Lemma find_lower_case {A} (field : A → string) (x x' : string) (l : list A) :
  Str.toLowerCase x' = Str.toLowerCase x →
  List.find (λ a, bool_decide (Str.toLowerCase (field a) = Str.toLowerCase x')) l
  = List.find (λ a, bool_decide (Str.toLowerCase (field a) = Str.toLowerCase x)) l.
Proof. intros Hx. by rewrite Hx. Qed.

Lemma head_filter_Some {A} (P : A → Prop) `{∀ x, Decision (P x)} (l : list A) a :
  head (filter P l) = Some a → a ∈ l ∧ P a.
Proof.
  intros Hh. assert (a ∈ filter P l) as Hin.
  { destruct (filter P l); [done|]. injection Hh as ->. apply elem_of_cons; by left. }
  apply list_elem_of_filter in Hin. tauto.
Qed.

Lemma head_filter_None {A} (P : A → Prop) `{∀ x, Decision (P x)} (l : list A) :
  head (filter P l) = None ↔ ∀ a, a ∈ l → ¬ P a.
Proof.
  split.
  - intros Hh a Hin Hp. assert (a ∈ filter P l) as Hf by (by apply list_elem_of_filter).
    destruct (filter P l); [by apply elem_of_nil in Hf | done].
  - intros Hno. destruct (filter P l) as [|a l'] eqn:Hf; [done|].
    assert (a ∈ filter P l) as Hin by (rewrite Hf; apply elem_of_cons; by left).
    apply list_elem_of_filter in Hin as [Hp Hin]. by destruct (Hno a Hin).
Qed.

Lemma find_ignoring_case {A} (field : A → string) (x : string) (l : list A) :
  List.find (λ a, bool_decide (Str.toLowerCase (field a) = Str.toLowerCase x)) l
  = head (filter (λ a, StrSpec.equalIgnoringCase (field a) x) l).
Proof.
  rewrite find_lower_spec. f_equal. apply list_filter_iff. intros a.
  apply toLowerCase_eq_iff.
Qed.

(** X2. [getUserByUsername] and [getUserByEmail] compare without regard
    to case: the result is the first stored user, in insertion order,
    whose user name (e-mail address) is the argument up to case, letter
    by letter; it is absent exactly when no stored user has such a name;
    and two arguments that are equal up to case give the same result. *)
Theorem getUserBy_case_insensitive (x : string) (st : MemStorage Id) :
  (getUserByUsername x st
     = head (filter (λ u, StrSpec.equalIgnoringCase (User.username u) x)
               (JsMap.values (users st))) ∧
   (∀ u, getUserByUsername x st = Some u →
         u ∈ JsMap.values (users st) ∧
         StrSpec.equalIgnoringCase (User.username u) x) ∧
   (getUserByUsername x st = None ↔
      ∀ u, u ∈ JsMap.values (users st) →
           ¬ StrSpec.equalIgnoringCase (User.username u) x) ∧
   (∀ x', StrSpec.equalIgnoringCase x' x →
          getUserByUsername x' st = getUserByUsername x st)) ∧
  (getUserByEmail x st
     = head (filter (λ u, StrSpec.equalIgnoringCase (User.email u) x)
               (JsMap.values (users st))) ∧
   (∀ u, getUserByEmail x st = Some u →
         u ∈ JsMap.values (users st) ∧
         StrSpec.equalIgnoringCase (User.email u) x) ∧
   (getUserByEmail x st = None ↔
      ∀ u, u ∈ JsMap.values (users st) →
           ¬ StrSpec.equalIgnoringCase (User.email u) x) ∧
   (∀ x', StrSpec.equalIgnoringCase x' x →
          getUserByEmail x' st = getUserByEmail x st)).
Proof.
  unfold getUserByUsername, getUserByEmail. split.
  - split_and!.
    + apply find_ignoring_case.
    + intros u Hu. rewrite (find_ignoring_case User.username) in Hu.
      by apply head_filter_Some in Hu.
    + rewrite (find_ignoring_case User.username). apply head_filter_None.
    + intros x' Hx%toLowerCase_eq_iff. by apply find_lower_case.
  - split_and!.
    + apply find_ignoring_case.
    + intros u Hu. rewrite (find_ignoring_case User.email) in Hu.
      by apply head_filter_Some in Hu.
    + rewrite (find_ignoring_case User.email). apply head_filter_None.
    + intros x' Hx%toLowerCase_eq_iff. by apply find_lower_case.
Qed.

(** X3. [updateUserStatus] for an unknown user changes nothing. For a
    stored user it sets [isOnline] and [lastActive] of that user and
    nothing else: the other fields of the user, the other users, the order
    of the user map, the messages, the conversations and the counters stay
    as they were. *)
Theorem updateUserStatus_frame (userId : Id) (isOnline : bool) (now : Z)
    (st : MemStorage Id) :
  let st' := updateUserStatus userId isOnline now st in
  (getUser userId st = None → st' = st) ∧
  (∀ user, getUser userId st = Some user →
     ∃ user', getUser userId st' = Some user' ∧
       User.isOnline user' = isOnline ∧ User.lastActive user' = now ∧
       User.id user' = User.id user ∧ User.name user' = User.name user ∧
       User.username user' = User.username user ∧ User.email user' = User.email user ∧
       User.password user' = User.password user ∧ User.avatar user' = User.avatar user ∧
       User.createdAt user' = User.createdAt user) ∧
  (∀ k, k ≠ userId → getUser k st' = getUser k st) ∧
  JsMap.keys (users st') = JsMap.keys (users st) ∧
  messages st' = messages st ∧ conversations st' = conversations st ∧
  currentUserId st' = currentUserId st ∧ currentMessageId st' = currentMessageId st ∧
  currentConversationId st' = currentConversationId st.
Proof.
  intros st'. unfold st', updateUserStatus.
  destruct (getUser userId st) as [user|] eqn:Hg.
  - split_and!; try done.
    + intros user0 [= <-]. eexists. split; [apply get_set_eq|]. done.
    + intros k Hne. unfold getUser. simpl. by rewrite get_set_ne.
    + simpl. apply keys_set_present. apply get_Some_elem in Hg.
      by apply (list_elem_of_fmap_2 fst) in Hg.
  - split_and!; done.
Qed.

Lemma wf_updateUser userId userData st : wf st → wf (updateUser userId userData st).1.
Proof.
  intros (Hu & Hm & Hc). unfold updateUser.
  destruct (getUser userId st) as [user|] eqn:Hg; [|done].
  split; [|split]; simpl; [|done|done].
  apply keyed_set_present; [done| |].
  - apply get_Some_elem in Hg. by apply (list_elem_of_fmap_2 fst) in Hg.
  - simpl. by eapply keyed_get.
Qed.

(** X4. [updateUser] throws for an unknown user and leaves the store as
    it is. For a stored user it overrides the fields the patch carries,
    except [id] and [createdAt], which keep their stored values whatever
    the patch says; the user stays under its identifier, and the other
    users, the messages and the conversations are untouched. *)
Theorem updateUser_keeps_identity (userId : Id) (userData : UserPatch Id)
    (st : MemStorage Id) :
  wf st →
  (getUser userId st = None →
     updateUser userId userData st = (st, Thrown "User not found")) ∧
  (∀ user, getUser userId st = Some user →
     let st' := (updateUser userId userData st).1 in
     (updateUser userId userData st).2 = Returned (patched user userData) ∧
     getUser userId st' = Some (patched user userData) ∧
     User.id (patched user userData) = userId ∧
     User.createdAt (patched user userData) = User.createdAt user ∧
     (∀ k, k ≠ userId → getUser k st' = getUser k st) ∧
     JsMap.keys (users st') = JsMap.keys (users st) ∧
     messages st' = messages st ∧ conversations st' = conversations st ∧
     wf st').
Proof.
  intros Hwf. split.
  - intros Hg. unfold updateUser. by rewrite Hg.
  - intros user Hg st'. pose proof (wf_updateUser userId userData st Hwf) as Hwf'.
    unfold st' in *. unfold updateUser in *. rewrite Hg in *. simpl in *.
    destruct Hwf as (Hu & _ & _).
    split_and!; try done.
    + apply get_set_eq.
    + by eapply keyed_get.
    + intros k Hne. unfold getUser. simpl. by rewrite get_set_ne.
    + apply keys_set_present. apply get_Some_elem in Hg.
      by apply (list_elem_of_fmap_2 fst) in Hg.
Qed.
End UserFacts.

Lemma createUser_getUser_witness :
  let st' := (createUser Demo.ann 40 (Demo.threeUsers (Id:=Z))).1 in
  getUser 4 Demo.threeUsers = None ∧
  getUser 4 st' = Some (User.mk Z 4 "Ann" "ann" "ann@x.io" "secret1" None 40 40 true).
Proof.
  intros st'.
  destruct (createUser_getUser Demo.ann 40 (Demo.threeUsers (Id:=Z)) wf_threeUsers)
    as (Hnone & Hsome & _).
  split; [exact Hnone | exact Hsome].
Defined.

Lemma getUserBy_case_insensitive_witness :
  getUserByUsername "ANN" (Demo.threeUsers (Id:=Z))
    = Some (User.mk Z 1 "Ann" "ann" "ann@x.io" "secret1" None 10 10 true) ∧
  getUserByEmail "Bob@X.IO" (Demo.threeUsers (Id:=Z))
    = Some (User.mk Z 2 "Bob" "bob" "bob@x.io" "secret2" None 20 20 true) ∧
  getUserByUsername "an" (Demo.threeUsers (Id:=Z)) = None.
Proof.
  destruct (getUserBy_case_insensitive "ANN" (Demo.threeUsers (Id:=Z)))
    as [(Hname & _) _].
  destruct (getUserBy_case_insensitive "Bob@X.IO" (Demo.threeUsers (Id:=Z)))
    as [_ (Hmail & _)].
  destruct (getUserBy_case_insensitive "an" (Demo.threeUsers (Id:=Z)))
    as [(Hnone & _) _].
  rewrite Hname, Hmail, Hnone. by vm_compute.
Defined.

Lemma updateUser_keeps_identity_witness :
  let userData := mkPatch (Some 7) (Some "Anna") None None None None (Some 0) None None in
  let st' := (updateUser 1 userData (Demo.threeUsers (Id:=Z))).1 in
  getUser 1 st' = Some (User.mk Z 1 "Anna" "ann" "ann@x.io" "secret1" None 10 10 true).
Proof.
  intros userData st'.
  destruct (updateUser_keeps_identity 1 userData (Demo.threeUsers (Id:=Z)) wf_threeUsers)
    as (_ & Hsome).
  destruct (Hsome (User.mk Z 1 "Ann" "ann" "ann@x.io" "secret1" None 10 10 true) eq_refl)
    as (_ & Hget & _).
  exact Hget.
Defined.

Section MessageFacts.
Context {Id : Type} `{JsId Id}.
Implicit Types (st : MemStorage Id) (m : Message.t Id).

(** X5. [createMessage] throws exactly when the sender or the receiver is
    undefined. The throw comes after the identifier counter was advanced:
    no message and no conversation is stored, yet the identifier is used
    up, so the next message skips it. *)
Theorem createMessage_undefined_party
    (content : string) (sender receiver : option Id) (now nowConv : Z)
    (st : MemStorage Id) :
  let ins := Build_InsertMessage Id content sender receiver in
  let st' := (createMessage ins now nowConv st).1 in
  ((sender = None ∨ receiver = None) ↔
     (createMessage ins now nowConv st).2
       = Thrown "senderId and receiverId must be defined") ∧
  ((sender = None ∨ receiver = None) →
     users st' = users st ∧ messages st' = messages st ∧
     conversations st' = conversations st ∧
     currentConversationId st' = currentConversationId st ∧
     currentMessageId st' = currentMessageId st + 1 ∧
     ∀ content' a b now' nowConv' message,
       (createMessage (Build_InsertMessage Id content' (Some a) (Some b)) now' nowConv' st').2
         = Returned message →
       Message.id message = ofCounter (currentMessageId st + 1)).
Proof.
  intros ins st'. split.
  - unfold ins, createMessage. simpl.
    destruct sender as [a|], receiver as [b|]; simpl; split; try done; auto.
    intros [?|?]; done.
  - intros Hund.
    assert (st' = mkStorage (users st) (messages st) (conversations st)
                    (currentUserId st) (currentMessageId st + 1)
                    (currentConversationId st)) as ->.
    { unfold st', ins, createMessage. simpl.
      destruct sender as [a|], receiver as [b|]; simpl; try done.
      destruct Hund; done. }
    split_and!; try done.
    intros content' a b now' nowConv' message. unfold createMessage. simpl.
    by intros [= <-].
Qed.

Lemma between_sym u o m : between u o m ↔ between o u m.
Proof. unfold between. tauto. Qed.

(** X6. The history of a pair does not depend on who asks:
    [getMessages(a, b)] and [getMessages(b, a)] are the same list. *)
Theorem getMessages_symmetric (a b : Id) (st : MemStorage Id) :
  getMessages a b st = getMessages b a st.
Proof.
  unfold getMessages. f_equal. apply list_filter_iff. intros m. apply between_sym.
Qed.

Lemma sort_insert_last (cmp : Message.t Id → Message.t Id → Z) x l :
  sort_insert cmp x l ≡ₚ l ++ [x].
Proof. rewrite sort_insert_perm. by rewrite Permutation_app_comm. Qed.

(** X7. On a well-formed store a successful [createMessage] returns the
    message it stored: identifier taken from the counter, the given
    content, sender and receiver, the given instant, unread. The history
    of the pair, asked from either side, is the old history and this
    message; the history of every other pair is what it was. *)
Theorem createMessage_in_history
    (A B : Id) (content : string) (now nowConv : Z) (st : MemStorage Id) :
  wf st →
  let msg := Message.mk Id (ofCounter (currentMessageId st)) content A B now false in
  let st1 := (createMessage (Build_InsertMessage Id content (Some A) (Some B)) now nowConv st).1 in
  (createMessage (Build_InsertMessage Id content (Some A) (Some B)) now nowConv st).2
    = Returned msg ∧
  JsMap.get (Message.id msg) (messages st) = None ∧
  JsMap.get (Message.id msg) (messages st1) = Some msg ∧
  getMessages A B st1 ≡ₚ msg :: getMessages A B st ∧
  getMessages B A st1 ≡ₚ msg :: getMessages B A st ∧
  (∀ x y, ¬ between x y msg → getMessages x y st1 = getMessages x y st).
Proof.
  intros Hwf msg st1.
  destruct (createMessage_wf A B content now nowConv st Hwf) as (Hwf1 & _ & Hmsgs & _).
  fold st1 in Hwf1, Hmsgs. fold msg in Hmsgs. destruct Hwf as (_ & Hm & _).
  assert (∀ x y, getMessages x y st1
                 = sort byTimestamp (filter (between x y) (JsMap.values (messages st))
                                     ++ filter (between x y) [msg])) as Hhist.
  { intros x y. unfold getMessages. by rewrite Hmsgs, values_app, filter_app. }
  assert (getMessages A B st1 ≡ₚ msg :: getMessages A B st) as HAB.
  { rewrite Hhist. rewrite filter_cons_True by (by left). rewrite filter_nil.
    rewrite sort_perm. unfold getMessages. rewrite sort_perm.
    by rewrite Permutation_app_comm. }
  split_and!; try done.
  - apply get_None_keys. by apply (keyed_fresh Message.id).
  - rewrite Hmsgs. destruct Hwf1 as (_ & (Hnd & _ & _) & _). rewrite Hmsgs in Hnd.
    apply elem_get_Some; [done|]. apply elem_of_app; right. apply elem_of_cons; by left.
  - rewrite Hhist. rewrite filter_cons_True by (by right). rewrite filter_nil.
    rewrite sort_perm. unfold getMessages. rewrite sort_perm.
    by rewrite Permutation_app_comm.
  - intros x y Hno. rewrite Hhist. rewrite filter_cons_False by done.
    rewrite filter_nil. by rewrite app_nil_r.
Qed.

Lemma filter_unread_readBy_other u o u' o' (l : list (Message.t Id)) :
  (u', o') ≠ (u, o) →
  length (filter (unreadFrom u' o') (readBy u o <$> l))
  = length (filter (unreadFrom u' o') l).
Proof.
  intros Hne. induction l as [|m l IH]; [done|].
  rewrite fmap_cons. unfold readBy at 1.
  destruct (decide (unreadFrom u o m)) as [Hu|Hn].
  - assert (¬ unreadFrom u' o' m) as Hn'.
    { intros (Hs' & Hr' & _). destruct Hu as (Hs & Hr & _). congruence. }
    rewrite (filter_cons_False _ m) by done.
    rewrite filter_cons_False; [done|]. intros (_ & _ & ?). done.
  - rewrite !filter_cons. destruct (decide (unreadFrom u' o' m)); [|done].
    rewrite !length_cons. by rewrite IH.
Qed.

(** X8. [markMessagesAsRead(viewer, other)] clears one direction of one
    pair only: on a well-formed store the unread count of every other
    (viewer, sender) combination, the opposite direction included, is what
    it was. *)
Theorem markMessagesAsRead_other_counts (viewer other : Id) (st : MemStorage Id) :
  wf st →
  ∀ viewer' other', (viewer', other') ≠ (viewer, other) →
    countUnread viewer' other' (markMessagesAsRead viewer other st)
    = countUnread viewer' other' st.
Proof.
  intros Hwf viewer' other' Hne. unfold countUnread.
  rewrite markMessagesAsRead_eq by done. simpl.
  rewrite values_readEntry. by apply filter_unread_readBy_other.
Qed.

(** X9. On a well-formed store a message from [A] to [B] raises the
    number of messages [B] has unread from [A] by exactly one and changes
    no other unread count. *)
Theorem createMessage_unread_count
    (A B : Id) (content : string) (now nowConv : Z) (st : MemStorage Id) :
  wf st →
  let st1 := (createMessage (Build_InsertMessage Id content (Some A) (Some B)) now nowConv st).1 in
  countUnread B A st1 = S (countUnread B A st) ∧
  ∀ viewer sender, (viewer, sender) ≠ (B, A) →
    countUnread viewer sender st1 = countUnread viewer sender st.
Proof.
  intros Hwf st1.
  destruct (createMessage_wf A B content now nowConv st Hwf) as (_ & _ & Hmsgs & _).
  fold st1 in Hmsgs. unfold countUnread. rewrite Hmsgs. split.
  - rewrite values_app, filter_app, length_app. unfold JsMap.values at 2. simpl.
    rewrite filter_cons_True by done. simpl. lia.
  - intros viewer sender Hne. rewrite values_app, filter_app, length_app.
    unfold JsMap.values at 2. simpl. rewrite filter_cons_False; [simpl; lia|].
    intros (Hs & Hr & _). simpl in *. congruence.
Qed.

(** X10. The unread count of the listing and the history agree: the count
    for a viewer and another user is the number of messages in
    [getMessages] of the two that the other user sent to the viewer and
    that are unread, and this is the count every listing entry carries. *)
Theorem unread_count_matches_history (viewer other : Id) (st : MemStorage Id) :
  countUnread viewer other st
    = length (filter (unreadFrom viewer other) (getMessages viewer other st)) ∧
  ∀ e, e ∈ getConversations viewer st →
       unreadCount e
       = length (filter (unreadFrom viewer (otherOf viewer (conv e)))
                   (getMessages viewer (otherOf viewer (conv e)) st)).
Proof.
  assert (∀ o, countUnread viewer o st
               = length (filter (unreadFrom viewer o) (getMessages viewer o st))) as Hc.
  { intros o. unfold countUnread, getMessages. rewrite sort_perm.
    rewrite list_filter_filter. f_equal. apply list_filter_iff.
    intros m. unfold unreadFrom, between. tauto. }
  split; [apply Hc|].
  intros e He. apply elem_of_getConversations in He as (c & _ & _ & He).
  apply entryOf_Some in He as (<- & _ & ->). apply Hc.
Qed.
End MessageFacts.

Lemma createMessage_in_history_witness :
  let st1 := (createMessage (Demo.text "hi" 1 2) 50 51 (Demo.threeUsers (Id:=Z))).1 in
  getMessages 1 2 st1 ≡ₚ [Message.mk Z 1 "hi" 1 2 50 false].
Proof.
  intros st1.
  destruct (createMessage_in_history 1 2 "hi" 50 51 (Demo.threeUsers (Id:=Z)) wf_threeUsers)
    as (_ & _ & _ & Hperm & _).
  exact Hperm.
Defined.

Lemma markMessagesAsRead_other_counts_witness :
  let st2 := (createMessage (Demo.text "yo" 2 1) 60 61
                (createMessage (Demo.text "hi" 1 2) 50 51 (Demo.threeUsers (Id:=Z))).1).1 in
  countUnread 1 2 st2 = 1%nat ∧
  countUnread 1 2 (markMessagesAsRead 1 2 st2) = 0%nat ∧
  markMessagesAsRead 1 2 st2 ≠ st2 ∧
  countUnread 2 1 st2 = 1%nat ∧
  countUnread 2 1 (markMessagesAsRead 1 2 st2) = 1%nat.
Proof.
  intros st2.
  assert (st2 = runOps (Id:=Z)
    [OpCreateUser Demo.ann 10; OpCreateUser Demo.bob 20; OpCreateUser Demo.cy 30;
     OpCreateMessage (Demo.text "hi" 1 2) 50 51;
     OpCreateMessage (Demo.text "yo" 2 1) 60 61]) as Hst by (vm_compute; reflexivity).
  split_and!; [reflexivity|reflexivity|discriminate|reflexivity|].
  rewrite (markMessagesAsRead_other_counts 1 2 st2); [reflexivity| |discriminate].
  rewrite Hst. apply runOps_consistent.
Defined.

Lemma createMessage_unread_count_witness :
  let st1 := (createMessage (Demo.text "hi" 1 2) 50 51 (Demo.threeUsers (Id:=Z))).1 in
  countUnread 2 1 st1 = 1%nat.
Proof.
  intros st1.
  destruct (createMessage_unread_count 1 2 "hi" 50 51 (Demo.threeUsers (Id:=Z)) wf_threeUsers)
    as [Hone _].
  exact Hone.
Defined.

Section ListingFacts.
Context {Id : Type} `{JsId Id}.
Implicit Types (st : MemStorage Id) (c : Conversation.t Id) (e : ConversationEntry Id).

Lemma byUpdatedAtDesc_total (a b : ConversationEntry Id) :
  byUpdatedAtDesc a b ≤ 0 ∨ byUpdatedAtDesc b a ≤ 0.
Proof. unfold byUpdatedAtDesc. lia. Qed.

Lemma length_omap_le {A B} (f : A → option B) (l : list A) :
  (length (omap f l) ≤ length l)%nat.
Proof.
  induction l as [|a l IH]; simpl; [lia|].
  unfold omap in IH. destruct (f a); simpl; lia.
Qed.

Lemma involves_samePair u c : involves u c → samePair u (otherOf u c) c.
Proof.
  unfold involves, samePair, otherOf. intros Hinv.
  destruct (decide (Conversation.user1Id c = u)); [by left|].
  right. by destruct Hinv.
Qed.

(** X11. [getConversations(userId)] lists, most recently updated first, one
    entry for each stored conversation that has [userId] as a participant
    and whose other participant is a stored user: every entry is such a
    conversation with that user attached, every such conversation has its
    entry, and conversations whose other participant is unknown are left
    out. *)
Theorem getConversations_listing (userId : Id) (st : MemStorage Id) :
  StronglySorted
    (λ a b, Conversation.updatedAt (conv b) ≤ Conversation.updatedAt (conv a))
    (getConversations userId st) ∧
  (∀ e, e ∈ getConversations userId st →
        conv e ∈ JsMap.values (conversations st) ∧
        involves userId (conv e) ∧
        getUser (otherOf userId (conv e)) st = Some (otherUser e)) ∧
  (∀ c, c ∈ JsMap.values (conversations st) → involves userId c →
        is_Some (getUser (otherOf userId c) st) →
        ∃ e, e ∈ getConversations userId st ∧ conv e = c) ∧
  (∀ c, c ∈ JsMap.values (conversations st) →
        getUser (otherOf userId c) st = None →
        ∀ e, e ∈ getConversations userId st → conv e ≠ c) ∧
  (length (getConversations userId st) ≤ length (conversations st))%nat.
Proof.
  split_and!.
  - apply Sorted_StronglySorted.
    + intros a b c. lia.
    + pose proof (sort_sorted byUpdatedAtDesc byUpdatedAtDesc_total
                    (omap (λ item, item)
                       (map (entryOf userId st)
                          (filter (involves userId) (JsMap.values (conversations st))))))
        as Hs.
      change (Sorted (inOrder byUpdatedAtDesc) (getConversations userId st)) in Hs.
      induction Hs as [|a l Hs IH Hhd]; constructor; [done|].
      destruct Hhd as [|b l Hab]; constructor.
      unfold inOrder, byUpdatedAtDesc in Hab. lia.
  - intros e He. apply elem_of_getConversations in He as (c & Hin & Hinv & He).
    apply entryOf_Some in He as (<- & Hg & _). done.
  - intros c Hin Hinv [usr Husr].
    destruct (entryOf userId st c) as [e|] eqn:He.
    + exists e. split; [apply elem_of_getConversations; by exists c|].
      by apply entryOf_Some in He as (-> & _).
    + unfold entryOf in He. by rewrite Husr in He.
  - intros c Hin Hnone e He <-.
    apply elem_of_getConversations in He as (c & _ & _ & He).
    apply entryOf_Some in He as (<- & Hg & _). congruence.
  - unfold getConversations. rewrite length_sort.
    etrans; [apply length_omap_le|]. rewrite length_map.
    etrans; [apply length_filter|]. unfold JsMap.values. by rewrite length_map.
Qed.

Lemma listing_raw_NoDup u st (vals : list (Conversation.t Id)) :
  (∀ a b, (length (filter (samePair a b) vals) ≤ 1)%nat) →
  NoDup ((λ e, otherOf u (conv e))
         <$> omap (λ item, item) (entryOf u st <$> filter (involves u) vals)).
Proof.
  induction vals as [|c vals IH]; intros Hone; [apply NoDup_nil_2|].
  assert (∀ a b, (length (filter (samePair a b) vals) ≤ 1)%nat) as Hone'.
  { intros a b. specialize (Hone a b). rewrite filter_cons in Hone.
    destruct (decide (samePair a b c)); simpl in Hone; lia. }
  specialize (IH Hone'). rewrite filter_cons.
  destruct (decide (involves u c)) as [Hinv|]; [|done].
  rewrite fmap_cons. simpl. destruct (entryOf u st c) as [e|] eqn:He; [|done].
  rewrite fmap_cons. apply NoDup_cons. split; [|done].
  apply entryOf_Some in He as (Hce & _). rewrite Hce.
  intros Hin. apply list_elem_of_fmap in Hin as (e' & Heq & Hin).
  apply list_elem_of_omap in Hin as (oe & Hin & ->).
  apply list_elem_of_fmap in Hin as (c' & Hc' & Hin).
  symmetry in Hc'. apply entryOf_Some in Hc' as (Hce' & _). rewrite Hce' in Heq.
  apply list_elem_of_filter in Hin as [Hinv' Hin].
  pose proof (involves_samePair u c Hinv) as Hp.
  pose proof (involves_samePair u c' Hinv') as Hp'. rewrite <- Heq in Hp'.
  specialize (Hone u (otherOf u c)). rewrite filter_cons_True in Hone by done.
  assert (c' ∈ filter (samePair u (otherOf u c)) vals) as Hf
    by (by apply list_elem_of_filter).
  destruct (filter (samePair u (otherOf u c)) vals);
    [by apply elem_of_nil in Hf | simpl in Hone; lia].
Qed.

(** X12. One row per contact: on a well-formed store with at most one
    conversation record per pair, no two entries of a user's listing have
    the same other participant. *)
Theorem getConversations_one_per_contact (userId : Id) (st : MemStorage Id) :
  wf st → onePerPair st →
  NoDup ((λ e, User.id (otherUser e)) <$> getConversations userId st).
Proof.
  intros Hwf Hone.
  assert ((λ e, User.id (otherUser e)) <$> getConversations userId st
          = (λ e, otherOf userId (conv e)) <$> getConversations userId st) as ->.
  { apply list_fmap_ext. intros i e He. apply list_elem_of_lookup_2 in He.
    exact (listing_otherUser userId st e Hwf He). }
  unfold getConversations. rewrite sort_perm.
  apply (listing_raw_NoDup userId st). exact Hone.
Qed.

Lemma createMessage_get_new A B content now nowConv st :
  wf st →
  JsMap.get (ofCounter (currentMessageId st))
    (messages (createMessage (Build_InsertMessage Id content (Some A) (Some B))
                 now nowConv st).1)
  = Some (Message.mk Id (ofCounter (currentMessageId st)) content A B now false).
Proof.
  intros Hwf.
  destruct (createMessage_wf A B content now nowConv st Hwf) as (Hwf1 & _ & Hmsgs & _).
  destruct Hwf1 as (_ & (Hnd & _ & _) & _). rewrite Hmsgs in Hnd |- *.
  apply elem_get_Some; [done|]. apply elem_of_app; right. apply elem_of_cons; by left.
Qed.

(** X13. The newest message is the one a listing shows: after a
    successful [createMessage] between [A] and [B] on a well-formed store
    with at most one record per pair, every listing entry of the pair, for
    either participant, has the new message as [lastMessage] and the
    instant of the call as [updatedAt] (the identifier taken from the
    counter being truthy, as any counter value but 0 is). *)
Theorem createMessage_last_message
    (A B : Id) (content : string) (now nowConv : Z) (st : MemStorage Id) :
  wf st → onePerPair st →
  idTruthy (ofCounter (currentMessageId st)) = true →
  let msg := Message.mk Id (ofCounter (currentMessageId st)) content A B now false in
  let st1 := (createMessage (Build_InsertMessage Id content (Some A) (Some B)) now nowConv st).1 in
  ∀ viewer e, e ∈ getConversations viewer st1 → samePair A B (conv e) →
    lastMessage e = Some msg ∧
    Conversation.lastMessageId (conv e) = Some (Message.id msg) ∧
    Conversation.updatedAt (conv e) = nowConv.
Proof.
  intros Hwf Hone Htruthy msg st1 viewer e He Hpair.
  pose proof (createMessage_get_new A B content now nowConv st Hwf) as Hget.
  fold st1 msg in Hget.
  assert (∃ r, conversationsOf A B st1 = [r] ∧
               Conversation.lastMessageId r = Some (ofCounter (currentMessageId st)) ∧
               Conversation.updatedAt r = nowConv) as (r & Hof & Hlast & Hupd).
  { unfold st1, createMessage. simpl.
    set (st2 := mkStorage (users st) _ (conversations st) _ _ _).
    assert (wf st2) as Hwf2.
    { destruct Hwf as (? & ? & ?). split; [done|split; [|done]]. simpl.
      by apply keyed_set_fresh. }
    destruct (createOrUpdateConversation_spec A B (ofCounter (currentMessageId st))
                nowConv st2 Hwf2 Hone) as (_ & _ & _ & _ & _ & _ & Hof & Hlast & _).
    eexists. split; [exact Hof|]. split; [exact Hlast|].
    unfold createOrUpdateConversation. by destruct (getConversation A B st2). }
  apply elem_of_getConversations in He as (c & Hin & _ & He).
  pose proof He as He'. apply entryOf_Some in He' as (Hce & _). subst c.
  assert (conv e ∈ conversationsOf A B st1) as Hmem by (by apply list_elem_of_filter).
  rewrite Hof in Hmem. apply list_elem_of_singleton in Hmem.
  split_and!; [|by rewrite Hmem|by rewrite Hmem].
  unfold entryOf in He. destruct (getUser _ st1); [|done]. injection He as <-.
  simpl. rewrite Hmem, Hlast, Htruthy. exact Hget.
Qed.
End ListingFacts.

Lemma getConversations_one_per_contact_witness :
  let st := (createMessage (Demo.text "yo" 3 1) 60 61
               (createMessage (Demo.text "hi" 1 2) 50 51 (Demo.threeUsers (Id:=Z))).1).1 in
  NoDup ((λ e, User.id (otherUser e)) <$> getConversations 1 st).
Proof.
  intros st.
  assert (st = runOps (Id:=Z)
    [OpCreateUser Demo.ann 10; OpCreateUser Demo.bob 20; OpCreateUser Demo.cy 30;
     OpCreateMessage (Demo.text "hi" 1 2) 50 51;
     OpCreateMessage (Demo.text "yo" 3 1) 60 61]) as Hst by (vm_compute; reflexivity).
  rewrite Hst.
  destruct (runOps_consistent (Id:=Z)
    [OpCreateUser Demo.ann 10; OpCreateUser Demo.bob 20; OpCreateUser Demo.cy 30;
     OpCreateMessage (Demo.text "hi" 1 2) 50 51;
     OpCreateMessage (Demo.text "yo" 3 1) 60 61]) as [Hwf Hone].
  exact (getConversations_one_per_contact 1 _ Hwf Hone).
Defined.

Lemma createMessage_last_message_witness :
  let st1 := (createMessage (Demo.text "hi" 1 2) 50 51 (Demo.threeUsers (Id:=Z))).1 in
  length (getConversations 2 st1) = 1%nat ∧
  Forall (λ e, lastMessage e = Some (Message.mk Z 1 "hi" 1 2 50 false))
    (getConversations 2 st1).
Proof.
  intros st1. split; [reflexivity|].
  apply Forall_forall. intros e He.
  refine (proj1 (createMessage_last_message 1 2 "hi" 50 51 (Demo.threeUsers (Id:=Z))
                   wf_threeUsers _ _ 2 e He _)).
  - apply onePerPair_no_conversation. reflexivity.
  - reflexivity.
  - assert (∃ e0, getConversations 2 st1 = [e0] ∧ samePair 1 2 (conv e0))
      as (e0 & Hlist & Hpair).
    { eexists. split; [vm_compute; reflexivity|]. vm_compute. by left. }
    rewrite Hlist in He. apply list_elem_of_singleton in He. by subst e.
Defined.

(** ** The routes *)

Section MessageRouteFacts.
Implicit Types (st : MemStorage string).

(** X14. [POST /api/messages] answers 201, 400 or 404, never 500. The
    stored message always has the session user as sender: a [senderId] in
    the body is overwritten before parsing. A content or receiver that is
    not a string gives 400 and a receiver that is no user gives 404, both
    with the store unchanged; otherwise the message is created and sent
    back. *)
Theorem postMessage_spec (sessionUserId : string) (body : MessageBody)
    (now nowConv : Z) (st : MemStorage string) :
  (∀ c r, mb_content body = JString c → mb_receiverId body = JString r →
     is_Some (getUser r st) →
     postMessage sessionUserId body now nowConv st
     = ((createMessage (Build_InsertMessage string c (Some sessionUserId) (Some r))
           now nowConv st).1,
        Json 201 (MessageCreated
                    (Message.mk string (ofCounter (currentMessageId st)) c
                       sessionUserId r now false)))) ∧
  (∀ c r, mb_content body = JString c → mb_receiverId body = JString r →
     getUser r st = None →
     postMessage sessionUserId body now nowConv st = (st, Send 404 "Receiver not found")) ∧
  ((∀ c, mb_content body ≠ JString c) ∨ (∀ r, mb_receiverId body ≠ JString r) →
     ∃ paths, paths ≠ [] ∧
       postMessage sessionUserId body now nowConv st
       = (st, Json 400 (ValidationFailed paths))) ∧
  (∀ senderId',
     postMessage sessionUserId
       (mkBody (mb_content body) senderId' (mb_receiverId body)) now nowConv st
     = postMessage sessionUserId body now nowConv st) ∧
  (∀ st' text, postMessage sessionUserId body now nowConv st ≠ (st', Send 500 text)).
Proof.
  unfold postMessage. split_and!.
  - intros c r -> -> [usr Husr]. simpl. by rewrite Husr.
  - intros c r -> -> Hnone. simpl. by rewrite Hnone.
  - intros Hbad. destruct (mb_content body) as [| |b|n|c] eqn:Hc;
      destruct (mb_receiverId body) as [| |b'|n'|r] eqn:Hr; simpl;
      try (eexists; split; [|reflexivity]; discriminate).
    destruct Hbad as [Hbad|Hbad]; [by destruct (Hbad c) | by destruct (Hbad r)].
  - done.
  - intros st' text.
    destruct (mb_content body); destruct (mb_receiverId body); simpl; try done.
    destruct (getUser s0 st); simpl; done.
Qed.

(** X15. [POST /api/messages/read/:conversationId] never looks at the
    conversation in its path: it marks by the [otherUserId] of the body.
    A falsy [otherUserId] gives 400 with the store unchanged; a user
    identifier gives 200 and, on a well-formed store, leaves the session
    user with no unread message from that user and every other unread
    count as it was; calling it again changes nothing more. *)
Theorem postMessagesRead_spec (sessionUserId conversationId : string)
    (otherUserId : JsValue) (st : MemStorage string) :
  wf st →
  (∀ conversationId',
     postMessagesRead sessionUserId conversationId' otherUserId st
     = postMessagesRead sessionUserId conversationId otherUserId st) ∧
  (jsTruthy otherUserId = false →
     postMessagesRead sessionUserId conversationId otherUserId st
     = (st, Send 400 "Missing otherUserId parameter")) ∧
  (∀ o, otherUserId = JString o → Str.truthy o = true →
     let st' := (postMessagesRead sessionUserId conversationId otherUserId st).1 in
     (postMessagesRead sessionUserId conversationId otherUserId st).2 = Json 200 true ∧
     st' = markMessagesAsRead sessionUserId o st ∧
     countUnread sessionUserId o st' = 0%nat ∧
     (∀ viewer sender, (viewer, sender) ≠ (sessionUserId, o) →
        countUnread viewer sender st' = countUnread viewer sender st) ∧
     (postMessagesRead sessionUserId conversationId otherUserId st').1 = st').
Proof.
  intros Hwf. unfold postMessagesRead. split_and!.
  - done.
  - by intros ->.
  - intros o -> Ht. simpl. rewrite Ht. simpl.
    pose proof (wf_markMessagesAsRead sessionUserId o st Hwf) as Hwf1.
    split_and!; try done.
    + apply countUnread_markMessagesAsRead. by destruct Hwf as (_ & ? & _).
    + intros viewer sender Hne. unfold countUnread.
      rewrite markMessagesAsRead_eq by done. simpl.
      rewrite values_readEntry. by apply filter_unread_readBy_other.
    + rewrite (markMessagesAsRead_eq sessionUserId o _ Hwf1).
      rewrite (markMessagesAsRead_eq sessionUserId o st Hwf). simpl.
      f_equal. rewrite <- list_fmap_compose. apply list_fmap_ext.
      intros i [k m] _. unfold readEntry. simpl. by rewrite readBy_idem.
Qed.
End MessageRouteFacts.

Lemma postMessagesRead_spec_witness :
  let st := (createMessage (Demo.text "hi" "1" "2") 50 51 (Demo.threeUsers (Id:=string))).1 in
  (postMessagesRead "2" "77" (JString "1") st).2 = Json 200 true ∧
  countUnread "2" "1" (postMessagesRead "2" "77" (JString "1") st).1 = 0%nat.
Proof.
  intros st.
  assert (wf st) as Hwf
    by apply (createMessage_wf "1" "2" "hi" 50 51 Demo.threeUsers wf_threeUsers).
  destruct (postMessagesRead_spec "2" "77" (JString "1") st Hwf) as (_ & _ & Hok).
  destruct (Hok "1" eq_refl eq_refl) as (Hstatus & _ & Hzero & _).
  split; [exact Hstatus | exact Hzero].
Defined.

Section JsMapMore.
Context {K V : Type} `{EqDecision K}.

Lemma elem_of_set_NoDup (k : K) (v : V) (m : list (K * V)) kv :
  NoDup (JsMap.keys m) → kv ∈ JsMap.set k v m →
  kv = (k, v) ∨ (kv ∈ m ∧ kv.1 ≠ k).
Proof.
  induction m as [|[k' v'] m IH]; simpl; intros Hnd Hin.
  - apply list_elem_of_singleton in Hin. by left.
  - apply NoDup_cons in Hnd as [Hk' Hnd].
    destruct (decide (k' = k)) as [->|Hne].
    + apply elem_of_cons in Hin as [->|Hin]; [by left|]. right. split.
      * apply elem_of_cons; by right.
      * intros <-. apply Hk'. by apply (list_elem_of_fmap_2 fst) in Hin.
    + apply elem_of_cons in Hin as [->|Hin].
      * right. split; [apply elem_of_cons; by left | done].
      * destruct (IH Hnd Hin) as [->|[Hin' Hne']]; [by left|].
        right. split; [apply elem_of_cons; by right | done].
Qed.
End JsMapMore.

Section AccountFacts.
Context {Id : Type} `{JsId Id}.
Implicit Types (st : MemStorage Id) (u v : User.t Id).

Lemma toLowerCase_empty s : Str.toLowerCase s = EmptyString → s = EmptyString.
Proof. by destruct s. Qed.

Lemma truthy_lower s t :
  Str.toLowerCase s = Str.toLowerCase t → Str.truthy s = true → Str.truthy t = true.
Proof.
  intros Heq Hs. destruct t; [|done]. simpl in Heq.
  apply toLowerCase_empty in Heq. by subst.
Qed.

Lemma uniqueBy_lower (field : User.t Id → string) st :
  uniqueBy field st ↔ uniqueLower field st.
Proof.
  split; intros Hu u v Hin Hin' Ht Heq; apply (Hu u v); try done;
    by apply toLowerCase_eq_iff.
Qed.

(** The users of a store after one of them was overwritten. *)
Lemma users_after_set userId upd st u :
  wf st →
  u ∈ JsMap.values (JsMap.set userId upd (users st)) →
  u = upd ∨ (u ∈ JsMap.values (users st) ∧ User.id u ≠ userId).
Proof.
  intros ((Hnd & Hids & _) & _ & _) Hin. unfold JsMap.values in Hin.
  apply list_elem_of_fmap in Hin as ([k x] & -> & Hin). simpl.
  apply elem_of_set_NoDup in Hin as [[= -> ->]|[Hin Hne]]; [by left| |done].
  right. split; [by apply (list_elem_of_fmap_2 snd) in Hin|].
  simpl in Hne. by rewrite (Hids _ _ Hin).
Qed.

Lemma uniqueLower_update (field : User.t Id → string) userId user upd st :
  wf st → getUser userId st = Some user → User.id upd = userId →
  uniqueLower field st →
  (field upd = field user ∨ Str.truthy (field upd) = false ∨
   ∀ v, v ∈ JsMap.values (users st) →
        Str.toLowerCase (field v) = Str.toLowerCase (field upd) → User.id v = userId) →
  uniqueLower field
    (mkStorage (JsMap.set userId upd (users st)) (messages st) (conversations st)
       (currentUserId st) (currentMessageId st) (currentConversationId st)).
Proof.
  intros Hwf Hg Hid Huniq Hcond u v Hu Hv Ht Heq. simpl in Hu, Hv.
  assert (user ∈ JsMap.values (users st)) as Huser.
  { apply get_Some_elem in Hg. by apply (list_elem_of_fmap_2 snd) in Hg. }
  assert (User.id user = userId) as Hiduser.
  { destruct Hwf as (Hk & _ & _). by eapply keyed_get. }
  apply (users_after_set userId upd st u Hwf) in Hu as [->|[Hu Hnu]];
    apply (users_after_set userId upd st v Hwf) in Hv as [->|[Hv Hnv]].
  - done.
  - rewrite Hid. destruct Hcond as [Hsame|[Hfalsy|Hall]].
    + rewrite Hsame in Ht, Heq. rewrite <- Hiduser. by apply Huniq.
    + congruence.
    + symmetry. by apply Hall.
  - rewrite Hid. destruct Hcond as [Hsame|[Hfalsy|Hall]].
    + rewrite Hsame in Heq. rewrite <- Hiduser. by apply Huniq.
    + pose proof (truthy_lower _ _ Heq Ht). congruence.
    + by apply Hall.
  - by apply Huniq.
Qed.

(** What the check of the profile route establishes for one field. *)
Lemma takenByOther_false (field : User.t Id → string)
    (lookup : string → MemStorage Id → option (User.t Id)) value userId user st :
  (∀ x st, lookup x st
           = List.find (λ u, bool_decide (Str.toLowerCase (field u) = Str.toLowerCase x))
               (JsMap.values (users st))) →
  uniqueLower field st →
  takenByOther lookup value userId st = false →
  default (field user) value = field user ∨
  Str.truthy (default (field user) value) = false ∨
  ∀ v, v ∈ JsMap.values (users st) →
       Str.toLowerCase (field v) = Str.toLowerCase (default (field user) value) →
       User.id v = userId.
Proof.
  intros Hlookup Huniq Hchk. destruct value as [x|]; [|by left]. simpl in *.
  destruct (Str.truthy x) eqn:Hx; [|by right; left]. right. right.
  intros v Hv Heq. rewrite Hlookup, (find_lower_spec field) in Hchk.
  destruct (head _) as [existing|] eqn:Hhead.
  - apply bool_decide_eq_false in Hchk. apply dec_stable in Hchk.
    apply head_filter_Some in Hhead as [Hex Hlow]. rewrite <- Hchk.
    symmetry. apply Huniq; [done|done| |congruence].
    symmetry in Hlow. by apply (truthy_lower _ _ Hlow).
  - destruct (proj1 (head_filter_None _ _) Hhead v Hv Heq).
Qed.

(** And what it answers when another user has the value. *)
Lemma takenByOther_true (field : User.t Id → string)
    (lookup : string → MemStorage Id → option (User.t Id)) x userId other st :
  (∀ x st, lookup x st
           = List.find (λ u, bool_decide (Str.toLowerCase (field u) = Str.toLowerCase x))
               (JsMap.values (users st))) →
  uniqueLower field st →
  Str.truthy x = true →
  other ∈ JsMap.values (users st) →
  Str.toLowerCase (field other) = Str.toLowerCase x →
  User.id other ≠ userId →
  takenByOther lookup (Some x) userId st = true.
Proof.
  intros Hlookup Huniq Hx Hin Hlow Hne. unfold takenByOther. rewrite Hx, Hlookup.
  rewrite (find_lower_spec field).
  destruct (head _) as [existing|] eqn:Hhead.
  - apply head_filter_Some in Hhead as [Hex Hlow'].
    apply bool_decide_eq_true. intros Hid. apply Hne. rewrite <- Hid.
    apply Huniq; [done|done| |congruence].
    symmetry in Hlow. by apply (truthy_lower _ _ Hlow).
  - destruct (proj1 (head_filter_None _ _) Hhead other Hin Hlow).
Qed.

Lemma patchProfile_lower (userId : Id) (body : UserPatch Id) (st : MemStorage Id) :
  wf st → uniqueLower User.username st → uniqueLower User.email st →
  let st' := (patchProfile userId body st).1 in
  wf st' ∧ uniqueLower User.username st' ∧ uniqueLower User.email st' ∧
  (∀ message, (patchProfile userId body st).2 = Json 400 (Rejected message) → st' = st) ∧
  (∀ user, getUser userId st = Some user →
     ∃ user', getUser userId st' = Some user' ∧
              User.id user' = User.id user ∧ User.createdAt user' = User.createdAt user) ∧
  (∀ k, k ≠ userId → getUser k st' = getUser k st) ∧
  messages st' = messages st ∧ conversations st' = conversations st.
Proof.
  intros Hwf Hun Hue st'. unfold st', patchProfile. simpl.
  destruct (takenByOther getUserByUsername (p_username body) userId st) eqn:Hcu.
  { simpl. split_and!; try done.
    - intros user Hg. by exists user. }
  destruct (takenByOther getUserByEmail (p_email body) userId st) eqn:Hce.
  { simpl. split_and!; try done.
    - intros user Hg. by exists user. }
  unfold updateUser. destruct (getUser userId st) as [user|] eqn:Hg; simpl.
  - assert (User.id user = userId) as Hid.
    { destruct Hwf as (Hk & _ & _). by eapply keyed_get. }
    split_and!.
    + pose proof (wf_updateUser userId (withoutCritical body) st Hwf) as Hwf'.
      unfold updateUser in Hwf'. by rewrite Hg in Hwf'.
    + apply (uniqueLower_update User.username userId user); try done.
      by apply (takenByOther_false User.username getUserByUsername).
    + apply (uniqueLower_update User.email userId user); try done.
      by apply (takenByOther_false User.email getUserByEmail).
    + done.
    + intros user0 [= <-]. eexists. split; [apply get_set_eq|]. done.
    + intros k Hne. unfold getUser. simpl. by rewrite get_set_ne.
    + done.
    + done.
  - split_and!; try done.
Qed.


Lemma uniqueLower_append (field : User.t Id → string) new st :
  uniqueLower field st →
  (∀ v, v ∈ JsMap.values (users st) →
        Str.toLowerCase (field v) ≠ Str.toLowerCase (field new)) →
  ∀ u v, u ∈ JsMap.values (users st) ++ [new] → v ∈ JsMap.values (users st) ++ [new] →
         Str.truthy (field u) = true →
         Str.toLowerCase (field u) = Str.toLowerCase (field v) →
         User.id u = User.id v.
Proof.
  intros Huniq Hfresh u v Hu Hv Ht Heq.
  apply elem_of_app in Hu as [Hu|Hu%list_elem_of_singleton];
    apply elem_of_app in Hv as [Hv|Hv%list_elem_of_singleton]; subst.
  - by apply Huniq.
  - by destruct (Hfresh u Hu).
  - by destruct (Hfresh v Hv).
  - done.
Qed.

(** The look-ups of the registration, by what they compare. *)
Lemma registerCheck_spec (validatedData : InsertUser) st :
  match registerCheck validatedData st with
  | Some reply =>
      (reply = Send 400 "Username already exists" ∧
       ∃ u, u ∈ JsMap.values (users st) ∧
            Str.toLowerCase (User.username u) = Str.toLowerCase (iu_username validatedData))
      ∨
      (reply = Send 400 "Email already exists" ∧
       (∀ u, u ∈ JsMap.values (users st) →
             Str.toLowerCase (User.username u) ≠ Str.toLowerCase (iu_username validatedData)) ∧
       ∃ u, u ∈ JsMap.values (users st) ∧
            Str.toLowerCase (User.email u) = Str.toLowerCase (iu_email validatedData))
  | None =>
      (∀ u, u ∈ JsMap.values (users st) →
            Str.toLowerCase (User.username u) ≠ Str.toLowerCase (iu_username validatedData)) ∧
      (∀ u, u ∈ JsMap.values (users st) →
            Str.toLowerCase (User.email u) ≠ Str.toLowerCase (iu_email validatedData))
  end.
Proof.
  unfold registerCheck, getUserByUsername, getUserByEmail.
  rewrite (find_lower_spec User.username), (find_lower_spec User.email).
  destruct (head (filter _ _)) as [eu|] eqn:Hu; simpl.
  { left. split; [done|]. apply head_filter_Some in Hu. by exists eu. }
  pose proof (proj1 (head_filter_None _ _) Hu) as Hnu.
  destruct (head (filter (λ a, Str.toLowerCase (User.email a) = _) _))
    as [ee|] eqn:He; simpl.
  { right. split_and!; [done|done|]. apply head_filter_Some in He. by exists ee. }
  split; [done|]. exact (proj1 (head_filter_None _ _) He).
Qed.

(** X17. [POST /api/register] runs in two parts, with the hashing of the
    password between them. The look-ups answer 400 exactly when a stored
    user has the user name (asked first) or the e-mail address up to
    case. The creation, in the store as it is when the hash has arrived,
    always stores a new user with the hashed password and answers 201.
    It keeps user names and addresses unique, and makes the account
    findable in any case, when the look-ups pass on the store it runs
    on, that is when no other request has taken the name or the address
    during the hashing. It does not look again: run on a store in which
    the name is taken, as happens to the second of two registrations of
    one name that are in flight together, it stores a second user of
    that name. *)
Theorem register_keeps_unique (validatedData : InsertUser) (hashedPassword : string)
    (now : Z) (st : MemStorage Id) :
  wf st → uniqueBy User.username st → uniqueBy User.email st →
  let st' := (registerCreate validatedData hashedPassword now st).1 in
  ((∃ u, u ∈ JsMap.values (users st) ∧
         StrSpec.equalIgnoringCase (User.username u) (iu_username validatedData)) ↔
   registerCheck validatedData st = Some (Send 400 "Username already exists")) ∧
  ((∀ u, u ∈ JsMap.values (users st) →
         ¬ StrSpec.equalIgnoringCase (User.username u) (iu_username validatedData)) ∧
   (∃ u, u ∈ JsMap.values (users st) ∧
         StrSpec.equalIgnoringCase (User.email u) (iu_email validatedData)) ↔
   registerCheck validatedData st = Some (Send 400 "Email already exists")) ∧
  ((∀ u, u ∈ JsMap.values (users st) →
         ¬ StrSpec.equalIgnoringCase (User.username u) (iu_username validatedData) ∧
         ¬ StrSpec.equalIgnoringCase (User.email u) (iu_email validatedData)) ↔
   registerCheck validatedData st = None) ∧
  wf st' ∧
  (∃ user,
     registerCreate validatedData hashedPassword now st = (st', Json 201 user) ∧
     User.id user = ofCounter (currentUserId st) ∧
     User.username user = iu_username validatedData ∧
     User.email user = iu_email validatedData ∧
     User.password user = hashedPassword ∧
     is_Some (User.avatar user) ∧
     getUser (User.id user) st = None ∧
     getUser (User.id user) st' = Some user ∧
     JsMap.values (users st') = JsMap.values (users st) ++ [user] ∧
     (registerCheck validatedData st = None →
        (∀ x, StrSpec.equalIgnoringCase x (iu_username validatedData) →
              getUserByUsername x st' = Some user) ∧
        (∀ x, StrSpec.equalIgnoringCase x (iu_email validatedData) →
              getUserByEmail x st' = Some user))) ∧
  (registerCheck validatedData st = None →
     uniqueBy User.username st' ∧ uniqueBy User.email st') ∧
  (Str.truthy (iu_username validatedData) = true →
   registerCheck validatedData st = Some (Send 400 "Username already exists") →
     ¬ uniqueBy User.username st').
Proof.
  intros Hwf Hun%uniqueBy_lower Hue%uniqueBy_lower st'.
  pose proof (registerCheck_spec validatedData st) as Hchk.
  unfold st', registerCreate.
  set (ins := Build_InsertUser _ _ _ hashedPassword (Some (registerAvatar validatedData))).
  cbn [fst snd].
  assert (getUser (User.id (createUser ins now st).2) (createUser ins now st).1
          = Some (createUser ins now st).2) as Hget by apply get_set_eq.
  assert (getUser (User.id (createUser ins now st).2) st = None) as Hfresh.
  { destruct Hwf as (Hk & _ & _). apply get_None_keys. by apply (keyed_fresh User.id). }
  assert (JsMap.values (users (createUser ins now st).1)
          = JsMap.values (users st) ++ [(createUser ins now st).2]) as Hvals.
  { simpl. rewrite set_fresh; [by rewrite values_app|].
    destruct Hwf as (Hk & _ & _). by apply (keyed_fresh User.id). }
  pose proof (wf_createUser ins now st Hwf) as Hwf'.
  assert (Str.truthy (registerAvatar validatedData) = true) as Hav.
  { unfold registerAvatar. destruct (iu_avatar validatedData) as [a|]; [|done].
    by destruct (Str.truthy a) eqn:Ha. }
  assert (∀ field x,
            (∀ u, u ∈ JsMap.values (users st) →
                  Str.toLowerCase (field u) ≠ Str.toLowerCase x) →
            filter (λ u : User.t Id, Str.toLowerCase (field u) = Str.toLowerCase x)
              (JsMap.values (users st)) = []) as Hnil.
  { intros field x Hno.
    pose proof (proj2 (head_filter_None
                         (λ u : User.t Id, Str.toLowerCase (field u) = Str.toLowerCase x)
                         (JsMap.values (users st))) Hno) as Hh.
    by destruct (filter _ _). }
  split_and!.
  - split.
    + intros (u & Hin & Heq%toLowerCase_eq_iff).
      destruct (registerCheck validatedData st) as [reply|].
      * destruct Hchk as [[-> _]|(_ & Hno & _)]; [done|by destruct (Hno u Hin)].
      * destruct Hchk as [Hno _]. by destruct (Hno u Hin).
    + intros Hr. rewrite Hr in Hchk.
      destruct Hchk as [[_ (u & Hin & Heq)]|[[=] _]].
      exists u. split; [done|by apply toLowerCase_eq_iff].
  - split.
    + intros (Hno & u & Hin & Heq%toLowerCase_eq_iff).
      destruct (registerCheck validatedData st) as [reply|].
      * destruct Hchk as [[_ (w & Hw & Hlow)]|[-> _]]; [|done].
        destruct (Hno w Hw). by apply toLowerCase_eq_iff.
      * destruct Hchk as [_ Hne]. by destruct (Hne u Hin).
    + intros Hr. rewrite Hr in Hchk.
      destruct Hchk as [[[=] _]|(_ & Hno & u & Hin & Heq)]. split.
      * intros w Hw Heq'%toLowerCase_eq_iff. by destruct (Hno w Hw).
      * exists u. split; [done|by apply toLowerCase_eq_iff].
  - split.
    + intros Hno. destruct (registerCheck validatedData st) as [reply|]; [|done].
      destruct Hchk as [[_ (u & Hin & Heq)]|(_ & _ & u & Hin & Heq)];
        destruct (Hno u Hin) as [Hn He]; [destruct Hn|destruct He];
        by apply toLowerCase_eq_iff.
    + intros Hr. rewrite Hr in Hchk. destruct Hchk as [Hnu Hne].
      intros u Hin. split; intros Heq%toLowerCase_eq_iff;
        [by destruct (Hnu u Hin)|by destruct (Hne u Hin)].
  - exact Hwf'.
  - exists (createUser ins now st).2. split_and!; try done.
    + simpl. by rewrite Hav.
    + intros Hr. rewrite Hr in Hchk. destruct Hchk as [Hnu Hne]. split.
      * intros x Hx%toLowerCase_eq_iff. unfold getUserByUsername.
        rewrite (find_lower_case User.username _ x _ Hx), (find_lower_spec User.username).
        rewrite Hvals, filter_app, (Hnil User.username _ Hnu). simpl.
        by rewrite filter_cons_True.
      * intros x Hx%toLowerCase_eq_iff. unfold getUserByEmail.
        rewrite (find_lower_case User.email _ x _ Hx), (find_lower_spec User.email).
        rewrite Hvals, filter_app, (Hnil User.email _ Hne). simpl.
        by rewrite filter_cons_True.
  - intros Hr. rewrite Hr in Hchk. destruct Hchk as [Hnu Hne].
    split; apply uniqueBy_lower; intros u v; rewrite Hvals.
    + by apply (uniqueLower_append User.username).
    + by apply (uniqueLower_append User.email).
  - intros Ht Hr Huniq. rewrite Hr in Hchk.
    destruct Hchk as [[_ (u & Hin & Heq)]|[[=] _]].
    apply uniqueBy_lower in Huniq.
    assert (User.id (createUser ins now st).2 = User.id u) as Hid.
    { apply Huniq; [rewrite Hvals; apply elem_of_app; right; by apply list_elem_of_singleton
                   |rewrite Hvals; apply elem_of_app; by left|done|done]. }
    assert (getUser (User.id u) st = Some u) as Hgu.
    { destruct Hwf as (Hk & _ & _). unfold JsMap.values in Hin.
      apply list_elem_of_fmap in Hin as ([k x] & -> & Hin). simpl.
      destruct Hk as (Hnd & Hids & _). rewrite (Hids _ _ Hin).
      by apply elem_get_Some. }
    rewrite Hid in Hfresh. congruence.
Qed.
End AccountFacts.

Lemma uniqueBy_init {Id : Type} `{JsId Id} (field : User.t Id → string) :
  uniqueBy field (init (Id:=Id)).
Proof. intros u v Hu. by apply elem_of_nil in Hu. Qed.

Lemma uniqueBy_threeUsers (field : User.t Z → string) :
  field = User.username ∨ field = User.email →
  uniqueBy field (Demo.threeUsers (Id:=Z)).
Proof.
  intros Hfield. apply uniqueBy_lower. intros u v Hu Hv _ Heq.
  apply list_elem_of_In in Hu, Hv. simpl in Hu, Hv.
  destruct Hfield as [->| ->];
    destruct Hu as [<-|[<-|[<-|[]]]]; destruct Hv as [<-|[<-|[<-|[]]]];
    try reflexivity; vm_compute in Heq; discriminate.
Qed.

Lemma register_keeps_unique_witness :
  let st1 := (registerCreate Demo.ann "hash1" 10 (Demo.threeUsers (Id:=Z))).1 in
  registerCheck Demo.ann (init (Id:=Z)) = None ∧
  registerCheck (Build_InsertUser "Ann B" "ANN" "annb@x.io" "secret4" None)
    (Demo.threeUsers (Id:=Z)) = Some (Send 400 "Username already exists") ∧
  ¬ uniqueBy User.username st1.
Proof.
  intros st1.
  destruct (register_keeps_unique Demo.ann "hash1" 10 (Demo.threeUsers (Id:=Z))
              wf_threeUsers (uniqueBy_threeUsers _ (or_introl eq_refl))
              (uniqueBy_threeUsers _ (or_intror eq_refl)))
    as (_ & _ & _ & _ & _ & _ & Hrace).
  split_and!; [reflexivity|reflexivity|].
  apply Hrace; reflexivity.
Defined.


(** * Further properties of the socket server *)

Section JsMapDelete.
Context {K V : Type} `{EqDecision K}.
Implicit Types (m : list (K * V)) (k : K).

Lemma elem_of_delete k m kv : kv ∈ JsMap.delete k m → kv ∈ m.
Proof.
  induction m as [|[k' v'] m IH]; simpl; [done|].
  destruct (decide (k' = k)); intros Hin.
  - apply elem_of_cons; by right.
  - apply elem_of_cons in Hin as [->|Hin]; apply elem_of_cons; [by left|right; auto].
Qed.

Lemma NoDup_keys_delete k m : NoDup (JsMap.keys m) → NoDup (JsMap.keys (JsMap.delete k m)).
Proof.
  induction m as [|[k' v'] m IH]; simpl; [done|].
  intros [Hk' Hnd]%NoDup_cons. destruct (decide (k' = k)); [done|].
  simpl. apply NoDup_cons. split; [|auto].
  intros Hin. apply Hk'. unfold JsMap.keys in *.
  apply list_elem_of_fmap in Hin as (kv & -> & Hin).
  apply elem_of_delete in Hin. by apply (list_elem_of_fmap_2 fst) in Hin.
Qed.

Lemma get_delete_ne k k' m : k ≠ k' → JsMap.get k' (JsMap.delete k m) = JsMap.get k' m.
Proof.
  intros Hne. induction m as [|[k0 v0] m IH]; simpl; [done|].
  destruct (decide (k0 = k)) as [->|Hne0]; simpl.
  - by rewrite decide_False.
  - by rewrite IH.
Qed.

Lemma elem_of_delete_ne k m kv : kv ∈ m → kv.1 ≠ k → kv ∈ JsMap.delete k m.
Proof.
  induction m as [|[k' v'] m IH]; simpl; [done|].
  intros Hin Hne. destruct (decide (k' = k)) as [->|Hk].
  - apply elem_of_cons in Hin as [->|Hin]; [done|done].
  - apply elem_of_cons in Hin as [->|Hin]; apply elem_of_cons; [by left|right; auto].
Qed.
End JsMapDelete.

Section RegistryInvariant.
Variable JSON_parse : string → option WebSocketMessage.
Variable JSON_stringify : WebSocketMessage → string.
Implicit Types (s : Server) (u : string) (h c : nat) (ws : AuthenticatedClient).

Lemma truthy_ne_empty u : Str.truthy u = true ↔ u ≠ EmptyString.
Proof. by destruct u. Qed.

Lemma hasUserId_identity c s ws :
  sockets s !! c = Some ws → Ws.hasUserId ws = false →
  (∀ h u, identityOf h s = Some u → Str.truthy u = true) →
  identityOf c s = None.
Proof.
  intros Hc Hno Htruthy. unfold identityOf in *. rewrite Hc. simpl.
  destruct (userId ws) as [u|] eqn:Hu; [|done].
  specialize (Htruthy c u). rewrite Hc in Htruthy. simpl in Htruthy.
  specialize (Htruthy Hu). unfold Ws.hasUserId in Hno. rewrite Hu in Hno. congruence.
Qed.

Lemma registryOk_bind u c s ws :
  registryOk s → sockets s !! c = Some ws → Ws.hasUserId ws = false →
  is_Some (getUser u (storage s)) →
  registryOk (bind u c s).
Proof.
  intros (Hempty & Hnd & Hent & Htruthy) Hc Hno [usr Husr].
  assert (u ≠ EmptyString) as Hu by (intros ->; congruence).
  pose proof (hasUserId_identity c s ws Hc Hno Htruthy) as Hcid.
  split_and!.
  - done.
  - simpl. by apply NoDup_keys_set.
  - intros v h Hin. simpl in Hin.
    apply elem_of_set_NoDup in Hin as [[= -> ->]|[Hin Hne]]; [|  |done].
    + by eapply identityOf_bind.
    + assert (h ≠ c) as Hhc.
      { intros ->. specialize (Hent _ _ Hin). congruence. }
      rewrite identityOf_bind_ne by done. by apply Hent.
  - intros h v Hid. destruct (decide (h = c)) as [->|Hhc].
    + rewrite (identityOf_bind u c s ws Hc) in Hid. injection Hid as <-.
      by apply truthy_ne_empty.
    + rewrite identityOf_bind_ne in Hid by done. by eapply Htruthy.
Qed.

Lemma registryOk_same s s' :
  registryOk s →
  getUser EmptyString (storage s') = getUser EmptyString (storage s) →
  clients s' = clients s →
  (∀ h, identityOf h s' = identityOf h s) →
  registryOk s'.
Proof.
  intros (Hempty & Hnd & Hent & Htruthy) Hst Hcl Hid. split_and!.
  - congruence.
  - by rewrite Hcl.
  - intros u h Hin. rewrite Hcl in Hin. rewrite Hid. by apply Hent.
  - intros h u Hh. rewrite Hid in Hh. by eapply Htruthy.
Qed.

Lemma getUser_updateUserStatus_ne u v b now (st : MemStorage string) :
  v ≠ u → getUser v (updateUserStatus u b now st) = getUser v st.
Proof.
  intros Hne. unfold updateUserStatus. destruct (getUser u st); [|done].
  unfold getUser. simpl. by rewrite get_set_ne.
Qed.

Lemma getUser_updateUserStatus_eq u b now (st : MemStorage string) usr :
  getUser u st = Some usr →
  getUser u (updateUserStatus u b now st) = Some (User.withStatus b now usr).
Proof.
  intros Hg. unfold updateUserStatus. rewrite Hg. apply get_set_eq.
Qed.

Lemma getUser_empty_updateUserStatus u b now (st : MemStorage string) :
  u ≠ EmptyString →
  getUser EmptyString (updateUserStatus u b now st) = getUser EmptyString st.
Proof. intros Hu. by apply getUser_updateUserStatus_ne. Qed.

Lemma registryOk_onMessage c data now s :
  registryOk s → registryOk (onMessage JSON_parse c data now s).
Proof.
  intros Hok. unfold onMessage.
  destruct (sockets s !! c) as [ws|] eqn:Hc; [|done].
  destruct (JSON_parse data) as [message|]; [|done].
  destruct (negb (Ws.hasUserId ws) && negb (bool_decide (type message = TEXT))) eqn:Hauth.
  - apply andb_true_iff in Hauth as [Hno%negb_true_iff _].
    unfold authenticate.
    destruct (getUser (senderId message) (storage s)) as [usr|] eqn:Husr; [|done].
    assert (registryOk (bind (senderId message) c s)) as Hb
      by (by eapply registryOk_bind).
    assert (senderId message ≠ EmptyString) as Hne.
    { intros Heq. destruct Hok as (Hempty & _). rewrite Heq in Husr. congruence. }
    destruct (decide (type message = STATUS));
      match goal with |- registryOk (route data message ?s1) =>
        destruct (route_frame data message s1) as (Hst & Hcl & Hid);
        apply (registryOk_same (bind (senderId message) c s)); try done end.
    + rewrite Hst. simpl. by apply getUser_empty_updateUserStatus.
    + by rewrite Hst.
  - destruct (route_frame data message s) as (Hst & Hcl & Hid).
    apply (registryOk_same s); try done. by rewrite Hst.
Qed.

Lemma registryOk_onClose c now s :
  registryOk s → registryOk (onClose JSON_stringify c now s).
Proof.
  intros Hok. unfold onClose.
  destruct (sockets s !! c) as [ws|] eqn:Hc; [|done].
  set (s0 := mkServer (storage s) (alter Ws.closed c (sockets s)) (clients s)).
  assert (registryOk s0) as Hok0.
  { apply (registryOk_same s); try done.
    intros h. unfold identityOf. simpl. by apply identityOf_alter. }
  destruct (userId ws) as [u|]; [|done].
  destruct (Str.truthy u) eqn:Hu; [|done].
  apply truthy_ne_empty in Hu.
  match goal with |- registryOk (mkServer _ _ (JsMap.delete u (clients ?s2))) =>
    assert (registryOk s2) as (Hempty & Hnd & Hent & Htruthy) end.
  { match goal with |- registryOk (broadcast u ?d ?s1) =>
      destruct (broadcast_frame u d s1) as (Hst & Hcl & Hid);
      apply (registryOk_same s0); try done end.
    rewrite Hst. simpl. by apply getUser_empty_updateUserStatus. }
  split_and!.
  - done.
  - simpl. by apply NoDup_keys_delete.
  - intros v h Hin. simpl in Hin. apply elem_of_delete in Hin. by apply Hent.
  - done.
Qed.

Lemma registryOk_onConnection s : registryOk s → registryOk (onConnection s).
Proof.
  intros (Hempty & Hnd & Hent & Htruthy).
  assert (∀ h u, identityOf h s = Some u → identityOf h (onConnection s) = Some u) as Hold.
  { intros h u Hid. unfold identityOf in *. simpl.
    destruct (sockets s !! h) as [ws|] eqn:Hh; [|done].
    by rewrite (lookup_app_l_Some _ _ _ _ Hh). }
  split_and!; try done.
  - intros u h Hin. apply Hold. by apply Hent.
  - intros h u Hid. unfold identityOf in Hid. simpl in Hid.
    destruct (sockets s !! h) as [ws|] eqn:Hh.
    + rewrite (lookup_app_l_Some _ _ _ _ Hh) in Hid. apply (Htruthy h u).
      unfold identityOf. by rewrite Hh.
    + apply lookup_ge_None in Hh. rewrite lookup_app_r in Hid by done.
      destruct (h - length (sockets s))%nat; simpl in Hid; done.
Qed.

Lemma registryOk_onPong c s : registryOk s → registryOk (onPong c s).
Proof.
  intros Hok. apply (registryOk_same s); try done.
  intros h. unfold identityOf. simpl. by apply identityOf_alter.
Qed.

Lemma registryOk_step s e :
  registryOk s → registryOk (step JSON_parse JSON_stringify s e).
Proof.
  destruct e; simpl;
    auto using registryOk_onConnection, registryOk_onMessage, registryOk_onClose,
               registryOk_onPong.
Qed.

Lemma registryOk_run s es :
  registryOk s → registryOk (run JSON_parse JSON_stringify s es).
Proof.
  unfold run. revert s. induction es as [|e es IH]; intros s Hok; simpl; [done|].
  apply IH. by apply registryOk_step.
Qed.

End RegistryInvariant.

Section Interleaving.
Variable JSON_parse : string → option WebSocketMessage.
Variable JSON_stringify : WebSocketMessage → string.
Implicit Types (s : Server) (u : string) (h c : nat) (t : Task) (r : Running).

Lemma is_Some_updateUserStatus v u b now (st : MemStorage string) :
  is_Some (getUser v st) → is_Some (getUser v (updateUserStatus u b now st)).
Proof.
  intros [usr Hv]. destruct (decide (v = u)) as [->|Hne].
  - rewrite (getUser_updateUserStatus_eq u b now st usr Hv). by eexists.
  - rewrite getUser_updateUserStatus_ne by done. by eexists.
Qed.

Lemma getUser_empty_status u b now (st : MemStorage string) :
  getUser EmptyString st = None →
  getUser EmptyString (updateUserStatus u b now st) = None.
Proof.
  intros Hempty. destruct (decide (u = EmptyString)) as [->|Hne].
  - unfold updateUserStatus. by rewrite Hempty.
  - by rewrite getUser_empty_updateUserStatus.
Qed.

Lemma length_sockets_forward receiver data s :
  length (sockets (forward receiver data s)) = length (sockets s).
Proof.
  unfold forward. destruct (JsMap.get receiver (clients s)); [|done].
  destruct (Ws.isOpen _ _); [|done]. simpl. by rewrite length_alter.
Qed.

Lemma length_sockets_broadcast u data s :
  length (sockets (broadcast u data s)) = length (sockets s).
Proof.
  unfold broadcast. simpl. generalize (sockets s).
  induction (JsMap.entries (clients s)) as [|e es IH]; intros socks; simpl; [done|].
  rewrite IH. destruct (_ && _); [|done]. by rewrite length_alter.
Qed.

Lemma length_sockets_route data message s :
  length (sockets (route data message s)) = length (sockets s).
Proof.
  unfold route. destruct (type message);
    auto using length_sockets_forward, length_sockets_broadcast.
Qed.

Lemma grows_refl s : grows s s.
Proof. by split. Qed.

Lemma grows_same s s' :
  length (sockets s') = length (sockets s) → storage s' = storage s → grows s s'.
Proof. intros Hl Hst. split; [lia|]. by rewrite Hst. Qed.

Lemma taskOk_grows s s' t : grows s s' → taskOk s t → taskOk s' t.
Proof.
  intros [Hlen Husers]. induction t as [c data message [usr|]| | |]; simpl; try done.
  intros [Hc Hu]. split; [|by apply Husers].
  apply lookup_lt_is_Some. apply lookup_lt_is_Some in Hc. lia.
Qed.

Lemma authentic_same s s' :
  authentic s →
  getUser EmptyString (storage s') = None →
  (∀ u, is_Some (getUser u (storage s)) → is_Some (getUser u (storage s'))) →
  clients s' = clients s →
  (∀ h, identityOf h s' = identityOf h s) →
  authentic s'.
Proof.
  intros (Hempty & Hnd & Hid & Hent) Hempty' Husers Hcl Hids. split_and!.
  - done.
  - by rewrite Hcl.
  - intros h u Hh. rewrite Hids in Hh. by apply Husers, (Hid h).
  - intros u h Hin. rewrite Hcl in Hin. destruct (Hent u h Hin) as [Hu Hh].
    split; [by apply Husers|by rewrite Hids].
Qed.

Lemma authentic_route data message s : authentic s → authentic (route data message s).
Proof.
  intros Hok. destruct (route_frame data message s) as (Hst & Hcl & Hid).
  apply (authentic_same s); [done| | |done|done]; rewrite Hst; [by destruct Hok|done].
Qed.

Lemma authentic_broadcast u data s : authentic s → authentic (broadcast u data s).
Proof.
  intros Hok. destruct (broadcast_frame u data s) as (Hst & Hcl & Hid).
  apply (authentic_same s); [done| | |done|done]; rewrite Hst; [by destruct Hok|done].
Qed.

Lemma authentic_status u b now s :
  authentic s →
  authentic (mkServer (updateUserStatus u b now (storage s)) (sockets s) (clients s)).
Proof.
  intros Hok. apply (authentic_same s); try done; simpl.
  - apply getUser_empty_status. by destruct Hok.
  - intros v. apply is_Some_updateUserStatus.
Qed.

Lemma authentic_bind u c s :
  authentic s → is_Some (sockets s !! c) → is_Some (getUser u (storage s)) →
  authentic (bind u c s).
Proof.
  intros (Hempty & Hnd & Hid & Hent) [ws Hc] Hu. split_and!.
  - done.
  - simpl. by apply NoDup_keys_set.
  - intros h v Hh. destruct (decide (h = c)) as [->|Hne].
    + rewrite (identityOf_bind u c s ws Hc) in Hh. by injection Hh as <-.
    + rewrite identityOf_bind_ne in Hh by done. by apply (Hid h).
  - intros v h Hin. simpl in Hin.
    assert (is_Some (identityOf c (bind u c s))) as Hcid
      by (rewrite (identityOf_bind u c s ws Hc); by eexists).
    apply elem_of_set in Hin as [[= -> ->]|Hin]; [done|].
    destruct (Hent v h Hin) as [Hv Hh]. split; [done|].
    destruct (decide (h = c)) as [->|Hne]; [done|].
    by rewrite identityOf_bind_ne.
Qed.

Lemma authentic_delete u s :
  authentic s → authentic (mkServer (storage s) (sockets s) (JsMap.delete u (clients s))).
Proof.
  intros (Hempty & Hnd & Hid & Hent). split_and!; try done.
  - simpl. by apply NoDup_keys_delete.
  - intros v h Hin. simpl in Hin. apply elem_of_delete in Hin. by apply Hent.
Qed.

Lemma authentic_alter (f : AuthenticatedClient → AuthenticatedClient) c s :
  (∀ ws, userId (f ws) = userId ws) →
  authentic s → authentic (mkServer (storage s) (alter f c (sockets s)) (clients s)).
Proof.
  intros Hf Hok. apply (authentic_same s); try done; [by destruct Hok|].
  intros h. unfold identityOf. simpl. by apply identityOf_alter.
Qed.

Lemma authentic_onConnection s : authentic s → authentic (onConnection s).
Proof.
  intros (Hempty & Hnd & Hid & Hent).
  assert (∀ h, is_Some (identityOf h s) → identityOf h (onConnection s) = identityOf h s)
    as Hold.
  { intros h. unfold identityOf. simpl.
    destruct (sockets s !! h) as [ws|] eqn:Hh; [|by intros [? ?]].
    by rewrite (lookup_app_l_Some _ _ _ _ Hh). }
  split_and!; try done.
  - intros h u Hh. unfold identityOf in Hh. simpl in Hh.
    destruct (sockets s !! h) as [ws|] eqn:Hw.
    + rewrite (lookup_app_l_Some _ _ _ _ Hw) in Hh. apply (Hid h).
      unfold identityOf. by rewrite Hw.
    + apply lookup_ge_None in Hw. rewrite lookup_app_r in Hh by done.
      destruct (h - length (sockets s))%nat; simpl in Hh; done.
  - intros u h Hin. destruct (Hent u h Hin) as [Hu Hh]. split; [done|].
    by rewrite Hold.
Qed.

(** An event, up to the first [await]. *)
Lemma arrive_ok e s :
  authentic s →
  authentic (arrive JSON_parse e s).1 ∧ grows s (arrive JSON_parse e s).1 ∧
  Forall (taskOk (arrive JSON_parse e s).1) (arrive JSON_parse e s).2.
Proof.
  intros Hok. destruct e as [|c data now|c now|c]; simpl.
  - split_and!; [by apply authentic_onConnection| |done].
    split; [|done]. simpl. rewrite length_app. lia.
  - destruct (sockets s !! c) as [ws|] eqn:Hc; [|by split_and!; [|apply grows_refl|]].
    destruct (JSON_parse data) as [message|]; [|by split_and!; [|apply grows_refl|]].
    destruct (negb (Ws.hasUserId ws) && negb (bool_decide (type message = TEXT))); simpl.
    + split_and!; [done|apply grows_refl|]. constructor; [|done]. simpl.
      destruct (getUser (senderId message) (storage s)) eqn:Hu; [|done].
      split; by eexists.
    + split_and!; [by apply authentic_route| |done].
      apply grows_same; [apply length_sockets_route|].
      by destruct (route_frame data message s).
  - destruct (sockets s !! c) as [ws|] eqn:Hc; [|by split_and!; [|apply grows_refl|]].
    assert (authentic (mkServer (storage s) (alter Ws.closed c (sockets s)) (clients s)))
      as Hok0 by (by apply authentic_alter).
    assert (grows s (mkServer (storage s) (alter Ws.closed c (sockets s)) (clients s)))
      as Hg by (apply grows_same; [simpl; by rewrite length_alter|done]).
    destruct (userId ws) as [u|]; [|done].
    destruct (Str.truthy u); [|done]. simpl. split_and!; [done|done|].
    by constructor.
  - split_and!; [by apply authentic_alter| |done].
    apply grows_same; [simpl; by rewrite length_alter|done].
Qed.

(** A task, up to its next [await]. *)
Lemma resume_ok t now s :
  authentic s → taskOk s t →
  authentic (resume JSON_stringify t now s).1 ∧
  grows s (resume JSON_stringify t now s).1 ∧
  Forall (taskOk (resume JSON_stringify t now s).1) (resume JSON_stringify t now s).2.
Proof.
  intros Hok Ht. destruct t as [c data message [usr|]|found u b next|c data message|c];
    simpl in *.
  - destruct Ht as [Hc Hu].
    assert (authentic (bind (senderId message) c s)) as Hb by (by apply authentic_bind).
    assert (grows s (bind (senderId message) c s)) as Hg
      by (apply grows_same; [apply length_sockets_bind|done]).
    destruct (decide (type message = STATUS)); simpl.
    + split_and!; [done|done|]. by constructor.
    + split_and!; [by apply authentic_route| |done].
      apply grows_same.
      * by rewrite length_sockets_route, length_sockets_bind.
      * by destruct (route_frame data message (bind (senderId message) c s)) as [-> _].
  - by split_and!; [|apply grows_refl|].
  - destruct found; simpl.
    + split_and!; [by apply authentic_status| |].
      * split; [done|]. intros v. apply is_Some_updateUserStatus.
      * constructor; [|done]. eapply taskOk_grows; [|done].
        split; [done|]. intros v. apply is_Some_updateUserStatus.
    + split_and!; [done|apply grows_refl|by constructor].
  - split_and!; [by apply authentic_route| |done].
    apply grows_same; [apply length_sockets_route|].
    by destruct (route_frame data message s).
  - destruct (identityOf c s) as [u|]; simpl; [|by split_and!; [|apply grows_refl|]].
    split_and!; [|  |done].
    + exact (authentic_delete u _
               (authentic_broadcast u (JSON_stringify (offlineMessage u)) s Hok)).
    + apply (grows_same s
               (mkServer (storage (broadcast u (JSON_stringify (offlineMessage u)) s))
                  (sockets (broadcast u (JSON_stringify (offlineMessage u)) s))
                  (JsMap.delete u
                     (clients (broadcast u (JSON_stringify (offlineMessage u)) s)))));
        [apply length_sockets_broadcast|done].
Qed.

Lemma act_ok r a :
  authentic (server r) ∧ Forall (taskOk (server r)) (pool r) →
  authentic (server (act JSON_parse JSON_stringify r a)) ∧
  Forall (taskOk (server (act JSON_parse JSON_stringify r a)))
    (pool (act JSON_parse JSON_stringify r a)).
Proof.
  intros [Hok Hpool]. destruct a as [e|i now]; simpl.
  - destruct (arrive_ok e (server r) Hok) as (Hok' & Hg & Hts).
    destruct (arrive JSON_parse e (server r)) as [s' ts]. simpl in *.
    split; [done|]. apply Forall_app. split; [|done].
    eapply Forall_impl; [done|]. intros t. by apply taskOk_grows.
  - destruct (pool r !! i) as [t|] eqn:Hi; [|done].
    assert (taskOk (server r) t) as Ht by (by eapply Forall_lookup_1).
    destruct (resume_ok t now (server r) Hok Ht) as (Hok' & Hg & Hts).
    destruct (resume JSON_stringify t now (server r)) as [s' ts]. simpl in *.
    split; [done|]. apply Forall_app. split; [|done].
    apply Forall_delete. eapply Forall_impl; [done|]. intros t'. by apply taskOk_grows.
Qed.

Lemma runActions_ok r actions :
  authentic (server r) ∧ Forall (taskOk (server r)) (pool r) →
  authentic (server (runActions JSON_parse JSON_stringify r actions)) ∧
  Forall (taskOk (server (runActions JSON_parse JSON_stringify r actions)))
    (pool (runActions JSON_parse JSON_stringify r actions)).
Proof.
  unfold runActions. revert r. induction actions as [|a actions IH]; intros r Hr; [done|].
  simpl. by apply IH, act_ok.
Qed.

(** A handler that is resumed at once is the handler in one piece. *)
Lemma atOnce_step s e :
  runActions JSON_parse JSON_stringify (mkRunning s []) (atOnce e)
  = mkRunning (step JSON_parse JSON_stringify s e) [].
Proof.
  destruct e as [|c data now|c now|c]; unfold runActions, atOnce; simpl; try done.
  - unfold onMessage. destruct (sockets s !! c) as [ws|] eqn:Hc; [|done].
    destruct (JSON_parse data) as [message|]; [|done].
    destruct (negb (Ws.hasUserId ws) && negb (bool_decide (type message = TEXT)));
      [|done].
    simpl. unfold authenticate.
    destruct (getUser (senderId message) (storage s)) as [usr|] eqn:Hu; [|done].
    simpl. destruct (decide (type message = STATUS)); [|done].
    simpl. unfold callUpdateUserStatus. simpl.
    rewrite Hu, bool_decide_eq_true_2 by (by eexists). done.
  - unfold onClose. destruct (sockets s !! c) as [ws|] eqn:Hc; [|done].
    destruct (userId ws) as [u|] eqn:Hu; [|done].
    destruct (Str.truthy u) eqn:Ht; [|done].
    simpl. unfold callUpdateUserStatus. simpl.
    assert (∀ st, identityOf c (mkServer st (alter Ws.closed c (sockets s)) (clients s))
                  = Some u) as Hid.
    { intros st. unfold identityOf. simpl. rewrite list_lookup_alter_eq, Hc. done. }
    destruct (getUser u (storage s)) as [usr|] eqn:Hg.
    + rewrite bool_decide_eq_true_2 by (by eexists). simpl. by rewrite Hid.
    + rewrite bool_decide_eq_false_2 by (by intros [? ?]). simpl. rewrite Hid.
      unfold updateUserStatus. by rewrite Hg.
Qed.

Lemma atOnce_run s es :
  runActions JSON_parse JSON_stringify (mkRunning s []) (es ≫= atOnce)
  = mkRunning (run JSON_parse JSON_stringify s es) [].
Proof.
  revert s. induction es as [|e es IH]; intros s; [done|].
  change ((e :: es) ≫= atOnce) with (atOnce e ++ (es ≫= atOnce)).
  pose proof (atOnce_step s e) as He. specialize (IH (step JSON_parse JSON_stringify s e)).
  unfold runActions in *. by rewrite foldl_app, He, IH.
Qed.

(** X18. However the handlers of the frames and of the disconnects
    interleave at their [await]s, a server that starts with a sound
    registry keeps this much: the empty string is no user, every
    identity is registered at most once, every identity a socket carries
    is a user of the store, and every entry of the registry is for a
    user of the store and names a socket that carries an identity. When
    every handler is resumed at once, which is the run in whole steps,
    the registry stays sound altogether: every registered socket carries
    the identity it is registered under, so no socket is registered
    under two identities. This second part needs the handlers not to
    interleave: [chunk_registers_socket_twice] below is a chunk of two
    frames after which one socket is registered under two identities. *)
Theorem registry_sound_in_every_run (s : Server) :
  registryOk s → authentic s →
  (∀ actions,
     authentic (server (runActions JSON_parse JSON_stringify (mkRunning s []) actions))) ∧
  (∀ es,
     let s' := run JSON_parse JSON_stringify s es in
     runActions JSON_parse JSON_stringify (mkRunning s []) (es ≫= atOnce)
     = mkRunning s' [] ∧
     registryOk s' ∧
     (∀ u v h, (u, h) ∈ clients s' → (v, h) ∈ clients s' → u = v) ∧
     (∀ u h, lookup u s' = Some h → identityOf h s' = Some u)).
Proof.
  intros Hok Hau. split.
  - intros actions. by apply runActions_ok.
  - intros es s'. split; [apply atOnce_run|].
    assert (registryOk s') as Hok' by (by apply registryOk_run).
    split; [done|]. destruct Hok' as (_ & _ & Hent & _). split.
    + intros u v h Hu Hv. apply Hent in Hu, Hv. congruence.
    + intros u h Hl. apply Hent. by apply get_Some_elem.
Qed.
End Interleaving.

Lemma registryOk_newServer (st : MemStorage string) :
  getUser EmptyString st = None → registryOk (newServer st).
Proof.
  intros Hst. split_and!; try done.
  - apply NoDup_nil_2.
  - intros u h Hin. by apply elem_of_nil in Hin.
Qed.

Lemma authentic_newServer (st : MemStorage string) :
  getUser EmptyString st = None → authentic (newServer st).
Proof.
  intros Hst. split_and!; try done.
  - apply NoDup_nil_2.
  - intros u h Hin. by apply elem_of_nil in Hin.
Qed.

(** Two status frames, of the users "1" and "2", reach a new socket in
    one chunk: both handlers pass [!ws.userId] before either is
    resumed, and the socket ends up registered under both identities
    while it carries the second. *)
Lemma chunk_registers_socket_twice :
  let r := runActions Demo.parse Demo.stringify (mkRunning Demo.server0 [])
             [Arrive Connection;
              Arrive (Frame 0 "status:1:0:online" 100);
              Arrive (Frame 0 "status:2:0:online" 100);
              Resume 0 100; Resume 0 100; Resume 0 100;
              Resume 0 100; Resume 0 100; Resume 0 100] in
  pool r = [] ∧
  lookup "1" (server r) = Some 0%nat ∧
  lookup "2" (server r) = Some 0%nat ∧
  identityOf 0 (server r) = Some "2" ∧
  ¬ registryOk (server r).
Proof.
  vm_compute. split_and!; try reflexivity.
  intros (_ & _ & Hent & _).
  specialize (Hent "1" 0%nat (list_elem_of_here _ _)). discriminate.
Qed.

Lemma registry_sound_in_every_run_witness :
  let r := runActions Demo.parse Demo.stringify (mkRunning Demo.server0 [])
             [Arrive Connection;
              Arrive (Frame 0 "status:1:0:online" 100);
              Arrive (Frame 0 "status:2:0:online" 100);
              Resume 0 100; Resume 0 100; Resume 0 100;
              Resume 0 100; Resume 0 100; Resume 0 100] in
  authentic (server r) ∧ registryOk Demo.replaced.
Proof.
  intros r.
  destruct (registry_sound_in_every_run Demo.parse Demo.stringify Demo.server0)
    as [Hany Hwhole].
  - apply registryOk_newServer. reflexivity.
  - apply authentic_newServer. reflexivity.
  - split; [apply Hany|].
    exact (proj1 (proj2 (Hwhole [Connection; Frame 0 "status:2:0:online" 100;
                                 Connection; Frame 1 "status:1:0:online" 101;
                                 Connection; Frame 2 "status:1:0:online" 102]))).
Defined.

Section Broadcast.
Implicit Types (s : Server) (u : string) (h c : nat) (ws : AuthenticatedClient)
  (socks : list AuthenticatedClient).

Lemma isOpen_send data h h' socks :
  Ws.isOpen h (alter (Ws.send data) h' socks) = Ws.isOpen h socks.
Proof.
  unfold Ws.isOpen. destruct (decide (h' = h)) as [->|Hne].
  - rewrite list_lookup_alter_eq. by destruct (socks !! h).
  - by rewrite list_lookup_alter_ne.
Qed.

Lemma sentTo_send st cl data h h' socks :
  sentTo h (mkServer st (alter (Ws.send data) h' socks) cl)
  = if decide (h' = h ∧ is_Some (socks !! h))
    then sentTo h (mkServer st socks cl) ++ [data]
    else sentTo h (mkServer st socks cl).
Proof.
  unfold sentTo. simpl. destruct (decide (h' = h)) as [->|Hne].
  - rewrite list_lookup_alter_eq. destruct (socks !! h) as [ws|]; simpl.
    + rewrite decide_True; [done|]. split; [done|by eexists].
    + rewrite decide_False; [done|]. intros [_ [? ?]]. done.
  - rewrite list_lookup_alter_ne by done. rewrite decide_False; [done|]. tauto.
Qed.

Lemma isOpen_is_Some h socks : Ws.isOpen h socks = true → is_Some (socks !! h).
Proof. unfold Ws.isOpen. destruct (socks !! h); [by eexists|done]. Qed.

Lemma broadcast_fold u data st cl (es : list (string * nat)) :
  ∀ socks h, NoDup (es.*2) →
  let socks' :=
    foldl (λ socks entry,
             if bool_decide (entry.1 ≠ u) && Ws.isOpen entry.2 socks
             then alter (Ws.send data) entry.2 socks
             else socks) socks es in
  Ws.isOpen h socks' = Ws.isOpen h socks ∧
  ((∃ v, (v, h) ∈ es ∧ v ≠ u) → Ws.isOpen h socks = true →
     sentTo h (mkServer st socks' cl) = sentTo h (mkServer st socks cl) ++ [data]) ∧
  ((∀ v, (v, h) ∈ es → v = u) ∨ Ws.isOpen h socks = false →
     sentTo h (mkServer st socks' cl) = sentTo h (mkServer st socks cl)).
Proof.
  induction es as [|[v h1] es IH]; intros socks h Hnd; simpl.
  - split_and!; [done| |done]. intros (v & Hin & _). by apply elem_of_nil in Hin.
  - apply NoDup_cons in Hnd as [Hh1 Hnd].
    set (socks1 := if bool_decide (v ≠ u) && Ws.isOpen h1 socks
                   then alter (Ws.send data) h1 socks else socks).
    assert (Ws.isOpen h socks1 = Ws.isOpen h socks) as Hopen1.
    { unfold socks1. destruct (_ && _); [apply isOpen_send|done]. }
    destruct (IH socks1 h Hnd) as (Hopen & Hyes & Hno).
    split_and!.
    + by rewrite Hopen.
    + intros (w & Hin & Hw) Hop. apply elem_of_cons in Hin as [[= -> ->]|Hin].
      * rewrite Hno.
        -- unfold socks1. rewrite bool_decide_eq_true_2 by done. rewrite Hop. simpl.
           rewrite sentTo_send. rewrite decide_True; [done|].
           split; [done|by apply isOpen_is_Some].
        -- left. intros w' Hin'. destruct Hh1.
           by apply (list_elem_of_fmap_2 snd) in Hin'.
      * assert (h1 ≠ h) as Hne.
        { intros ->. apply Hh1. by apply (list_elem_of_fmap_2 snd) in Hin. }
        rewrite Hyes; [|by exists w|by rewrite Hopen1]. f_equal.
        unfold socks1. destruct (_ && _); [|done].
        rewrite sentTo_send. rewrite decide_False; [done|]. tauto.
    + intros Hcase. rewrite Hno.
      * unfold socks1. destruct (bool_decide (v ≠ u)) eqn:Hv; simpl; [|done].
        destruct (Ws.isOpen h1 socks) eqn:Hop1; [|done].
        rewrite sentTo_send. rewrite decide_False; [done|]. intros [-> _].
        apply bool_decide_eq_true in Hv. destruct Hcase as [Hall|Hcl]; [|congruence].
        apply Hv, Hall. apply elem_of_cons; by left.
      * destruct Hcase as [Hall|Hcl]; [left|right; by rewrite Hopen1].
        intros w Hin. apply Hall. apply elem_of_cons; by right.
Qed.

Lemma NoDup_handles (l : list (string * nat)) :
  NoDup (l.*1) →
  (∀ e e', e ∈ l → e' ∈ l → e.2 = e'.2 → e.1 = e'.1) →
  NoDup (l.*2).
Proof.
  induction l as [|e l IH]; intros Hnd Hinj; [apply NoDup_nil_2|].
  rewrite fmap_cons in *. apply NoDup_cons in Hnd as [He Hnd].
  apply NoDup_cons. split.
  - intros Hin. apply list_elem_of_fmap in Hin as (e' & Heq & Hin).
    apply He. rewrite (Hinj e e'); [by apply (list_elem_of_fmap_2 fst)| | |done].
    + apply elem_of_cons; by left.
    + apply elem_of_cons; by right.
  - apply IH; [done|]. intros e1 e2 H1 H2. apply Hinj; apply elem_of_cons; by right.
Qed.

Lemma registry_handles s : registryOk s → NoDup ((clients s).*2).
Proof.
  intros (_ & Hnd & Hent & _). apply NoDup_handles; [exact Hnd|].
  intros [u h] [v h'] Hu Hv. simpl. intros <-.
  apply Hent in Hu, Hv. congruence.
Qed.

(** What [broadcast] does on a sound registry, socket by socket. *)
Lemma broadcast_delivers u data s :
  NoDup ((clients s).*2) →
  ∀ h,
    ((∃ v, (v, h) ∈ clients s ∧ v ≠ u) → Ws.isOpen h (sockets s) = true →
       sentTo h (broadcast u data s) = sentTo h s ++ [data]) ∧
    ((∀ v, (v, h) ∈ clients s → v = u) ∨ Ws.isOpen h (sockets s) = false →
       sentTo h (broadcast u data s) = sentTo h s) ∧
    stateOf h (broadcast u data s) = stateOf h s.
Proof.
  intros Hnd h. unfold broadcast, JsMap.entries.
  destruct (broadcast_fold u data (storage s) (clients s) (clients s) (sockets s) h Hnd)
    as (Hopen & Hyes & Hno).
  split_and!; [exact Hyes | exact Hno |].
  unfold stateOf. simpl. clear Hnd Hopen Hyes Hno. generalize (sockets s) as socks.
  induction (clients s) as [|[v h'] cl IH]; intros socks; simpl; [done|].
  rewrite IH. destruct (bool_decide (v ≠ u) && Ws.isOpen h' socks); [|done].
  destruct (decide (h' = h)) as [->|Hne].
  - rewrite list_lookup_alter_eq. by destruct (socks !! h).
  - by rewrite list_lookup_alter_ne.
Qed.

End Broadcast.

Section FanOut.
Variable JSON_parse : string → option WebSocketMessage.
Variable JSON_stringify : WebSocketMessage → string.
Implicit Types (s : Server) (u : string) (h c : nat) (ws : AuthenticatedClient).

(** X19. A status frame on a socket that already has an identity is a
    pure fan-out. On a sound registry every socket registered under
    another identity than the frame's sender and open is sent the frame
    once, as received; the socket registered under the sender, sockets
    that are not registered and sockets that are not open are sent
    nothing. This handler writes neither the store nor the registry: on
    a socket that has its identity a status frame is relayed, and the
    online flag it announces is not stored. *)
Theorem status_frame_fan_out
    (c : nat) (data : string) (now : Z) (message : WebSocketMessage)
    (ws : AuthenticatedClient) (s : Server) :
  registryOk s →
  sockets s !! c = Some ws → Ws.hasUserId ws = true →
  JSON_parse data = Some message → type message = STATUS →
  let s' := onMessage JSON_parse c data now s in
  storage s' = storage s ∧ clients s' = clients s ∧
  (∀ v h, (v, h) ∈ clients s → v ≠ senderId message →
          Ws.isOpen h (sockets s) = true →
          sentTo h s' = sentTo h s ++ [data]) ∧
  (∀ h, lookup (senderId message) s = Some h → sentTo h s' = sentTo h s) ∧
  (∀ h, (∀ v, (v, h) ∉ clients s) → sentTo h s' = sentTo h s) ∧
  (∀ h, Ws.isOpen h (sockets s) = false → sentTo h s' = sentTo h s) ∧
  (∀ h, stateOf h s' = stateOf h s ∧ identityOf h s' = identityOf h s).
Proof.
  intros Hok Hc Hauth Hparse Hty s'. unfold s', onMessage.
  rewrite Hc, Hparse, Hauth. simpl. unfold route. rewrite Hty.
  pose proof (registry_handles s Hok) as Hnd.
  pose proof (broadcast_delivers (senderId message) data s Hnd) as Hb.
  destruct Hok as (_ & _ & Hent & _).
  split_and!; try done.
  - intros v h Hin Hne Hop. destruct (Hb h) as (Hyes & _). apply Hyes; [by exists v|done].
  - intros h Hl. destruct (Hb h) as (_ & Hno & _). apply Hno. left.
    intros v Hin. apply get_Some_elem in Hl. apply Hent in Hin, Hl. congruence.
  - intros h Hnone. destruct (Hb h) as (_ & Hno & _). apply Hno. left.
    intros v Hin. by destruct (Hnone v).
  - intros h Hcl. destruct (Hb h) as (_ & Hno & _). apply Hno. by right.
  - intros h. split; [by destruct (Hb h) as (_ & _ & ?)|].
    by destruct (broadcast_frame (senderId message) data s) as (_ & _ & ?).
Qed.

(** X20. A genuine disconnect. On a sound registry, when the socket that
    closes is the one registered for its identity: the user is marked
    offline in the store, the entry of the identity is removed and every
    other entry kept, each socket registered under another identity and
    open is sent the offline frame of the user exactly once, and the
    closing socket itself is sent nothing. *)
Theorem genuine_close (c : nat) (now : Z) (u : string) (ws : AuthenticatedClient)
    (s : Server) :
  registryOk s →
  sockets s !! c = Some ws → userId ws = Some u → lookup u s = Some c →
  let s' := onClose JSON_stringify c now s in
  lookup u s' = None ∧
  (∀ v, v ≠ u → lookup v s' = lookup v s) ∧
  (is_Some (getUser u (storage s)) → userOnline u s' = Some false) ∧
  (∀ v, v ≠ u → userOnline v s' = userOnline v s) ∧
  (∀ v h, (v, h) ∈ clients s → v ≠ u → Ws.isOpen h (sockets s) = true →
          sentTo h s' = sentTo h s ++ [JSON_stringify (offlineMessage u)]) ∧
  (∀ h, (∀ v, (v, h) ∉ clients s) ∨ Ws.isOpen h (sockets s) = false →
        sentTo h s' = sentTo h s) ∧
  sentTo c s' = sentTo c s ∧
  stateOf c s' = Some CLOSED.
Proof.
  intros Hok Hc Hu Hl s'.
  pose proof (registry_handles s Hok) as Hnd.
  pose proof Hok as (_ & Hkeys & Hent & Htruthy).
  assert (identityOf c s = Some u) as Hcid by (unfold identityOf; by rewrite Hc).
  assert (Str.truthy u = true) as Ht by (by eapply Htruthy).
  set (s1 := mkServer (updateUserStatus u false now (storage s))
               (alter Ws.closed c (sockets s)) (clients s)).
  set (s2 := broadcast u (JSON_stringify (offlineMessage u)) s1).
  assert (s' = mkServer (storage s2) (sockets s2) (JsMap.delete u (clients s2))) as Hs'.
  { unfold s', onClose. by rewrite Hc, Hu, Ht. }
  assert (∀ h, sentTo h s' = sentTo h s2) as Hsent' by (by rewrite Hs').
  assert (∀ h, stateOf h s' = stateOf h s2) as Hstate' by (by rewrite Hs').
  clearbody s'. subst s'.
  pose proof (broadcast_delivers u (JSON_stringify (offlineMessage u)) s1 Hnd) as Hb.
  fold s2 in Hb.
  assert (∀ h, h ≠ c → Ws.isOpen h (sockets s1) = Ws.isOpen h (sockets s)) as Hopen.
  { intros h Hne. unfold Ws.isOpen. simpl. by rewrite list_lookup_alter_ne. }
  assert (∀ h, sentTo h s1 = sentTo h s) as Hsent.
  { intros h. unfold sentTo. simpl. destruct (decide (c = h)) as [->|Hne].
    - rewrite list_lookup_alter_eq. by destruct (sockets s !! h).
    - by rewrite list_lookup_alter_ne. }
  assert (Ws.isOpen c (sockets s1) = false) as Hcclosed.
  { unfold Ws.isOpen. simpl. rewrite list_lookup_alter_eq, Hc. done. }
  assert (∀ v h, (v, h) ∈ clients s → v ≠ u → h ≠ c) as Hother.
  { intros v h Hin Hne ->. apply Hent in Hin. congruence. }
  split_and!.
  - unfold lookup. simpl. by apply get_delete_eq.
  - intros v Hne. unfold lookup. simpl. by apply get_delete_ne.
  - intros [usr Husr]. unfold userOnline. simpl.
    by rewrite (getUser_updateUserStatus_eq u false now (storage s) usr Husr).
  - intros v Hne. unfold userOnline. simpl.
    by rewrite getUser_updateUserStatus_ne.
  - intros v h Hin Hne Hop. rewrite Hsent'. destruct (Hb h) as (Hyes & _).
    rewrite Hyes.
    + by rewrite Hsent.
    + by exists v.
    + rewrite Hopen; [done|]. by eapply Hother.
  - intros h Hcase. rewrite Hsent'. destruct (Hb h) as (_ & Hno & _). rewrite Hno.
    + by rewrite Hsent.
    + destruct Hcase as [Hnone|Hcl].
      * left. intros v Hin. by destruct (Hnone v).
      * right. destruct (decide (h = c)) as [->|Hne]; [done|]. by rewrite Hopen.
  - rewrite Hsent'. destruct (Hb c) as (_ & Hno & _).
    rewrite Hno; [by rewrite Hsent|by right].
  - rewrite Hstate'. destruct (Hb c) as (_ & _ & Hstate). rewrite Hstate.
    unfold stateOf. simpl. by rewrite list_lookup_alter_eq, Hc.
Qed.
End FanOut.

Lemma registryOk_replaced : registryOk Demo.replaced.
Proof. apply registryOk_run. apply registryOk_newServer. reflexivity. Qed.

Lemma status_frame_fan_out_witness :
  let s' := onMessage Demo.parse 2 "status:1:0:online" 103 Demo.replaced in
  storage s' = storage Demo.replaced ∧
  sentTo 0 s' = sentTo 0 Demo.replaced ++ ["status:1:0:online"] ∧
  sentTo 2 s' = sentTo 2 Demo.replaced.
Proof.
  intros s'.
  destruct (status_frame_fan_out Demo.parse 2 "status:1:0:online" 103
              (mkFrame STATUS "1" "0" (Some "online") None)
              (mkClient (Some "1") true OPEN []) Demo.replaced registryOk_replaced)
    as (Hstore & _ & Hothers & Hself & _);
    [reflexivity | reflexivity | reflexivity | reflexivity |].
  split; [exact Hstore|]. split.
  - apply (Hothers "2" 0%nat); [|discriminate|reflexivity].
    apply list_elem_of_In. simpl. by left.
  - apply Hself. reflexivity.
Defined.

Lemma genuine_close_witness :
  let s' := onClose Demo.stringify 2 103 Demo.replaced in
  lookup "1" s' = None ∧
  userOnline "1" s' = Some false ∧
  sentTo 0 s' = sentTo 0 Demo.replaced ++ [Demo.stringify (offlineMessage "1")].
Proof.
  intros s'.
  destruct (genuine_close Demo.stringify 2 103 "1" (mkClient (Some "1") true OPEN [])
              Demo.replaced registryOk_replaced)
    as (Hgone & _ & Hflag & _ & Hothers & _);
    [reflexivity | reflexivity | reflexivity |].
  split; [exact Hgone|]. split.
  - apply Hflag. vm_compute. eauto.
  - apply (Hothers "2" 0%nat); [|discriminate|reflexivity].
    apply list_elem_of_In. simpl. by left.
Defined.

Section RunFacts.
Variable JSON_parse : string → option WebSocketMessage.
Variable JSON_stringify : WebSocketMessage → string.
Implicit Types (s : Server) (u : string) (h c : nat) (ws : AuthenticatedClient)
  (socks : list AuthenticatedClient).

Lemma onlySent_refl s : onlySent s s.
Proof. intros h. split; [done|]. by intros ?. Qed.

Lemma onlySent_trans s1 s2 s3 : onlySent s1 s2 → onlySent s2 s3 → onlySent s1 s3.
Proof.
  intros H12 H23 h. destruct (H12 h) as [Hp12 Hc12], (H23 h) as [Hp23 Hc23]. split.
  - by etrans.
  - intros Hc. destruct (Hc12 Hc) as [Hc2 Heq2]. destruct (Hc23 Hc2) as [Hc3 Heq3].
    split; [done|congruence].
Qed.

(** Only the sockets matter. *)
Lemma onlySent_sockets s s' : sockets s' = sockets s → onlySent s s'.
Proof.
  intros Heq h. unfold sentTo, closedAt, stateOf. rewrite Heq. split; [done|]. by intros ?.
Qed.

(** One socket is changed by [f], which keeps its frames and, when the
    socket is closing or closed, keeps it so. *)
Lemma onlySent_alter (f : AuthenticatedClient → AuthenticatedClient) h' s st cl :
  (∀ ws, sockets s !! h' = Some ws →
         outbox ws `prefix_of` outbox (f ws) ∧
         (readyState ws = CLOSING ∨ readyState ws = CLOSED →
          (readyState (f ws) = CLOSING ∨ readyState (f ws) = CLOSED) ∧
          outbox (f ws) = outbox ws)) →
  onlySent s (mkServer st (alter f h' (sockets s)) cl).
Proof.
  intros Hf h. unfold sentTo, closedAt, stateOf. simpl.
  destruct (decide (h' = h)) as [->|Hne].
  - rewrite list_lookup_alter_eq. destruct (sockets s !! h) as [ws|] eqn:Hh; simpl.
    + destruct (Hf ws eq_refl) as [Hp Hc]. split; [done|].
      intros Hcl. destruct Hc as [Hc Ho].
      * destruct Hcl as [[= ?]|[= ?]]; auto.
      * split; [|done]. destruct Hc as [-> | ->]; auto.
    + split; [done|]. by intros ?.
  - rewrite list_lookup_alter_ne by done. split; [done|]. by intros ?.
Qed.

Lemma onlySent_send data h' s st cl :
  Ws.isOpen h' (sockets s) = true →
  onlySent s (mkServer st (alter (Ws.send data) h' (sockets s)) cl).
Proof.
  intros Hop. apply onlySent_alter. intros ws Hws.
  unfold Ws.isOpen in Hop. rewrite Hws in Hop. apply bool_decide_eq_true in Hop.
  split; [by apply prefix_app_r|]. intros [?|?]; congruence.
Qed.

Lemma onlySent_forward r data s : onlySent s (forward r data s).
Proof.
  unfold forward. destruct (JsMap.get r (clients s)) as [h|]; [|apply onlySent_refl].
  destruct (Ws.isOpen h (sockets s)) eqn:Hop; [|apply onlySent_refl].
  by apply onlySent_send.
Qed.

Lemma onlySent_broadcast u data s : onlySent s (broadcast u data s).
Proof.
  unfold broadcast, JsMap.entries.
  assert (∀ es socks,
    onlySent (mkServer (storage s) socks (clients s))
      (mkServer (storage s)
         (foldl (λ socks entry,
                   if bool_decide (entry.1 ≠ u) && Ws.isOpen entry.2 socks
                   then alter (Ws.send data) entry.2 socks else socks) socks es)
         (clients s))) as Hfold.
  { induction es as [|[v h] es IH]; intros socks; simpl; [apply onlySent_refl|].
    eapply onlySent_trans; [|apply IH].
    destruct (bool_decide (v ≠ u) && Ws.isOpen h socks) eqn:Hc; [|apply onlySent_refl].
    apply andb_true_iff in Hc as [_ Hop].
    by apply (onlySent_send data h (mkServer (storage s) socks (clients s))). }
  eapply onlySent_trans; [|apply Hfold]. by apply onlySent_sockets.
Qed.

Lemma onlySent_route data message s : onlySent s (route data message s).
Proof.
  unfold route. destruct (type message);
    auto using onlySent_forward, onlySent_broadcast.
Qed.

Lemma onlySent_bind u c s : onlySent s (bind u c s).
Proof.
  unfold bind.
  assert (onlySent s (mkServer (storage s) (alter (Ws.setUserId u) c (sockets s))
                        (JsMap.set u c (clients s)))) as H1.
  { apply onlySent_alter. intros ws _. split; [done|]. by intros ?. }
  destruct (JsMap.has u (clients s)); [|done].
  destruct (JsMap.get u (clients s)) as [h|]; [|done].
  destruct (decide (h ≠ c)); [|done].
  eapply onlySent_trans; [exact H1|].
  refine (onlySent_alter Ws.close h
            (mkServer (storage s) (alter (Ws.setUserId u) c (sockets s))
               (JsMap.set u c (clients s)))
            (storage s) (JsMap.set u c (clients s)) _).
  intros ws _. split; [done|]. unfold Ws.close. simpl.
  intros [-> | ->]; auto.
Qed.

Lemma onlySent_onMessage c data now s : onlySent s (onMessage JSON_parse c data now s).
Proof.
  unfold onMessage. destruct (sockets s !! c) as [ws|]; [|apply onlySent_refl].
  destruct (JSON_parse data) as [message|]; [|apply onlySent_refl].
  destruct (negb (Ws.hasUserId ws) && negb (bool_decide (type message = TEXT)));
    [|apply onlySent_route].
  unfold authenticate.
  destruct (getUser (senderId message) (storage s)); [|apply onlySent_refl].
  destruct (decide (type message = STATUS)).
  - eapply onlySent_trans; [apply (onlySent_bind (senderId message) c)|].
    eapply onlySent_trans; [|apply onlySent_route]. by apply onlySent_sockets.
  - eapply onlySent_trans; [apply (onlySent_bind (senderId message) c)|].
    apply onlySent_route.
Qed.

Lemma onlySent_onClose c now s : onlySent s (onClose JSON_stringify c now s).
Proof.
  unfold onClose. destruct (sockets s !! c) as [ws|]; [|apply onlySent_refl].
  assert (onlySent s (mkServer (storage s) (alter Ws.closed c (sockets s)) (clients s)))
    as H0.
  { apply onlySent_alter. intros ws' _. split; [done|]. intros _. auto. }
  destruct (userId ws) as [u|]; [|done].
  destruct (Str.truthy u); [|done].
  eapply onlySent_trans; [exact H0|].
  eapply onlySent_trans; [|eapply onlySent_trans; [apply onlySent_broadcast|]].
  - by apply onlySent_sockets.
  - by apply onlySent_sockets.
Qed.

Lemma onlySent_onConnection s : onlySent s (onConnection s).
Proof.
  intros h. unfold sentTo, closedAt, stateOf. simpl.
  destruct (sockets s !! h) as [ws|] eqn:Hh.
  - rewrite (lookup_app_l_Some _ _ _ _ Hh). split; [done|]. by intros ?.
  - split; [apply prefix_nil|]. simpl. intros [?|?]; done.
Qed.

Lemma onlySent_onPong c s : onlySent s (onPong c s).
Proof. apply onlySent_alter. intros ws _. split; [done|]. by intros ?. Qed.

Lemma onlySent_step s e : onlySent s (step JSON_parse JSON_stringify s e).
Proof.
  destruct e; simpl;
    auto using onlySent_onConnection, onlySent_onMessage, onlySent_onClose,
               onlySent_onPong.
Qed.

Lemma onlySent_run s es : onlySent s (run JSON_parse JSON_stringify s es).
Proof.
  unfold run. revert s. induction es as [|e es IH]; intros s; simpl;
    [apply onlySent_refl|].
  eapply onlySent_trans; [apply onlySent_step|apply IH].
Qed.

(** X22. A socket that is closing or closed stays so and is sent nothing
    more, whatever happens afterwards: no frame, status broadcast or
    offline notice reaches it, and no event reopens it. *)
Theorem closed_socket_is_silent (s : Server) (es : list Event) (h : nat) :
  closedAt h s →
  closedAt h (run JSON_parse JSON_stringify s es) ∧
  sentTo h (run JSON_parse JSON_stringify s es) = sentTo h s.
Proof. intros Hc. by destruct (onlySent_run s es h) as [_ Hcl]; apply Hcl. Qed.
End RunFacts.

(** Socket 0, registered for user "2", has missed a heartbeat and was
    terminated; its ['close'] has not been handled yet, so it is still
    in the registry. A typing frame for "2" and a status frame then
    arrive on a new socket: neither reaches socket 0, while both are
    sent to it when it is open. *)
Lemma closed_socket_is_silent_witness :
  let frames := [Connection; Frame 3 "typing:1:2:typing" 105;
                 Frame 3 "status:1:0:online" 106] in
  let s := Heartbeat.onInterval (Heartbeat.onInterval Demo.replaced) in
  let s' := run Demo.parse Demo.stringify s frames in
  lookup "2" s = Some 0%nat ∧ lookup "2" s' = Some 0%nat ∧
  closedAt 0 s' ∧ sentTo 0 s' = sentTo 0 s ∧
  sentTo 0 (run Demo.parse Demo.stringify Demo.replaced frames)
  = sentTo 0 Demo.replaced ++ ["typing:1:2:typing"; "status:1:0:online"].
Proof.
  intros frames s s'.
  destruct (closed_socket_is_silent Demo.parse Demo.stringify s frames 0%nat)
    as [Hclosed Hsent]; [left; reflexivity|].
  split_and!; [reflexivity|reflexivity|exact Hclosed|exact Hsent|reflexivity].
Defined.

Section FrameFacts.
Variable JSON_parse : string → option WebSocketMessage.
Variable JSON_stringify : WebSocketMessage → string.
Implicit Types (s : Server) (u : string) (h c : nat) (ws : AuthenticatedClient).

Lemma stateOf_send data h h' (socks : list AuthenticatedClient) :
  readyState <$> alter (Ws.send data) h' socks !! h = readyState <$> socks !! h.
Proof.
  destruct (decide (h' = h)) as [->|Hne].
  - rewrite list_lookup_alter_eq. by destruct (socks !! h).
  - by rewrite list_lookup_alter_ne.
Qed.

Lemma stateOf_route data message s h :
  stateOf h (route data message s) = stateOf h s.
Proof.
  unfold route, stateOf. destruct (type message).
  - unfold forward. destruct (JsMap.get _ _) as [h'|]; [|done].
    destruct (Ws.isOpen h' (sockets s)); [|done]. apply stateOf_send.
  - unfold forward. destruct (JsMap.get _ _) as [h'|]; [|done].
    destruct (Ws.isOpen h' (sockets s)); [|done]. apply stateOf_send.
  - unfold broadcast, JsMap.entries. simpl. generalize (sockets s) as socks.
    induction (clients s) as [|[v h'] cl IH]; intros socks; simpl; [done|].
    rewrite IH. destruct (bool_decide _ && Ws.isOpen h' socks); [|done].
    apply stateOf_send.
Qed.

Lemma aliveOf_send data h h' (socks : list AuthenticatedClient) :
  isAlive <$> alter (Ws.send data) h' socks !! h = isAlive <$> socks !! h.
Proof.
  destruct (decide (h' = h)) as [->|Hne].
  - rewrite list_lookup_alter_eq. by destruct (socks !! h).
  - by rewrite list_lookup_alter_ne.
Qed.

Lemma aliveOf_route data message s h :
  aliveOf h (route data message s) = aliveOf h s.
Proof.
  unfold route, aliveOf. destruct (type message).
  - unfold forward. destruct (JsMap.get _ _) as [h'|]; [|done].
    destruct (Ws.isOpen h' (sockets s)); [|done]. apply aliveOf_send.
  - unfold forward. destruct (JsMap.get _ _) as [h'|]; [|done].
    destruct (Ws.isOpen h' (sockets s)); [|done]. apply aliveOf_send.
  - unfold broadcast, JsMap.entries. simpl. generalize (sockets s) as socks.
    induction (clients s) as [|[v h'] cl IH]; intros socks; simpl; [done|].
    rewrite IH. destruct (bool_decide _ && Ws.isOpen h' socks); [|done].
    apply aliveOf_send.
Qed.

(** X23. Once a socket has an identity, the frames it sends can only be
    delivered: whatever the kind and the content of a frame, the store
    (and with it every persisted online flag), the registry, and the
    identity and the state of every socket stay as they are. A frame that
    does not parse, or that comes from an unknown socket, changes
    nothing at all. *)
Theorem authenticated_frame_only_delivers
    (c : nat) (data : string) (now : Z) (s : Server) :
  let s' := onMessage JSON_parse c data now s in
  (∀ ws, sockets s !! c = Some ws → Ws.hasUserId ws = true →
     storage s' = storage s ∧ clients s' = clients s ∧
     ∀ h, identityOf h s' = identityOf h s ∧ stateOf h s' = stateOf h s ∧
          aliveOf h s' = aliveOf h s) ∧
  (JSON_parse data = None ∨ sockets s !! c = None → s' = s).
Proof.
  intros s'. unfold s', onMessage. split.
  - intros ws Hc Hauth. rewrite Hc, Hauth. simpl.
    destruct (JSON_parse data) as [message|]; [|done].
    destruct (route_frame data message s) as (Hst & Hcl & Hid).
    split; [exact Hst|]. split; [exact Hcl|]. intros h.
    split; [apply Hid|]. split; [apply stateOf_route | apply aliveOf_route].
  - intros [Hp|Hc].
    + rewrite Hp. by destruct (sockets s !! c).
    + by rewrite Hc.
Qed.

Lemma onMessage_text c data now s ws message :
  sockets s !! c = Some ws → JSON_parse data = Some message → type message = TEXT →
  onMessage JSON_parse c data now s = forward (receiverId message) data s.
Proof.
  intros Hc Hp Hty. unfold onMessage. rewrite Hc, Hp.
  rewrite (bool_decide_eq_true_2 _ Hty), andb_false_r. unfold route. by rewrite Hty.
Qed.

(** X24. Text frames for one receiver arrive complete and in order: when
    the receiver is registered with an open socket, a sequence of text
    frames sent from a socket, whether it has an identity or not, is
    appended to what the receiver's socket was sent, frame by frame as
    received, none lost, none doubled; the registry is unchanged. *)
Theorem text_frames_in_order
    (c h : nat) (r : string) (frames : list (string * Z)) (s : Server) :
  is_Some (sockets s !! c) →
  lookup r s = Some h → Ws.isOpen h (sockets s) = true →
  (∀ d, d ∈ frames.*1 →
        ∃ message, JSON_parse d = Some message ∧ type message = TEXT ∧
                   receiverId message = r) →
  let s' := run JSON_parse JSON_stringify s ((λ f, Frame c f.1 f.2) <$> frames) in
  sentTo h s' = sentTo h s ++ frames.*1 ∧
  clients s' = clients s ∧ storage s' = storage s.
Proof.
  revert s. induction frames as [|[d now] frames IH]; intros s Hc Hl Hop Hall s'.
  - unfold s'. simpl. by rewrite app_nil_r.
  - destruct Hc as [ws Hc].
    destruct (Hall d) as (message & Hp & Hty & Hr); [apply elem_of_cons; by left|].
    pose proof (onMessage_text c d now s ws message Hc Hp Hty) as Hstep.
    rewrite Hr in Hstep.
    destruct (forward_delivers r d s h Hl Hop) as (Hsent & Hstate & Hothers).
    destruct (forward_frame r d s) as (Hst & Hcl & _).
    set (s1 := forward r d s) in *.
    assert (is_Some (sockets s1 !! c)) as Hc1.
    { destruct (decide (c = h)) as [->|Hne].
      - unfold stateOf in Hstate. destruct (sockets s1 !! h); [by eexists|done].
      - rewrite Hothers by done. by eexists. }
    assert (Ws.isOpen h (sockets s1) = true) as Hop1.
    { unfold stateOf in Hstate. unfold Ws.isOpen.
      destruct (sockets s1 !! h) as [ws1|]; [|done]. simpl in Hstate.
      injection Hstate as ->. done. }
    assert (lookup r s1 = Some h) as Hl1 by (unfold lookup; by rewrite Hcl).
    assert (∀ d', d' ∈ frames.*1 →
              ∃ m, JSON_parse d' = Some m ∧ type m = TEXT ∧ receiverId m = r) as Hall1.
    { intros d' Hd'. apply Hall. rewrite fmap_cons. apply elem_of_cons; by right. }
    destruct (IH s1 Hc1 Hl1 Hop1 Hall1) as (Hsent' & Hcl' & Hst').
    unfold s'. rewrite !fmap_cons. unfold run. simpl. rewrite Hstep. fold s1.
    unfold run in Hsent', Hcl', Hst'.
    rewrite Hsent', Hcl', Hst', Hsent. rewrite <- app_assoc. done.
Qed.
End FrameFacts.

Lemma text_frames_in_order_witness :
  let s' := run Demo.parse Demo.stringify Demo.withGuest
              [Frame 1 "text:9:2:hi" 103; Frame 1 "text:9:2:hi" 104] in
  sentTo 0 s' = sentTo 0 Demo.withGuest ++ ["text:9:2:hi"; "text:9:2:hi"].
Proof.
  intros s'.
  destruct (text_frames_in_order Demo.parse Demo.stringify 1 0 "2"
              [("text:9:2:hi", 103); ("text:9:2:hi", 104)] Demo.withGuest)
    as (Hsent & _).
  - vm_compute. eauto.
  - reflexivity.
  - reflexivity.
  - intros d Hd. exists (mkFrame TEXT "9" "2" (Some "hi") None).
    apply list_elem_of_In in Hd. simpl in Hd.
    destruct Hd as [<-|[<-|[]]]; split_and!; reflexivity.
  - exact Hsent.
Defined.

Section HeartbeatFacts.
Variable JSON_parse : string → option WebSocketMessage.
Variable JSON_stringify : WebSocketMessage → string.
Implicit Types (s : Server) (u : string) (h c : nat) (ws : AuthenticatedClient).

Lemma lookup_map {A B} (f : A → B) (l : list A) (i : nat) : map f l !! i = f <$> l !! i.
Proof. apply (list_lookup_fmap f l i). Qed.

Lemma aliveOf_alter (f : AuthenticatedClient → AuthenticatedClient) h h'
    (socks : list AuthenticatedClient) :
  (∀ ws, isAlive (f ws) = isAlive ws) →
  isAlive <$> alter f h' socks !! h = isAlive <$> socks !! h.
Proof.
  intros Hf. destruct (decide (h' = h)) as [->|Hne].
  - rewrite list_lookup_alter_eq. destruct (socks !! h); simpl; [by rewrite Hf|done].
  - by rewrite list_lookup_alter_ne.
Qed.

Lemma aliveOf_bind u c s h : aliveOf h (bind u c s) = aliveOf h s.
Proof.
  unfold aliveOf, bind. simpl.
  assert (isAlive <$> alter (Ws.setUserId u) c (sockets s) !! h
          = isAlive <$> sockets s !! h) as H1 by (by apply aliveOf_alter).
  destruct (JsMap.has u (clients s)); [|done].
  destruct (JsMap.get u (clients s)) as [h'|]; [|done].
  destruct (decide (h' ≠ c)); [|done].
  by rewrite aliveOf_alter.
Qed.

Lemma aliveOf_onMessage c data now s h :
  aliveOf h (onMessage JSON_parse c data now s) = aliveOf h s.
Proof.
  unfold onMessage. destruct (sockets s !! c) as [ws|]; [|done].
  destruct (JSON_parse data) as [message|]; [|done].
  destruct (negb (Ws.hasUserId ws) && negb (bool_decide (type message = TEXT)));
    [|apply aliveOf_route].
  unfold authenticate. destruct (getUser (senderId message) (storage s)); [|done].
  destruct (decide (type message = STATUS)); rewrite aliveOf_route;
    apply (aliveOf_bind (senderId message) c s h).
Qed.

Lemma aliveOf_onClose c now s h :
  aliveOf h (onClose JSON_stringify c now s) = aliveOf h s.
Proof.
  unfold onClose. destruct (sockets s !! c) as [ws|]; [|done].
  assert (isAlive <$> alter Ws.closed c (sockets s) !! h = isAlive <$> sockets s !! h)
    as H0 by (by apply aliveOf_alter).
  destruct (userId ws) as [u|]; [|done].
  destruct (Str.truthy u); [|done].
  unfold aliveOf. simpl. rewrite <- H0.
  unfold JsMap.entries. generalize (alter Ws.closed c (sockets s)) as socks.
  induction (clients s) as [|[v h'] cl IH]; intros socks; simpl; [done|].
  rewrite IH. destruct (bool_decide _ && Ws.isOpen h' socks); [|done].
  apply aliveOf_send.
Qed.

Lemma aliveOf_step s e h :
  e ≠ Pong h → is_Some (sockets s !! h) →
  aliveOf h (step JSON_parse JSON_stringify s e) = aliveOf h s.
Proof.
  intros Hne [ws Hh]. destruct e as [|c data now|c now|c]; simpl.
  - unfold aliveOf. simpl. by rewrite (lookup_app_l_Some _ _ _ _ Hh), Hh.
  - apply aliveOf_onMessage.
  - apply aliveOf_onClose.
  - unfold aliveOf. simpl. rewrite list_lookup_alter_ne; [done|]. congruence.
Qed.

Lemma closedAt_onInterval s h : closedAt h s → closedAt h (Heartbeat.onInterval s).
Proof.
  unfold closedAt, stateOf, Heartbeat.onInterval. simpl. rewrite lookup_map.
  destruct (sockets s !! h) as [ws|]; simpl; [|done].
  unfold Heartbeat.check, Heartbeat.terminate.
  intros [[= Hc]|[= Hc]]; rewrite Hc; simpl.
  - left. destruct (isAlive ws); simpl; by rewrite ?Hc.
  - right. by rewrite Hc.
Qed.

Lemma quiet_run s es h :
  (∀ e, e ∈ es → e ≠ Pong h) →
  closedAt h s ∨ aliveOf h s = Some false →
  closedAt h (run JSON_parse JSON_stringify s es) ∨
  aliveOf h (run JSON_parse JSON_stringify s es) = Some false.
Proof.
  unfold run. revert s. induction es as [|e es IH]; intros s Hno Hq; simpl; [done|].
  apply IH; [intros e' He'; apply Hno, elem_of_cons; by right|].
  destruct Hq as [Hcl|Hal].
  - left. by destruct (onlySent_step JSON_parse JSON_stringify s e h) as [_ Hc];
      apply Hc.
  - right. rewrite aliveOf_step; [done| |].
    + apply Hno. apply elem_of_cons; by left.
    + unfold aliveOf in Hal. destruct (sockets s !! h); [by eexists|done].
Qed.

(** X25. The heartbeat. A socket that sends no pong between two
    heartbeats is terminated by the second one, whatever frames, closes
    and connections happen in between. A socket that is open and alive,
    and answers the ping, is still open after the next heartbeat. The
    heartbeat itself touches neither the store, nor the registry, nor
    what sockets were sent, nor their identities. *)
Theorem heartbeat_liveness (h : nat) (s : Server) :
  is_Some (sockets s !! h) →
  (∀ es, (∀ e, e ∈ es → e ≠ Pong h) →
     closedAt h (Heartbeat.onInterval
                   (run JSON_parse JSON_stringify (Heartbeat.onInterval s) es))) ∧
  (∀ ws, sockets s !! h = Some ws → readyState ws = OPEN → isAlive ws = true →
     let s' := Heartbeat.onInterval (onPong h (Heartbeat.onInterval s)) in
     stateOf h s' = Some OPEN ∧ aliveOf h s' = Some false) ∧
  storage (Heartbeat.onInterval s) = storage s ∧
  clients (Heartbeat.onInterval s) = clients s ∧
  (∀ k, sentTo k (Heartbeat.onInterval s) = sentTo k s ∧
        identityOf k (Heartbeat.onInterval s) = identityOf k s).
Proof.
  intros [ws Hh]. split_and!; try done.
  - intros es Hno.
    assert (closedAt h (Heartbeat.onInterval s) ∨
            aliveOf h (Heartbeat.onInterval s) = Some false) as Hq.
    { unfold closedAt, stateOf, aliveOf, Heartbeat.onInterval. simpl.
      rewrite lookup_map, Hh. simpl. unfold Heartbeat.check.
      destruct (decide (readyState ws = CLOSED)) as [Hc|Hc]; [left; right; by rewrite Hc|].
      destruct (isAlive ws) eqn:Ha; [by right|]. left. left. simpl.
      by destruct (readyState ws). }
    destruct (quiet_run _ es h Hno Hq) as [Hcl|Hal]; [by apply closedAt_onInterval|].
    unfold closedAt, stateOf, aliveOf, Heartbeat.onInterval in *. simpl.
    rewrite lookup_map.
    destruct (sockets (run JSON_parse JSON_stringify _ es) !! h) as [ws'|]; [|done].
    simpl in *. injection Hal as Hal. unfold Heartbeat.check.
    destruct (decide (readyState ws' = CLOSED)) as [Hc|Hc]; [right; by rewrite Hc|].
    rewrite Hal. simpl. left. by destruct (readyState ws').
  - intros ws0 Hws0 Hopen Halive. rewrite Hh in Hws0. injection Hws0 as <-.
    unfold stateOf, aliveOf, Heartbeat.onInterval, onPong. simpl.
    rewrite !lookup_map, list_lookup_alter_eq, lookup_map, Hh. simpl.
    destruct ws as [uid alive state sent]. simpl in Hopen, Halive. subst. done.
  - intros k. unfold sentTo, identityOf, Heartbeat.onInterval. simpl.
    rewrite lookup_map. destruct (sockets s !! k) as [wk|]; simpl; [|done].
    unfold Heartbeat.check, Heartbeat.terminate.
    destruct (decide _); [done|]. by destruct (isAlive wk).
Qed.
End HeartbeatFacts.

Lemma heartbeat_liveness_witness :
  closedAt 0 (Heartbeat.onInterval
                (run Demo.parse Demo.stringify (Heartbeat.onInterval Demo.withGuest)
                   [Frame 1 "typing:1:2:typing" 200; Pong 1])).
Proof.
  destruct (heartbeat_liveness Demo.parse Demo.stringify 0 Demo.withGuest) as [Hdead _].
  - vm_compute. eauto.
  - apply Hdead. intros e He. apply list_elem_of_In in He. simpl in He.
    destruct He as [<-|[<-|[]]]; discriminate.
Defined.

(** X26. Every store that [createUser], [updateUserStatus],
    [createMessage] (also when it throws) and [markMessagesAsRead] build
    from the empty one is well formed (each map has every key once, every
    record sits under its own identifier, identifiers come from counter
    values already passed) and holds at most one conversation record per
    unordered pair of users. *)
Theorem store_invariants_in_every_run {Id : Type} `{JsId Id}
    (ops : list (StoreOp (Id:=Id))) :
  wf (runOps ops) ∧ onePerPair (runOps ops) ∧
  NoDup (JsMap.keys (users (runOps ops))) ∧
  NoDup (JsMap.keys (messages (runOps ops))) ∧
  NoDup (JsMap.keys (conversations (runOps ops))) ∧
  (∀ a b, getConversation a b (runOps ops) = getConversation b a (runOps ops)).
Proof.
  destruct (runOps_consistent ops) as [Hwf Hone].
  pose proof Hwf as ((? & _) & (? & _) & (? & _)).
  split_and!; try done.
  intros a b. by rewrite !getConversation_head, conversationsOf_sym.
Qed.
